(** * Linear-programming inverse reinforcement learning (Ng and Russell, 2000)

    A shallow embedding of [irl_methods/linear_programming.py]: the three LP
    formulators [linear_programming], [large_linear_programming] and
    [trajectory_linear_programming], their constraint blocks, and the small
    part of numpy / cvxopt they rely on; and of the gridworlds of
    [irl_methods/mdp/gridworld.py] that its [demo] feeds them: the
    constructor, [step], the state features, the expert policy and the
    re-ordered transitions of [GridWorldDiscEnv], and the re-ordered
    transition function of [GridWorldCtsEnv].

    Conventions of the embedding
    - numbers are rationals ([Q]); floating-point rounding is not modelled;
    - Python ints (grid coordinates, state indices, action codes) are [Z];
    - a two-dimensional numpy array is a [mat]: its column count and its list
      of rows (an array with no rows still has a column count);
    - the objective [c] (a 1 x w array) is the list of its single row, the
      bound vector [b_ub] (an r x 1 array) is the list of its single column;
    - a Python exception is the left injection of [result];
    - the LP solver (cvxopt), [numpy.linalg.inv], the sampling transition
      functions and the policy oracle are collaborators passed as arguments;
      a sampling function threads the state of the world it draws from;
      values drawn from [numpy.random] are passed in as the values drawn;
    - [verbose] only prints and is left out. *)

From Stdlib Require Import List Bool Arith Lia ZArith QArith Qminmax Qround Lqa.
Import ListNotations.

Close Scope Q_scope.
Set Implicit Arguments.

(** ** Python exceptions and the error monad *)

Inductive py_error : Type :=
| TypeError
| IndexError
| ValueError
| ZeroDivisionError
| LinAlgError
| AssertionError.

Definition result (A : Type) : Type := (py_error + A)%type.

Definition ret {A : Type} (a : A) : result A := inr a.
Definition raise {A : Type} (e : py_error) : result A := inl e.

Definition bind {A B : Type} (m : result A) (f : A -> result B) : result B :=
  match m with
  | inl e => inl e
  | inr a => f a
  end.

Notation "x <- m ;; k" := (bind m (fun x => k))
  (at level 61, m at next level, right associativity).
Notation "' p <- m ;; k" := (bind m (fun p => k))
  (at level 61, p pattern, m at next level, right associativity).

(** [for i in items: s = body(i, s)], stopping at the first exception. *)
Fixpoint for_loop {I St : Type} (body : I -> St -> result St)
    (items : list I) (s : St) : result St :=
  match items with
  | [] => ret s
  | i :: rest => s' <- body i s ;; for_loop body rest s'
  end.

(** [enumerate(l)] *)
Definition enumerate {A : Type} (l : list A) : list (nat * A) :=
  combine (seq 0 (length l)) l.

Definition for_range {St : Type} (n : nat) (body : nat -> St -> result St)
    (s : St) : result St :=
  for_loop body (seq 0 n) s.

(** ** Vectors *)

Abbreviation vec := (list Q) (only parsing).

Fixpoint zip_with {A B C : Type} (f : A -> B -> C) (l : list A) (m : list B)
  : list C :=
  match l, m with
  | a :: l', b :: m' => f a b :: zip_with f l' m'
  | _, _ => []
  end.

Definition dot (u v : vec) : Q :=
  fold_right Qplus 0%Q (zip_with Qmult u v).

Definition vscale (a : Q) (v : vec) : vec := map (Qmult a) v.

(** Item assignment [l[i] = v] on a Python list, for a non-negative index:
    IndexError outside the list. *)
Fixpoint upd (i : nat) (v : Q) (l : vec) {struct l} : vec :=
  match l, i with
  | [], _ => []
  | _ :: t, O => v :: t
  | h :: t, S i' => h :: upd i' v t
  end.

Definition list_setitem (l : vec) (i : nat) (v : Q) : result vec :=
  if i <? length l then ret (upd i v l) else raise IndexError.

(** ** Two-dimensional arrays *)

Record mat : Type := mk_mat { ncols : nat; rows : list vec }.

Definition nrows (m : mat) : nat := length (rows m).

Definition wf_mat (m : mat) : Prop :=
  Forall (fun r => length r = ncols m) (rows m).

(** [np.zeros(shape=[r, c])] *)
Definition zeros (r c : nat) : mat := mk_mat c (repeat (repeat 0%Q c) r).

(** [np.identity(n)] *)
Definition identity (n : nat) : mat :=
  mk_mat n (map (fun i => upd i 1%Q (repeat 0%Q n)) (seq 0 n)).

(** [a * M] for a scalar [a] *)
Definition mscale (a : Q) (m : mat) : mat :=
  mk_mat (ncols m) (map (vscale a) (rows m)).

(** [M - N] for arrays of one shape *)
Definition msub (m n : mat) : mat :=
  mk_mat (ncols m) (zip_with (zip_with Qminus) (rows m) (rows n)).

(** [np.vstack((M, N))]: the column counts must agree, also when one of the
    arrays has no rows. *)
Definition vstack (m n : mat) : result mat :=
  if ncols m =? ncols n then ret (mk_mat (ncols m) (rows m ++ rows n))
  else raise ValueError.

(** [np.hstack((M, N))]: the row counts must agree. *)
Definition hstack (m n : mat) : result mat :=
  if nrows m =? nrows n
  then ret (mk_mat (ncols m + ncols n) (zip_with (@app Q) (rows m) (rows n)))
  else raise ValueError.

(** [np.vstack((M, row))] for a Python list [row]: numpy reads the list as a
    1 x len(row) array. *)
Definition vstack_row (m : mat) (row : vec) : result mat :=
  vstack m (mk_mat (length row) [row]).

Definition column (j : nat) (m : mat) : vec :=
  map (fun r => nth j r 0%Q) (rows m).

(** [M @ N]: the inner dimensions must agree. *)
Definition matmul (m n : mat) : result mat :=
  if ncols m =? nrows n
  then ret (mk_mat (ncols n)
              (map (fun r => map (fun j => dot r (column j n))
                                 (seq 0 (ncols n)))
                   (rows m)))
  else raise ValueError.

(** ** Three-dimensional transition tensors

    [T[s, a, s']] as a dense array: its shape and its entries.  The tensor of
    the tabular formulator has shape n x k x n. *)

Record tensor : Type := mk_tensor {
  t_states : nat;
  t_actions : nat;
  t_at : nat -> nat -> nat -> Q
}.

(** [T[:, a, :]]: IndexError when [a] is not an action index. *)
Definition slice_action (T : tensor) (a : nat) : result mat :=
  if a <? t_actions T
  then ret (mk_mat (t_states T)
              (map (fun s => map (fun s' => t_at T s a s')
                                 (seq 0 (t_states T)))
                   (seq 0 (t_states T))))
  else raise IndexError.

(** ** The LP solver collaborator (cvxopt.solvers.lp)

    The solver minimises [c . x] subject to [A x <= b] and returns a result
    object.  Its ['status'] is one of cvxopt's four; ['x'] is [None] when the
    problem was found primal infeasible, and otherwise holds a vector (a
    certificate when dual infeasible, the last iterate when the status is
    unknown). *)

Inductive lp_status : Type :=
| Optimal
| PrimalInfeasible
| DualInfeasible
| Unknown.

Record lp_result : Type := mk_lp_result {
  status : lp_status;
  x : option vec
}.

Definition lp_problem : Type := (vec * mat * vec)%type.

Definition lp_solver : Type := vec -> mat -> vec -> result lp_result.

(** [res['x'][0:n]]: subscripting [None] is a TypeError; a slice never raises
    and keeps at most [n] entries. *)
Definition solution_prefix (res : lp_result) (n : nat) : result vec :=
  match x res with
  | None => raise TypeError
  | Some v => ret (firstn n v)
  end.

(** [np.min], [np.max]: ValueError on an empty array. *)
Definition np_min (vals : vec) : result Q :=
  match vals with
  | [] => raise ValueError
  | v :: t => ret (fold_left Qmin t v)
  end.

Definition np_max (vals : vec) : result Q :=
  match vals with
  | [] => raise ValueError
  | v :: t => ret (fold_left Qmax t v)
  end.

(** Division of a cvxopt dense matrix by a scalar raises ZeroDivisionError on
    a zero divisor. *)
Definition matrix_div (vals : vec) (a : Q) : result vec :=
  if Qeq_bool a 0 then raise ZeroDivisionError
  else ret (map (fun v => (v / a)%Q) vals).

(** ** The tabular formulator, [linear_programming] *)

(** Helper [normalize] of [linear_programming]. *)
Definition normalize (vals : vec) : result vec :=
  min_val <- np_min vals ;;
  max_val <- np_max vals ;;
  matrix_div (map (fun v => (v - min_val)%Q) vals) (max_val - min_val)%Q.

Section Tabular.

(** What the closures of [linear_programming] capture. *)
Variable sorted_transition_tensor : tensor.
Variable T_disc_inv : mat.

Let n : nat := t_states sorted_transition_tensor.
Let k : nat := t_actions sorted_transition_tensor.

(** [-1 * (T[:, 0, :] - T[:, i, :]) @ _T_disc_inv] *)
Definition dominance_rows (i : nat) : result mat :=
  T0 <- slice_action sorted_transition_tensor 0 ;;
  Ti <- slice_action sorted_transition_tensor i ;;
  matmul (mscale (-1) (msub T0 Ti)) T_disc_inv.

(** PolicyOptimality: for each [i] in [range(k - 1)], n rows. *)
Definition add_optimal_policy_constraints (p : lp_problem)
  : result lp_problem :=
  for_range (k - 1)
    (fun i '(c, A_ub, b_ub) =>
       constraint_rows <- dominance_rows i ;;
       A_ub' <- vstack A_ub constraint_rows ;;
       ret (c, A_ub', b_ub ++ repeat 0%Q (nrows constraint_rows)))
    p.

(** CostlySingleStep: n helper variables of weight -1 and, for each [i] in
    [range(k - 1)], n rows that carry the identity in the helper columns. *)
Definition add_costly_single_step_constraints (p : lp_problem)
  : result lp_problem :=
  let '(c, A_ub, b_ub) := p in
  let c := c ++ repeat (-1)%Q n in
  let css_offset := length c - n in
  A_ub <- hstack A_ub (zeros (nrows A_ub) n) ;;
  for_range (k - 1)
    (fun i '(c, A_ub, b_ub) =>
       constraint_rows <- dominance_rows i ;;
       let min_operator_entries := identity n in
       (* np.zeros refuses a negative dimension *)
       padding_entries <-
         (if n <=? css_offset
          then ret (zeros (nrows constraint_rows) (css_offset - n))
          else raise ValueError) ;;
       constraint_rows <- hstack constraint_rows padding_entries ;;
       constraint_rows <- hstack constraint_rows min_operator_entries ;;
       A_ub' <- vstack A_ub constraint_rows ;;
       ret (c, A_ub', b_ub ++ repeat 0%Q (nrows constraint_rows)))
    (c, A_ub, b_ub).

(** L1Regularization: n auxiliary variables of weight [l1] and two rows per
    true variable, [-x_i <= 0] and [x_i - aux_i <= 0]. *)
Definition add_l1norm_constraints (p : lp_problem) (l1 : Q)
  : result lp_problem :=
  let '(c, A_ub, b_ub) := p in
  let c := c ++ repeat l1 n in
  let l1_offset := length c - n in
  A_ub <- hstack A_ub (zeros (nrows A_ub) n) ;;
  for_range n
    (fun i '(c, A_ub, b_ub) =>
       constraint_row_1 <-
         list_setitem (repeat 0%Q (ncols A_ub)) i (-1)%Q ;;
       A_ub <- vstack_row A_ub constraint_row_1 ;;
       let b_ub := b_ub ++ [0%Q] in
       constraint_row_2 <- list_setitem (repeat 0%Q (ncols A_ub)) i 1%Q ;;
       constraint_row_2 <-
         list_setitem constraint_row_2 (l1_offset + i) (-1)%Q ;;
       A_ub <- vstack_row A_ub constraint_row_2 ;;
       ret (c, A_ub, b_ub ++ [0%Q]))
    (c, A_ub, b_ub).

(** BoundConstraint: one row [x_i <= Rmax] per true variable. *)
Definition add_rmax_constraints (p : lp_problem) (Rmax : Q)
  : result lp_problem :=
  for_range n
    (fun i '(c, A_ub, b_ub) =>
       constraint_row <- list_setitem (repeat 0%Q (ncols A_ub)) i 1%Q ;;
       A_ub <- vstack_row A_ub constraint_row ;;
       ret (c, A_ub, b_ub ++ [Rmax]))
    p.

(** The four blocks in the order [linear_programming] applies them. *)
Definition compose_tabular (l1 r_max : Q) : result lp_problem :=
  let c := repeat 0%Q n in
  let A_ub := zeros 0 n in
  let b_ub := @nil Q in
  p <- add_optimal_policy_constraints (c, A_ub, b_ub) ;;
  p <- add_costly_single_step_constraints p ;;
  p <- add_rmax_constraints p r_max ;;
  add_l1norm_constraints p l1.

End Tabular.

(** The formulator: the inverse, the four blocks, one solve, the rescaling.
    It returns the rewards and the solver's result object. *)
Definition linear_programming
    (linalg_inv : mat -> result mat) (solve : lp_solver)
    (sorted_transition_tensor : tensor) (discount_factor : Q)
    (l1_regularisation_weight r_max : Q) : result (vec * lp_result) :=
  let n := t_states sorted_transition_tensor in
  T0 <- slice_action sorted_transition_tensor 0 ;;
  T_disc_inv <- linalg_inv (msub (identity n) (mscale discount_factor T0)) ;;
  '(c, A_ub, b_ub) <-
    compose_tabular sorted_transition_tensor T_disc_inv
      l1_regularisation_weight r_max ;;
  res <- solve c A_ub b_ub ;;
  sol <- solution_prefix res n ;;
  normed <- normalize sol ;;
  ret (vscale r_max normed, res).

(** ** The sampled formulator, [large_linear_programming] *)

(** In-place [target += v] on a one-dimensional array: [v] must have the
    length of [target], or length 1 (numpy broadcasts it). *)
Definition iadd_broadcast (target v : vec) : result vec :=
  if length v =? length target then ret (zip_with Qplus target v)
  else match v with
       | [a] => ret (map (fun t => (t + a)%Q) target)
       | _ => raise ValueError
       end.

(** [np.vstack(g)] for a generator [g] of [count] copies of one array: numpy
    refuses an empty sequence. *)
Definition vstack_copies (count : nat) (block : mat) : result mat :=
  match count with
  | O => raise ValueError
  | S _ => ret (mk_mat (ncols block) (concat (repeat (rows block) count)))
  end.

(** The bound rows [x_i <= 1] and [-x_i <= 1] for the first [d] variables;
    [add_alpha_size_constraints] of the sampled and of the trajectory
    formulator are the same code. *)
Definition add_alpha_size_constraints (d : nat) (p : lp_problem)
  : result lp_problem :=
  for_range d
    (fun i '(c, a_ub, b_ub) =>
       constraint_row <- list_setitem (repeat 0%Q (ncols a_ub)) i 1%Q ;;
       a_ub <- vstack_row a_ub constraint_row ;;
       let b_ub := b_ub ++ [1%Q] in
       constraint_row <- list_setitem (repeat 0%Q (ncols a_ub)) i (-1)%Q ;;
       a_ub <- vstack_row a_ub constraint_row ;;
       ret (c, a_ub, b_ub ++ [1%Q]))
    p.

Section Sampled.

(** States, and the state of the world the sampling function draws from. *)
Variables State World : Type.

Variable state_sample : list State.
Variable num_actions : nat.
Variable ordered_transition_function : State -> nat -> World -> State * World.
Variable basis_value_fn : State -> vec.
Variable penalty_coefficient : Q.
(** At least one sample: with none numpy divides 0 by 0 and fills [a_ve]
    with NaN, which the rationals do not have. *)
Variable num_transition_samples : positive.

Let num_states : nat := length state_sample.

Section Blocks.

Variable num_basis_functions : nat.

(** The value expectations [a_ve] of one state, kept by columns (one
    vector of length d per action), before and after the division by the
    number of samples. *)
Definition accumulate_value_expectations (state : State) (w : World)
  : result (list vec * World) :=
  for_range (Pos.to_nat num_transition_samples)
    (fun _ st =>
       for_range num_actions
         (fun a '(a_ve, w) =>
            let '(s', w') := ordered_transition_function state a w in
            col <- iadd_broadcast (nth a a_ve []) (basis_value_fn s') ;;
            ret (firstn a a_ve ++ col :: skipn (S a) a_ve, w'))
         st)
    (repeat (repeat 0%Q num_basis_functions) num_actions, w).

Definition value_expectations (state : State) (w : World)
  : result (list vec * World) :=
  '(a_ve, w') <- accumulate_value_expectations state w ;;
  ret (map (map (fun v =>
              (v / inject_Z (Zpos num_transition_samples))%Q)) a_ve,
       w').

(** [np.subtract(np.array([a_ve[:, 0]]).T, a_ve[:, 1:]).T]: one row per
    non-expert action; IndexError when there is no action 0. *)
Definition value_expectation_diff_T (a_ve : list vec) : result mat :=
  match a_ve with
  | [] => raise IndexError
  | expert :: others =>
      ret (mk_mat num_basis_functions
             (map (fun other => zip_with Qminus expert other) others))
  end.

(** [add_costly_single_step_constraints] of [large_linear_programming]:
    one helper variable per sampled state and, for each state, the two
    blocks of [k - 1] rows with the plain and the penalised margins. *)
Definition add_costly_single_step_constraints_sampled
    (p : lp_problem) (w : World) : result (lp_problem * World) :=
  let '(c, a_ub, b_ub) := p in
  let c := c ++ repeat (-1)%Q num_states in
  a_ub <- hstack a_ub (zeros (nrows a_ub) num_states) ;;
  for_loop
    (fun '(si, state) '((c, a_ub, b_ub), w) =>
       '(a_ve, w) <- value_expectations state w ;;
       a_ve_diff_T <- value_expectation_diff_T a_ve ;;
       let tmp := mk_mat num_states [upd si (-1)%Q (repeat 0%Q num_states)] in
       tmp <- vstack_copies (num_actions - 1) tmp ;;
       (* first half of the penalty constraints *)
       block <- hstack a_ve_diff_T tmp ;;
       a_ub <- vstack a_ub block ;;
       zero_col <- vstack_copies (num_actions - 1) (mk_mat 1 [[0%Q]]) ;;
       let b_ub := b_ub ++ column 0 zero_col in
       (* second half of the penalty constraints *)
       block <- hstack (mscale penalty_coefficient a_ve_diff_T) tmp ;;
       a_ub <- vstack a_ub block ;;
       zero_col <- vstack_copies (num_actions - 1) (mk_mat 1 [[0%Q]]) ;;
       ret ((c, a_ub, b_ub ++ column 0 zero_col), w))
    (enumerate state_sample)
    ((c, a_ub, b_ub), w).

Definition compose_sampled (w : World) : result (lp_problem * World) :=
  let c := repeat 0%Q num_basis_functions in
  let a_ub := zeros 0 num_basis_functions in
  let b_ub := @nil Q in
  '(p, w) <- add_costly_single_step_constraints_sampled (c, a_ub, b_ub) w ;;
  p <- add_alpha_size_constraints num_basis_functions p ;;
  ret (p, w).

End Blocks.

(** The formulator: it returns the first d coordinates of the solution and
    the solver's result object. *)
Definition large_linear_programming (solve : lp_solver) (w : World)
  : result ((vec * lp_result) * World) :=
  if negb (Qle_bool 1 penalty_coefficient) then raise AssertionError
  else
    match state_sample with
    | [] => raise IndexError
    | s0 :: _ =>
        let num_basis_functions := length (basis_value_fn s0) in
        '((c, a_ub, b_ub), w) <- compose_sampled num_basis_functions w ;;
        res <- solve c a_ub b_ub ;;
        alpha_vector <- solution_prefix res num_basis_functions ;;
        ret ((alpha_vector, res), w)
    end.

End Sampled.

(** ** The trajectory formulator, [trajectory_linear_programming] *)

(** [a - b] on one-dimensional data with numpy's broadcasting: equal lengths,
    or one side of length 1. *)
Definition sub_broadcast (a b : vec) : result vec :=
  if length a =? length b then ret (zip_with Qminus a b)
  else match a, b with
       | _, [y] => ret (map (fun u => (u - y)%Q) a)
       | [u], _ => ret (map (fun y => (u - y)%Q) b)
       | _, _ => raise ValueError
       end.

Definition sum_squares (v : vec) : Q :=
  fold_right (fun u acc => (u * u + acc)%Q) 0%Q v.

(** [np.linalg.norm(alpha - alpha_new) <= tol].  The Euclidean norm is the
    square root of the sum of squares, so the test holds exactly when [tol] is
    not negative and the sum of squares is at most [tol * tol]. *)
Definition alpha_converged (alpha alpha_new : vec) (tol : Q) : result bool :=
  delta <- sub_broadcast alpha alpha_new ;;
  ret (Qle_bool 0 tol && Qle_bool (sum_squares delta) (tol * tol)).

(** Subscripting a Python int, as in [demonstration[0]] for [demonstration]
    drawn from a [range]: always a TypeError. *)
Definition int_getitem {A : Type} (i : nat) (idx : nat) : result A :=
  raise TypeError.

Section Trajectory.

Variables State Action World : Type.

Definition trajectory : Type := list (State * Action).
Definition policy : Type := State -> Action.

(** Sampling transition function [T(s, a) -> (s', done)]. *)
Variable T : State -> Action -> World -> (State * bool) * World.
(** Basis functions [phi_1 .. phi_d]. *)
Variable phi : list (State -> Q).
Variable gamma : Q.
Variable opt_pol : vec -> policy.
Variable p : Q.
(** Number of rollouts; at least one, since with none the empirical value
    is 0 / 0, a NaN vector in numpy. *)
Variable m : positive.
Variable H : nat.
Variable tol : Q.

Let d : nat := length phi.

(** [emperical_trajectory_value]: for each basis function, the running sum
    [value[i] += gamma ** j * phi_i(trajectory[j][0])] over the steps. *)
Definition emperical_trajectory_value (traj : trajectory) : vec :=
  map (fun phi_i =>
         fold_left
           (fun value '(j, (s, _)) =>
              (value + gamma ^ Z.of_nat j * phi_i s)%Q)
           (enumerate traj) 0%Q)
      phi.

(** [emperical_policy_value]: the running vector sum over the
    trajectories, divided by their number. *)
Definition emperical_policy_value (zeta : list trajectory) : vec :=
  let value_vector :=
    fold_left
      (fun value_vector traj =>
         zip_with Qplus value_vector (emperical_trajectory_value traj))
      zeta (repeat 0%Q d) in
  map (fun v => (v / inject_Z (Z.of_nat (length zeta)))%Q) value_vector.

Section Rollouts.

Variable start_state : State.

(** One rollout: [while len(rollout) < H], with [h] the number of steps
    still allowed. *)
Fixpoint rollout (pi : policy) (h : nat) (state : State) (w : World)
  : trajectory * World :=
  match h with
  | O => ([], w)
  | S h' =>
      let action := pi state in
      let '((state', done), w') := T state action w in
      if done then ([(state, action)], w')
      else
        let '(rest, w'') := rollout pi h' state' w' in
        ((state, action) :: rest, w'')
  end.

Fixpoint mc_rollouts (pi : policy) (count : nat) (w : World)
  : list trajectory * World :=
  match count with
  | O => ([], w)
  | S count' =>
      let '(r, w') := rollout pi H start_state w in
      let '(rest, w'') := mc_rollouts pi count' w' in
      (r :: rest, w'')
  end.

Definition mc_trajectories (pi : policy) (w : World)
  : list trajectory * World :=
  mc_rollouts pi (Pos.to_nat m) w.

Variable expert_value_vector : vec.

(** [add_optimal_expert_constraints] for the current policy set, of which
    only the number [k] and the value vectors are read.  The incoming
    objective is dropped and rebuilt. *)
Definition add_optimal_expert_constraints
    (k : nat) (non_expert_policy_value_vectors : mat) (pb : lp_problem)
  : result lp_problem :=
  let '(_, A_ub, b_ub) := pb in
  let c := repeat 0%Q d ++ repeat 1%Q k in
  A_ub <- hstack A_ub (zeros (nrows A_ub) k) ;;
  let margins :=
    mk_mat d (map (fun v => zip_with Qminus expert_value_vector v)
                  (rows non_expert_policy_value_vectors)) in
  block <- hstack margins (mscale (-1) (identity k)) ;;
  A_ub <- vstack A_ub block ;;
  let b_ub := b_ub ++ repeat 0%Q k in
  block <- hstack (mscale p margins) (mscale (-1) (identity k)) ;;
  A_ub <- vstack A_ub block ;;
  ret (c, A_ub, b_ub ++ repeat 0%Q k).

Definition compose_trajectory
    (k : nat) (non_expert_policy_value_vectors : mat)
  : result lp_problem :=
  let c := repeat 0%Q d in
  let A_ub := zeros 0 d in
  let b_ub := @nil Q in
  pb <- add_optimal_expert_constraints k non_expert_policy_value_vectors
          (c, A_ub, b_ub) ;;
  add_alpha_size_constraints d pb.

(** The variables the [while True] loop updates. *)
Record loop_state : Type := mk_loop_state {
  ls_alpha : vec;
  ls_policy_set : list policy;
  ls_value_vectors : mat;
  ls_world : World
}.

(** One pass through the loop body: either the loop breaks with the value
    the function returns, or it goes round again. *)
Definition loop_body (solve : lp_solver) (st : loop_state)
  : result ((vec * option lp_result) + loop_state) :=
  '(c, A_ub, b_ub) <-
    compose_trajectory (length (ls_policy_set st)) (ls_value_vectors st) ;;
  res <- solve c A_ub b_ub ;;
  alpha_new <- solution_prefix res d ;;
  stop <- alpha_converged (ls_alpha st) alpha_new tol ;;
  if stop then
    (* [break], then [return alpha, result] with [result = None] *)
    ret (inl (ls_alpha st, None))
  else
    let alpha := alpha_new in
    let pi := opt_pol alpha in
    let '(trajs, w') := mc_trajectories pi (ls_world st) in
    vv <- vstack_row (ls_value_vectors st) (emperical_policy_value trajs) ;;
    ret (inr (mk_loop_state alpha (ls_policy_set st ++ [pi]) vv w')).

(** The loop, run for at most [fuel] passes; [None] when it is still
    running after that many. *)
Fixpoint loop (solve : lp_solver) (fuel : nat) (st : loop_state)
  : option (result (vec * option lp_result)) :=
  match fuel with
  | O => None
  | S fuel' =>
      match loop_body solve st with
      | inl e => Some (inl e)
      | inr (inl out) => Some (inr out)
      | inr (inr st') => loop solve fuel' st'
      end
  end.

End Rollouts.

(** [zeta[0][0][0]] *)
Definition get_start_state (zeta : list trajectory) : result State :=
  match zeta with
  | [] => raise IndexError
  | [] :: _ => raise IndexError
  | ((s, _) :: _) :: _ => ret s
  end.

(** The check for consistent starting states.  The loop variable ranges
    over [range(len(zeta) - 1)], so it is an int, and the first pass
    subscripts it. *)
Definition check_start_states (zeta : list trajectory) (start_state : State)
  : result unit :=
  for_range (length zeta - 1)
    (fun demonstration _ =>
       s <- @int_getitem State demonstration 0 ;;
       (* not reached: the comparison with [start_state], the warning *)
       ret tt)
    tt.

(** The variables of the loop before its first pass: the random alpha,
    and the policy set and value vectors initialised with the random
    policy and the empirical value of its rollouts. *)
Definition initial_loop_state (start_state : State)
    (alpha0 : vec) (pi0 : policy) (w : World) : loop_state :=
  let '(trajs, w') := mc_trajectories start_state pi0 w in
  mk_loop_state alpha0 [pi0] (mk_mat d [emperical_policy_value trajs]) w'.

(** The formulator.  [alpha0] is the vector drawn by
    [np.random.uniform(size=d) * 2 - 1] and [pi0] the policy drawn by
    [random_policy()]; [on_iteration] is left at its default, None, and
    [verbose] only prints. *)
Definition trajectory_linear_programming
    (solve : lp_solver) (zeta : list trajectory)
    (alpha0 : vec) (pi0 : policy) (fuel : nat) (w : World)
  : option (result (vec * option lp_result)) :=
  match get_start_state zeta with
  | inl e => Some (inl e)
  | inr start_state =>
      match check_start_states zeta start_state with
      | inl e => Some (inl e)
      | inr _ =>
          let expert_value_vector := emperical_policy_value zeta in
          loop start_state expert_value_vector solve fuel
            (initial_loop_state start_state alpha0 pi0 w)
      end
  end.

End Trajectory.

(** ** The discrete gridworld, [GridWorldDiscEnv] of [mdp/gridworld.py]

    The demonstration in [linear_programming.py] builds the input of the
    tabular formulator with this class: the transition tensor of a square
    grid, the expert policy that walks to the nearest goal, and the tensor
    re-ordered so that the expert's action comes first.

    Coordinates, sizes, actions and state indices are Python ints ([Z]); the
    wind and the rewards are rationals.  The Euclidean distance to a goal is
    compared through its square.  The value [np.random.uniform()] draws in
    the policy is passed in as [coin]. *)

(** [range(n)] *)
Definition py_range (n : Z) : list Z := map Z.of_nat (seq 0 (Z.to_nat n)).

(** [a % b] and [a // b] on ints: the remainder has the sign of [b], the
    quotient is rounded down; ZeroDivisionError for [b = 0]. *)
Definition py_mod (a b : Z) : result Z :=
  if (b =? 0)%Z then raise ZeroDivisionError else ret (a mod b)%Z.

Definition py_floordiv (a b : Z) : result Z :=
  if (b =? 0)%Z then raise ZeroDivisionError else ret (a / b)%Z.

(** An integer index on a numpy axis of length [n]: a negative index counts
    from the end; IndexError outside [-n, n). *)
Definition np_index (n : nat) (j : Z) : result nat :=
  if ((0 <=? j) && (j <? Z.of_nat n))%Z then ret (Z.to_nat j)
  else if ((- Z.of_nat n <=? j) && (j <? 0))%Z
       then ret (Z.to_nat (j + Z.of_nat n))
       else raise IndexError.

(** [T[si, ai, j] += v] *)
Definition tensor_iadd (T : tensor) (si ai : nat) (j : Z) (v : Q)
  : result tensor :=
  j' <- np_index (t_states T) j ;;
  ret (mk_tensor (t_states T) (t_actions T)
         (fun s a s' =>
            if (s =? si) && (a =? ai) && (s' =? j')
            then (t_at T s a s' + v)%Q
            else t_at T s a s')).

(** [[f(e) for e in l]] for an [f] that may raise *)
Fixpoint map_result {A B : Type} (f : A -> result B) (l : list A)
  : result (list B) :=
  match l with
  | [] => ret []
  | a :: rest => b <- f a ;; bs <- map_result f rest ;; ret (b :: bs)
  end.

(** [a > b] on rationals *)
Definition Qgt_bool (a b : Q) : bool := negb (Qle_bool a b).

(** A view [A[si, lo:lo+len, :]] of a tensor: it holds no data of its own,
    reading it reads the array as it is at that moment. *)
Record view : Type := mk_view {
  v_state : nat;
  v_lo : nat;
  v_len : nat
}.

Definition read_view (T : tensor) (v : view) : list (nat -> Q) :=
  map (fun a => t_at T (v_state v) a) (seq (v_lo v) (v_len v)).

(** [A[si, lo:lo+len(rs), :] = rs]: the right-hand side is read in full
    before anything is written. *)
Definition assign_rows (T : tensor) (si lo : nat) (rs : list (nat -> Q))
  : tensor :=
  mk_tensor (t_states T) (t_actions T)
    (fun s a s' =>
       if (s =? si) && (lo <=? a) && (a <? lo + length rs)
       then nth (a - lo) rs (fun _ => 0%Q) s'
       else t_at T s a s').

Module GridWorldDiscEnv.

Definition EDGEMODE_CLAMP : Z := 0.
Definition EDGEMODE_WRAP : Z := 1.

Definition ACTION_NORTH : Z := 0.
Definition ACTION_EAST : Z := 1.
Definition ACTION_SOUTH : Z := 2.
Definition ACTION_WEST : Z := 3.
Definition ACTION_NOTHING : Z := 4.

Definition FEATUREMAP_COORD : Z := 0.
Definition FEATUREMAP_IDENTITY : Z := 1.
Definition FEATUREMAP_OTHER_DISTANCE : Z := 2.
Definition FEATUREMAP_GOAL_DISTANCE : Z := 3.

(** North, East, South, West, Nothing as (dx, dy) *)
Definition _A : list (Z * Z) :=
  [(0, 1); (1, 0); (0, -1); (-1, 0); (0, 0)]%Z.

Section Lambdas.

Variable size : Z.
Variable edge_mode : Z.

(** [[(x, y) for y in range(size) for x in range(size)]] *)
Definition _S : list (Z * Z) :=
  flat_map (fun y => map (fun x => (x, y)) (py_range size)) (py_range size).

Definition _apply_edge_mode (x y : Z) : result (Z * Z) :=
  ax <- (if (edge_mode =? EDGEMODE_CLAMP)%Z
         then ret (Z.min (Z.max x 0) (size - 1))
         else py_mod x size) ;;
  ay <- (if (edge_mode =? EDGEMODE_CLAMP)%Z
         then ret (Z.min (Z.max y 0) (size - 1))
         else py_mod y size) ;;
  ret (ax, ay).

(** [math.floor] of an int is that int. *)
Definition _xy2s (x y : Z) : result Z :=
  p1 <- _apply_edge_mode x y ;;
  p0 <- _apply_edge_mode x y ;;
  ret (snd p1 * size + fst p0)%Z.

Definition _s2xy (s : Z) : result (Z * Z) :=
  x <- py_mod s size ;;
  y <- py_floordiv s size ;;
  ret (x, y).

(** The loops of the constructor that fill the transition tensor. *)
Definition build_transition_tensor (wind : Q) : result tensor :=
  for_loop
    (fun '(si, (x, y)) T =>
       for_loop
         (fun '(ai, (dx, dy)) T =>
            j <- _xy2s (x + dx) (y + dy) ;;
            T <- tensor_iadd T si ai j (1 - wind)%Q ;;
            for_loop
              (fun '(wind_dx, wind_dy) T =>
                 j <- _xy2s (x + wind_dx) (y + wind_dy) ;;
                 tensor_iadd T si ai j
                   (wind / inject_Z (Z.of_nat (length _A)))%Q)
              _A T)
         (enumerate _A) T)
    (enumerate _S)
    (mk_tensor (length _S) (length _A) (fun _ _ _ => 0%Q)).

End Lambdas.

Record t : Type := mk_env {
  _size : Z;
  _wind : Q;
  _edge_mode : Z;
  transition_tensor : tensor;
  _initial_state : Z;
  state : Z;
  _goal_states : list Z;
  _per_step_reward : Q;
  _goal_reward : Q;
  ground_truth_reward : vec
}.

(** The constructor; [reset] at its end sets [state] to the initial state. *)
Definition __init__ (size : Z) (wind : Q) (edge_mode : Z)
    (initial_state : Z * Z) (goal_states : list (Z * Z))
    (per_step_reward goal_reward : Q) : result t :=
  if negb ((edge_mode =? EDGEMODE_WRAP) || (edge_mode =? EDGEMODE_CLAMP))%Z
  then raise AssertionError
  else
    T <- build_transition_tensor size edge_mode wind ;;
    initial <- _xy2s size edge_mode (fst initial_state) (snd initial_state) ;;
    goals <- map_result (fun s => _xy2s size edge_mode (fst s) (snd s))
               goal_states ;;
    let reward :=
      map (fun s => if existsb (Z.eqb s) goals
                    then (per_step_reward + goal_reward)%Q
                    else per_step_reward)
          (py_range (Z.of_nat (length (_S size)))) in
    ret (mk_env size wind edge_mode T initial initial goals
           per_step_reward goal_reward reward).

Definition reset (self : t) : t * Z :=
  (mk_env (_size self) (_wind self) (_edge_mode self)
     (transition_tensor self) (_initial_state self) (_initial_state self)
     (_goal_states self) (_per_step_reward self) (_goal_reward self)
     (ground_truth_reward self),
   _initial_state self).

Definition manhattan (p q : Z * Z) : Z :=
  (Z.abs (fst p - fst q) + Z.abs (snd p - snd q))%Z.

(** [get_state_features(s=s, feature_map=feature_map)]; [s = None] stands
    for the current state. *)
Definition get_state_features (self : t) (s : option Z) (feature_map : Z)
  : result vec :=
  let size := _size self in
  let num_states := length (_S size) in
  let s := match s with Some s => s | None => state self end in
  if (feature_map =? FEATUREMAP_COORD)%Z then
    xy <- _s2xy size s ;;
    ret [inject_Z (fst xy); inject_Z (snd xy)]
  else if (feature_map =? FEATUREMAP_IDENTITY)%Z then
    let f := repeat 0%Q num_states in
    i <- np_index num_states s ;;
    ret (upd i 1%Q f)
  else if (feature_map =? FEATUREMAP_OTHER_DISTANCE)%Z then
    let f := repeat 0%Q num_states in
    xy0 <- _s2xy size s ;;
    for_loop
      (fun other_state f =>
         xy <- _s2xy size (Z.of_nat other_state) ;;
         list_setitem f other_state (inject_Z (manhattan xy0 xy)))
      (seq 0 num_states) f
  else if (feature_map =? FEATUREMAP_GOAL_DISTANCE)%Z then
    let f := repeat 0%Q (length (_goal_states self)) in
    xy0 <- _s2xy size s ;;
    for_loop
      (fun '(i, goal_state) f =>
         xy <- _s2xy size goal_state ;;
         list_setitem f i (inject_Z (manhattan xy0 xy)))
      (enumerate (_goal_states self)) f
  else raise AssertionError.

(** [step(action)].  [drawn] is the state that [np.random.choice] draws
    from the row [transition_tensor[state, action, :]].  The environment
    with its new state is returned beside the triple (state, reward,
    done). *)
Definition step (self : t) (action : Z) (drawn : Z)
  : result (t * (Z * Q * bool)) :=
  if negb ((0 <=? action) && (action <? Z.of_nat (length _A)))%Z
  then raise AssertionError
  else
    si <- np_index (t_states (transition_tensor self)) (state self) ;;
    let self :=
      mk_env (_size self) (_wind self) (_edge_mode self)
        (transition_tensor self) (_initial_state self) drawn
        (_goal_states self) (_per_step_reward self) (_goal_reward self)
        (ground_truth_reward self) in
    let done := existsb (Z.eqb (state self)) (_goal_states self) in
    let reward := _per_step_reward self in
    let reward := if done then (reward + _goal_reward self)%Q else reward in
    ret (self, (state self, reward, done)).

(** The six copies of a goal [g] that [get_optimal_policy] appends in a
    wrapping world: [g - (size, size)], [g - (0, size)], [g - (size, 0)],
    [g + (size, size)], [g + (0, size)], [g + (size, 0)]. *)
Definition virtual_goals (size : Z) (g : Z * Z) : list (Z * Z) :=
  [(fst g - size, snd g - size); (fst g - 0, snd g - size);
   (fst g - size, snd g - 0); (fst g + size, snd g + size);
   (fst g + 0, snd g + size); (fst g + size, snd g + 0)]%Z.

(** The goals [get_optimal_policy] collects before it returns the policy:
    the goal states as (x, y) and, in a wrapping world, six shifted copies
    of each. *)
Definition collect_goals (self : t) : result (list (Z * Z)) :=
  let size := _size self in
  goals <- map_result (_s2xy size) (_goal_states self) ;;
  if (_edge_mode self =? EDGEMODE_WRAP)%Z then
    for_loop
      (fun i goals =>
         g <- _s2xy size (nth i (_goal_states self) 0%Z) ;;
         ret (goals ++ virtual_goals size g))
      (seq 0 (length (_goal_states self))) goals
  else ret goals.

Definition squared_distance (g xy : Z * Z) : Z :=
  ((fst g - fst xy) * (fst g - fst xy) + (snd g - snd xy) * (snd g - snd xy))%Z.

(** [nearest_goal] after the search; [smallest_distance] starts at
    [math.inf], here None. *)
Definition pick_nearest_goal (goals : list (Z * Z)) (xy : Z * Z)
  : option (Z * Z) :=
  match goals with
  | [g] => Some g
  | _ =>
      snd (fold_left
             (fun '(smallest_distance, nearest_goal) g =>
                let distance := squared_distance g xy in
                if match smallest_distance with
                   | None => true
                   | Some smallest => (distance <? smallest)%Z
                   end
                then (Some distance, Some g)
                else (smallest_distance, nearest_goal))
             goals (None, None))
  end.

Inductive direction : Type := horizontally | vertically.

(** The closure [policy] that [get_optimal_policy] returns, over the goals it
    has collected. *)
Definition policy (self : t) (goals : list (Z * Z)) (state : Z) (coin : Q)
  : result Z :=
  xy <- _s2xy (_size self) state ;;
  match pick_nearest_goal goals xy with
  | None => raise TypeError
  | Some nearest_goal =>
      let dx := (fst nearest_goal - fst xy)%Z in
      let dy := (snd nearest_goal - snd xy)%Z in
      if ((dx =? dy) && (dy =? 0))%Z then ret ACTION_NOTHING
      else
        let direction : option direction := None in
        let direction :=
          if (Z.abs dx =? Z.abs dy)%Z
          then (if Qgt_bool coin (1 # 2) then Some horizontally
                else Some vertically)
          else direction in
        let direction :=
          if (Z.abs dx >? Z.abs dy)%Z then Some horizontally
          else Some vertically in
        match direction with
        | Some horizontally =>
            ret (if (dx >? 0)%Z then ACTION_EAST else ACTION_WEST)
        | _ => ret (if (dy >? 0)%Z then ACTION_NORTH else ACTION_SOUTH)
        end
  end.

Definition get_optimal_policy (self : t) : result (Z -> Q -> result Z) :=
  goals <- collect_goals self ;;
  ret (policy self goals).

(** The [if] / [elif] chain in the loop of [get_ordered_transition_tensor],
    for the state [si] and the action the policy chose there.  [tmp] is a
    view of the array that is being written, not a copy of its rows: it is
    read after the first assignment. *)
Definition move_expert_action_first (transitions_sorted : tensor)
    (si : nat) (action : Z) : tensor :=
  if (action =? ACTION_NORTH)%Z then
    (* North is already first *)
    transitions_sorted
  else if (action =? ACTION_EAST)%Z then
    let tmp := mk_view si 0 1 in
    let transitions_sorted :=
      assign_rows transitions_sorted si 0
        (read_view transitions_sorted (mk_view si 1 1)) in
    assign_rows transitions_sorted si 1 (read_view transitions_sorted tmp)
  else if (action =? ACTION_SOUTH)%Z then
    let tmp := mk_view si 0 1 in
    let transitions_sorted :=
      assign_rows transitions_sorted si 0
        (read_view transitions_sorted (mk_view si 2 1)) in
    assign_rows transitions_sorted si 1 (read_view transitions_sorted tmp)
  else if (action =? ACTION_WEST)%Z then
    let tmp := mk_view si 0 2 in
    let transitions_sorted :=
      assign_rows transitions_sorted si 0
        (read_view transitions_sorted (mk_view si 3 1)) in
    assign_rows transitions_sorted si 1 (read_view transitions_sorted tmp)
  else
    (* the expert does nothing *)
    transitions_sorted.

(** [get_ordered_transition_tensor(policy)], on a copy of the transition
    tensor. *)
Definition get_ordered_transition_tensor (self : t)
    (policy : Z -> result Z) : result tensor :=
  let transitions_sorted := transition_tensor self in
  for_loop
    (fun y transitions_sorted =>
       for_loop
         (fun x transitions_sorted =>
            s <- _xy2s (_size self) (_edge_mode self) x y ;;
            action <- policy s ;;
            si <- np_index (t_states transitions_sorted) s ;;
            ret (move_expert_action_first transitions_sorted si action))
         (py_range (_size self)) transitions_sorted)
    (py_range (_size self)) transitions_sorted.

End GridWorldDiscEnv.

(** ** The continuous gridworld: the order of the actions

    [GridWorldCtsEnv.get_ordered_transition_function] of [mdp/gridworld.py]
    returns the sampling function the sampled formulator is given.  Its
    closure [_T] re-orders the action indices and then takes a step with the
    action it has picked; the step, which draws the wind, is a
    collaborator. *)

(** [l.remove(x)]: the first occurrence of [x] is taken out; ValueError when
    there is none. *)
Fixpoint list_remove (l : list Z) (x : Z) : result (list Z) :=
  match l with
  | [] => raise ValueError
  | h :: t =>
      if (h =? x)%Z then ret t
      else t' <- list_remove t x ;; ret (h :: t')
  end.

(** [l[i]] on a Python list, indexed like a numpy axis. *)
Definition list_getitem {A : Type} (l : list A) (i : Z) : result A :=
  idx <- np_index (length l) i ;;
  match nth_error l idx with
  | Some a => ret a
  | None => raise IndexError
  end.

Module GridWorldCtsEnv.

(** The five actions, as in the discrete world. *)
Definition _A : list (Z * Z) :=
  [(0, 1); (1, 0); (0, -1); (-1, 0); (0, 0)]%Z.

Section OrderedTransitionFunction.

Variables State World : Type.

(** [self.reset(); self.state = s; self.step(a)], returning the new state. *)
Variable step_from : State -> Z -> World -> result (State * World).

Variable policy : State -> Z.

(** The action [_T] takes for the index [a_i]. *)
Definition actual_action (s : State) (a_i : Z) : result Z :=
  let action := policy s in
  let all_actions := py_range (Z.of_nat (length _A)) in
  all_actions <- list_remove all_actions action ;;
  let all_actions := action :: all_actions in
  list_getitem all_actions a_i.

(** The closure [_T] that [get_ordered_transition_function] returns. *)
Definition _T (s : State) (a_i : Z) (w : World) : result (State * World) :=
  actual_action <- actual_action s a_i ;;
  step_from s actual_action w.

End OrderedTransitionFunction.

End GridWorldCtsEnv.

(** ** The random policy of the trajectory formulator *)

(** [round(q)] to an int: the nearest integer, a tie going to the even
    one. *)
Definition py_round (q : Q) : Z :=
  let f := Qfloor q in
  let r := (q - inject_Z f)%Q in
  if Qgt_bool (1 # 2) r then f
  else if Qgt_bool r (1 # 2) then (f + 1)%Z
  else if Z.even f then f else (f + 1)%Z.

(** [state_as_index_tuple(s, N)] of [trajectory_linear_programming], for
    states and bounds that are Python numbers: IndexError when the state has
    more entries than [S_bounds], ZeroDivisionError for an empty interval. *)
Definition state_as_index_tuple (S_bounds : list (Q * Q)) (s : vec) (N : Z)
  : result (list Z) :=
  for_loop
    (fun '(state_index, state) indices =>
       bounds <- match nth_error S_bounds state_index with
                 | Some b => ret b
                 | None => raise IndexError
                 end ;;
       let '(s_min, s_max) := bounds in
       fraction <- (if Qeq_bool (s_max - s_min) 0
                    then raise ZeroDivisionError
                    else ret ((state - s_min) / (s_max - s_min))%Q) ;;
       let state_disc_index := py_round (fraction * inject_Z (N - 1)) in
       let state_disc_index :=
         Z.min (Z.max state_disc_index 0) (N - 1) in
       ret (indices ++ [state_disc_index]))
    (enumerate s) [].

(** ** Worked instances

    Concrete collaborators and inputs on which the formulators are run. *)

(** An exact inverse by Gauss-Jordan elimination, standing in for
    [numpy.linalg.inv]: LinAlgError on a matrix that is not square or is
    singular. *)
Fixpoint take_pivot (j : nat) (pending : list vec)
  : option (vec * list vec) :=
  match pending with
  | [] => None
  | r :: rest =>
      if Qeq_bool (nth j r 0%Q) 0 then
        match take_pivot j rest with
        | Some (pv, others) => Some (pv, r :: others)
        | None => None
        end
      else Some (r, rest)
  end.

Definition eliminate (j : nat) (pv r : vec) : vec :=
  let f := nth j r 0%Q in
  zip_with (fun a b => Qred (a - f * b)) r pv.

Fixpoint gauss_jordan (cols : list nat) (done pending : list vec)
  : option (list vec) :=
  match cols with
  | [] => Some done
  | j :: cols' =>
      match take_pivot j pending with
      | None => None
      | Some (pv, others) =>
          let pv' := map (fun a => Qred (a / nth j pv 0%Q)) pv in
          gauss_jordan cols'
            (map (eliminate j pv') done ++ [pv'])
            (map (eliminate j pv') others)
      end
  end.

Definition gauss_jordan_inv (m : mat) : result mat :=
  if nrows m =? ncols m then
    match hstack m (identity (ncols m)) with
    | inl e => raise e
    | inr aug =>
        match gauss_jordan (seq 0 (ncols m)) [] (rows aug) with
        | None => raise LinAlgError
        | Some rs => ret (mk_mat (ncols m) (map (skipn (ncols m)) rs))
        end
    end
  else raise LinAlgError.

(** A chain of [n] states with two actions: the expert action 0 steps to the
    right (the last state absorbs), action 1 steps to the left. *)
Definition chain_tensor (n : nat) : tensor :=
  mk_tensor n 2
    (fun s a s' =>
       match a with
       | O => if s' =? Nat.min (S s) (n - 1) then 1%Q else 0%Q
       | _ => if s' =? Nat.pred s then 1%Q else 0%Q
       end).

(** A solver that gives up: status unknown, with its last iterate. *)
Definition stalled_solver (last_iterate : vec) : lp_solver :=
  fun _ _ _ => ret (mk_lp_result Unknown (Some last_iterate)).

(** The same answer reported as optimal. *)
Definition oracle_solver (solution : vec) : lp_solver :=
  fun _ _ _ => ret (mk_lp_result Optimal (Some solution)).

(** Comparison of vectors up to equality of rationals. *)
Fixpoint vec_eqb (u v : vec) : bool :=
  match u, v with
  | [], [] => true
  | a :: u', b :: v' => Qeq_bool a b && vec_eqb u' v'
  | _, _ => false
  end.

(** The three-state chain, discount 1/2: the tensor, the inverse of
    [I - T[:, 0, :] / 2] and the problem before any block. *)
Definition chain3 : tensor := chain_tensor 3.

Definition chain3_disc_inv : mat :=
  mk_mat 3 [[1; 1 # 2; 1 # 2]; [0; 1; 1]; [0; 0; 2]]%Q.

Definition chain3_empty : lp_problem := (repeat 0%Q 3, zeros 0 3, @nil Q).

(** A sampled instance: the states of the chain, two actions, the
    deterministic chain as transition function, two basis value estimates
    per state. *)
Definition chain_step (s a : nat) : nat :=
  match a with
  | O => Nat.min (S s) 2
  | _ => Nat.pred s
  end.

Definition chain_otf (s a : nat) (w : unit) : nat * unit := (chain_step s a, w).

Definition chain_basis_value_fn (s : nat) : vec :=
  [inject_Z (Z.of_nat s); 1%Q].

(** A trajectory instance on the same chain: the episode ends in state 2. *)
Definition chain_T (s a : nat) (w : unit) : (nat * bool) * unit :=
  ((chain_step s a, chain_step s a =? 2), w).

Definition chain_phi : list (nat -> Q) :=
  [fun s => inject_Z (Z.of_nat s); fun _ => 1%Q].

Definition chain_opt_pol (alpha : vec) : policy nat nat := fun _ => 0.

Definition chain_pi0 : policy nat nat := fun _ => 1.

Definition chain_expert_value : vec :=
  emperical_policy_value chain_phi (1 # 2) [[(0, 0); (1, 0)]].

Definition chain_other_values : mat :=
  mk_mat 2 [emperical_policy_value chain_phi (1 # 2) [[(0, 1); (0, 1)]]].

(** The two-state chain, discount 1/2, up to the block before the L1 block. *)
Definition chain2 : tensor := chain_tensor 2.

Definition chain2_before_l1 : result lp_problem :=
  T0 <- slice_action chain2 0 ;;
  T_disc_inv <- gauss_jordan_inv (msub (identity 2) (mscale (1 # 2) T0)) ;;
  p <- add_optimal_policy_constraints chain2 T_disc_inv
         (repeat 0%Q 2, zeros 0 2, []) ;;
  p <- add_costly_single_step_constraints chain2 T_disc_inv p ;;
  add_rmax_constraints chain2 p 1.

Definition chain2_problem : lp_problem :=
  Eval vm_compute in
    match chain2_before_l1 with
    | inr p => p
    | inl _ => ([], zeros 0 0, [])
    end.

(** Two answers of a solver for the nine variables of the three-state
    chain: rewards that grow towards the last state, and constant rewards. *)
Definition chain3_graded : vec := [0; 1 # 2; 1; 0; 0; 0; 0; 0; 0]%Q.

Definition chain3_constant : vec := [1; 1; 1; 0; 0; 0; 1; 1; 1]%Q.

(** A solver that proposes the zero vector and checks it against the
    constraints before reporting it as optimal. *)
Fixpoint satisfiesb (rs : list vec) (bs : vec) (z : vec) : bool :=
  match rs, bs with
  | [], [] => true
  | row :: rs', bound :: bs' =>
      Qle_bool (dot row z) bound && satisfiesb rs' bs' z
  | _, _ => false
  end.

Definition zero_solver : lp_solver :=
  fun c A b =>
    let z := repeat 0%Q (length c) in
    if satisfiesb (rows A) b z
    then ret (mk_lp_result Optimal (Some z))
    else ret (mk_lp_result PrimalInfeasible None).

(** A solver that gives up on every problem with the zero vector as its last
    iterate. *)
Definition stalled_zero_solver : lp_solver :=
  fun c _ _ => ret (mk_lp_result Unknown (Some (repeat 0%Q (length c)))).

(** One expert demonstration on the chain, and two that start in different
    states. *)
Definition chain_demo : list (trajectory nat nat) := [[(0, 0); (1, 0)]].

Definition chain_demos_two_starts : list (trajectory nat nat) :=
  [[(0, 0); (1, 0)]; [(1, 0)]].

(** The chain with its second action replaced by one that stays put. *)
Definition chain3_lazy : tensor :=
  mk_tensor 3 2
    (fun s a s' =>
       match a with
       | O => t_at chain3 s 0 s'
       | _ => if s' =? s then 1%Q else 0%Q
       end).


(** A solver that finds every problem infeasible. *)
Definition infeasible_solver : lp_solver :=
  fun _ _ _ => ret (mk_lp_result PrimalInfeasible None).

(** An environment of size 2 with the goal in the corner (1, 1); the policy
    reads nothing of it but the size. *)
Definition corner_goal_env : GridWorldDiscEnv.t :=
  GridWorldDiscEnv.mk_env 2 (3 # 10) GridWorldDiscEnv.EDGEMODE_CLAMP
    (mk_tensor 4 5 (fun _ _ _ => 0%Q)) 0 0 [3%Z] 0 1 [0; 0; 0; 1]%Q.

(** A policy that always answers East. *)
Definition always_east (s : Z) : result Z := ret GridWorldDiscEnv.ACTION_EAST.

(** An environment of size 3 with one goal, in the corner (2, 2); the
    features read nothing of it but the size and the goals. *)
Definition grid3_env : GridWorldDiscEnv.t :=
  GridWorldDiscEnv.mk_env 3 (3 # 10) GridWorldDiscEnv.EDGEMODE_CLAMP
    (mk_tensor 9 5 (fun _ _ _ => 0%Q)) 0 0 [8%Z] 0 1
    [0; 0; 0; 0; 0; 0; 0; 0; 1]%Q.

(** ** Vocabulary of the properties *)

Definition shape (m : mat) (r c : nat) : Prop :=
  wf_mat m /\ nrows m = r /\ ncols m = c.

(** The LPProblem invariant: [A_ub] is a rectangular array with as many
    columns as [c] has entries and as many rows as [b_ub]. *)
Definition lp_invariant (p : lp_problem) : Prop :=
  let '(c, A_ub, b_ub) := p in
  wf_mat A_ub /\ ncols A_ub = length c /\ nrows A_ub = length b_ub.

(** An assignment [z] of the variables satisfies the constraint rows [rs]
    with bounds [bs] when [row . z <= bound] for each of them. *)
Definition satisfies (rs : list vec) (bs : vec) (z : vec) : Prop :=
  Forall2 (fun row bound => (dot row z <= bound)%Q) rs bs.

(** The row of width [w] that is zero except for [v] at column [i]. *)
Definition unit_row (w i : nat) (v : Q) : vec := upd i v (repeat 0%Q w).

(** The two rows the L1 block writes for variable [i]: [-x_i <= 0] and
    [x_i - aux_i <= 0], the auxiliary variables starting at column [off]. *)
Definition l1_rows (w off i : nat) : list vec :=
  [unit_row w i (-1); upd (off + i) (-1)%Q (unit_row w i 1)].

(** The two rows [x_i <= 1] and [-x_i <= 1]. *)
Definition alpha_rows (w i : nat) : list vec :=
  [unit_row w i 1; unit_row w i (-1)].

(** The value expectations of one state: a column of length [d] for each of
    the [k] actions. *)
Definition a_ve_columns (k d : nat) (a_ve : list vec) : Prop :=
  length a_ve = k /\ Forall (fun col => length col = d) a_ve.

(** The expert's empirical basis-value vector in the words of the
    specification: v_E = (1/|zeta|) Sum_traj Sum_t gamma^t phi(s_t), with
    [s_t] the state at step [t] of the trajectory. *)
Fixpoint discounted_sum_from {State : Type} (gamma : Q) (f : State -> Q)
    (t : nat) (states : list State) : Q :=
  match states with
  | [] => 0%Q
  | s :: rest =>
      (gamma ^ Z.of_nat t * f s + discounted_sum_from gamma f (S t) rest)%Q
  end.

Definition sum_Q (l : list Q) : Q := fold_right Qplus 0%Q l.

Definition basis_value_spec {State Action : Type}
    (phi : list (State -> Q)) (gamma : Q)
    (zeta : list (trajectory State Action)) : vec :=
  map (fun phi_i =>
         (1 / inject_Z (Z.of_nat (length zeta)) *
          sum_Q (map (fun traj =>
                        discounted_sum_from gamma phi_i 0 (map fst traj))
                     zeta))%Q)
      phi.

(** [passes body j st st']: [j] passes through a loop body, none of which
    leaves the loop, lead from [st] to [st']. *)
Inductive passes {St Out : Type} (body : St -> result (Out + St))
  : nat -> St -> St -> Prop :=
| passes_none : forall st, passes body 0 st st
| passes_more : forall j st st' st'',
    body st = inr (inr st') -> passes body j st' st'' ->
    passes body (S j) st st''.

(** Two solvers that raise alike and return the same solution vectors,
    whatever statuses they report. *)
Definition same_solutions (s1 s2 : lp_solver) : Prop :=
  forall c A b,
    match s1 c A b, s2 c A b with
    | inr r1, inr r2 => x r1 = x r2
    | inl e1, inl e2 => e1 = e2
    | _, _ => False
    end.

Definition result_map {A B : Type} (f : A -> B) (r : result A) : result B :=
  match r with
  | inl e => inl e
  | inr a => inr (f a)
  end.

(** A solver whose solution vectors have one entry per variable and satisfy
    the constraints it was given. *)
Definition feasible_solver (solve : lp_solver) : Prop :=
  forall c A b res sol,
    solve c A b = inr res -> x res = Some sol ->
    length sol = length c /\ satisfies (rows A) b sol.

(** Entries between -1 and 1. *)
Definition unit_bounded (v : vec) : Prop :=
  Forall (fun a => (-1 <= a <= 1)%Q) v.

(** The state of the trajectory loop is well formed: the array of value
    vectors has d columns; alpha has d entries, all between -1 and 1. *)
Definition loop_state_ok {State Action World : Type} (d : nat)
    (st : loop_state State Action World) : Prop :=
  wf_mat (ls_value_vectors st) /\ ncols (ls_value_vectors st) = d /\
  length (ls_alpha st) = d /\ unit_bounded (ls_alpha st).

(** [|q|] *)
Definition Qabs_val (q : Q) : Q := Qmax q (- q).

(** A vector whose entries all equal zero. *)
Definition all_zero (v : vec) : Prop := Forall (fun q => (q == 0)%Q) v.

(** The sum of the row [T[s, a, :]]. *)
Definition row_sum (T : tensor) (s a : nat) : Q :=
  sum_Q (map (t_at T s a) (seq 0 (t_states T))).

(** A tensor without negative entries. *)
Definition nonnegative (T : tensor) : Prop :=
  forall s a s', (0 <= t_at T s a s')%Q.

(** The coordinates of a state index. *)
Definition cell_of (size s : Z) : Z * Z := ((s mod size)%Z, (s / size)%Z).

(** The action whose row of the original tensor is found in slot [a] of the
    re-ordered tensor, at a state where the policy chose [action]. *)
Definition slot_source (action : Z) (a : nat) : nat :=
  if (action =? GridWorldDiscEnv.ACTION_EAST)%Z then
    match a with 0 => 1 | _ => a end
  else if (action =? GridWorldDiscEnv.ACTION_SOUTH)%Z then
    match a with 0 | 1 => 2 | _ => a end
  else if (action =? GridWorldDiscEnv.ACTION_WEST)%Z then
    match a with 0 | 1 => 3 | 2 => 1 | _ => a end
  else a.

(** * Properties *)

(** ** The error monad and loops *)

Lemma bind_inr {A B : Type} (m : result A) (f : A -> result B) (b : B) :
  bind m f = inr b -> exists a, m = inr a /\ f a = inr b.
Proof.
  destruct m as [e | a]; simpl; intros Hm; [discriminate | eauto].
Qed.

(** Splits a hypothesis [bind m f = inr b] into its two steps. *)
Ltac bind_step H :=
  let a := fresh "a" in
  let Ha := fresh "Ha" in
  apply bind_inr in H; destruct H as (a & Ha & H).

Tactic Notation "bind_inv" hyp(H) "as" ident(a) ident(Ha) :=
  apply bind_inr in H; destruct H as (a & Ha & H).

(** A loop that returns leaves an invariant over the items it has passed. *)
Lemma for_loop_inv {I St : Type} (body : I -> St -> result St)
    (Inv : list I -> St -> Prop) (items : list I) :
  (forall i done s s', In i items -> Inv done s -> body i s = inr s' ->
                       Inv (done ++ [i]) s') ->
  forall done s s', Inv done s -> for_loop body items s = inr s' ->
                    Inv (done ++ items) s'.
Proof.
  induction items as [| i rest IH]; simpl; intros Hstep done s s' Hinv Hrun.
  - injection Hrun as <-. now rewrite app_nil_r.
  - bind_step Hrun.
    replace (done ++ i :: rest) with ((done ++ [i]) ++ rest)
      by now rewrite <- app_assoc.
    eapply IH; eauto.
Qed.

(** A loop whose body cannot fail under the invariant returns. *)
Lemma for_loop_returns {I St : Type} (body : I -> St -> result St)
    (Inv : list I -> St -> Prop) (items : list I) :
  (forall i done s, In i items -> Inv done s ->
                    exists s', body i s = inr s' /\ Inv (done ++ [i]) s') ->
  forall done s, Inv done s ->
    exists s', for_loop body items s = inr s' /\ Inv (done ++ items) s'.
Proof.
  induction items as [| i rest IH]; simpl; intros Hstep done s Hinv.
  - exists s. split; [reflexivity | now rewrite app_nil_r].
  - destruct (Hstep i done s (or_introl eq_refl) Hinv) as (s1 & Hb & Hinv1).
    rewrite Hb. simpl.
    destruct (IH (fun i' d' s0 Hin => Hstep i' d' s0 (or_intror Hin))
                 (done ++ [i]) s1 Hinv1) as (s2 & Hrun & Hinv2).
    exists s2. split; [exact Hrun |].
    now replace (done ++ i :: rest) with ((done ++ [i]) ++ rest)
      by now rewrite <- app_assoc.
Qed.

(** ** Shapes *)

Lemma length_zip_with {A B C : Type} (f : A -> B -> C) l m :
  length (zip_with f l m) = Nat.min (length l) (length m).
Proof.
  revert m; induction l as [| a l IH]; intros [| b m]; simpl; auto.
Qed.

Lemma length_upd i v l : length (upd i v l) = length l.
Proof.
  revert i; induction l as [| h t IH]; intros [| i]; simpl; auto.
Qed.

Lemma list_setitem_inr l i v l' :
  list_setitem l i v = inr l' -> i < length l /\ l' = upd i v l.
Proof.
  unfold list_setitem. destruct (Nat.ltb_spec i (length l)); simpl.
  - intros [= <-]. auto.
  - discriminate.
Qed.

Lemma list_setitem_ok l i v :
  i < length l -> list_setitem l i v = inr (upd i v l).
Proof.
  intros Hi. unfold list_setitem.
  destruct (Nat.ltb_spec i (length l)); [reflexivity | lia].
Qed.

Lemma shape_zeros r c : shape (zeros r c) r c.
Proof.
  unfold shape, wf_mat, nrows, zeros; simpl. repeat split.
  - apply Forall_forall. intros row Hin.
    apply repeat_spec in Hin. subst. apply repeat_length.
  - apply repeat_length.
Qed.

Lemma shape_identity n : shape (identity n) n n.
Proof.
  unfold shape, wf_mat, nrows, identity; simpl. repeat split.
  - apply Forall_forall. intros row Hin.
    apply in_map_iff in Hin. destruct Hin as (i & <- & _).
    now rewrite length_upd, repeat_length.
  - now rewrite length_map, length_seq.
Qed.

Lemma shape_mscale a m r c : shape m r c -> shape (mscale a m) r c.
Proof.
  unfold shape, wf_mat, nrows, mscale, vscale; simpl.
  intros (Hwf & Hr & Hc). repeat split; auto.
  - apply Forall_forall. intros row Hin.
    apply in_map_iff in Hin. destruct Hin as (row0 & <- & Hin0).
    rewrite length_map. rewrite Forall_forall in Hwf. auto.
  - now rewrite length_map.
Qed.

Lemma vstack_inr m n r :
  vstack m n = inr r ->
  ncols m = ncols n /\ r = mk_mat (ncols m) (rows m ++ rows n).
Proof.
  unfold vstack. destruct (Nat.eqb_spec (ncols m) (ncols n)); simpl.
  - intros [= <-]. auto.
  - discriminate.
Qed.

Lemma shape_vstack m n r rm rn c :
  shape m rm c -> shape n rn c -> vstack m n = inr r -> shape r (rm + rn) c.
Proof.
  intros (Hwm & Hrm & Hcm) (Hwn & Hrn & Hcn) Hv.
  apply vstack_inr in Hv. destruct Hv as (_ & ->).
  unfold shape, wf_mat, nrows in *; simpl. repeat split; auto.
  - apply Forall_app. split; [exact Hwm |].
    rewrite Hcm, <- Hcn. exact Hwn.
  - rewrite length_app. lia.
Qed.

Lemma vstack_ok m n :
  ncols m = ncols n -> vstack m n = inr (mk_mat (ncols m) (rows m ++ rows n)).
Proof.
  intros Hc. unfold vstack.
  destruct (Nat.eqb_spec (ncols m) (ncols n)); [reflexivity | contradiction].
Qed.

Lemma hstack_inr m n r :
  hstack m n = inr r ->
  nrows m = nrows n /\
  r = mk_mat (ncols m + ncols n) (zip_with (@app Q) (rows m) (rows n)).
Proof.
  unfold hstack. destruct (Nat.eqb_spec (nrows m) (nrows n)); simpl.
  - intros [= <-]. auto.
  - discriminate.
Qed.

Lemma Forall_zip_app (l m : list vec) a b :
  Forall (fun r => length r = a) l -> Forall (fun r => length r = b) m ->
  Forall (fun r => length r = a + b) (zip_with (@app Q) l m).
Proof.
  intros Hl; revert m; induction Hl as [| x l Hx Hl IH];
    intros m Hm; simpl; [constructor |].
  destruct Hm as [| y m Hy Hm]; constructor.
  - rewrite length_app. lia.
  - apply IH, Hm.
Qed.

Lemma shape_hstack m n r rm cm cn :
  shape m rm cm -> shape n rm cn -> hstack m n = inr r ->
  shape r rm (cm + cn).
Proof.
  intros (Hwm & Hrm & Hcm) (Hwn & Hrn & Hcn) Hh.
  apply hstack_inr in Hh. destruct Hh as (_ & ->).
  unfold shape, wf_mat, nrows in *; simpl. repeat split.
  - rewrite Hcm, Hcn in *. apply Forall_zip_app; assumption.
  - rewrite length_zip_with. lia.
  - lia.
Qed.

Lemma hstack_ok m n :
  nrows m = nrows n ->
  hstack m n =
  inr (mk_mat (ncols m + ncols n) (zip_with (@app Q) (rows m) (rows n))).
Proof.
  intros Hr. unfold hstack.
  destruct (Nat.eqb_spec (nrows m) (nrows n)); [reflexivity | contradiction].
Qed.

Lemma shape_row (row : vec) : shape (mk_mat (length row) [row]) 1 (length row).
Proof.
  unfold shape, wf_mat, nrows; simpl. repeat split. constructor; auto.
Qed.

Lemma shape_vstack_row m row r rm c :
  shape m rm c -> length row = c -> vstack_row m row = inr r ->
  shape r (S rm) c.
Proof.
  intros Hm Hlen Hv. unfold vstack_row in Hv.
  replace (S rm) with (rm + 1) by lia.
  eapply shape_vstack; eauto. rewrite <- Hlen. apply shape_row.
Qed.

Lemma matmul_inr m n r :
  matmul m n = inr r ->
  ncols m = nrows n /\ wf_mat r /\ nrows r = nrows m /\ ncols r = ncols n.
Proof.
  unfold matmul. destruct (Nat.eqb_spec (ncols m) (nrows n)); simpl;
    [| discriminate].
  intros [= <-]. unfold wf_mat, nrows; simpl. repeat split; auto.
  - apply Forall_forall. intros row Hin.
    apply in_map_iff in Hin. destruct Hin as (r0 & <- & _).
    now rewrite length_map, length_seq.
  - now rewrite length_map.
Qed.

Lemma slice_action_inr T a r :
  slice_action T a = inr r ->
  a < t_actions T /\ shape r (t_states T) (t_states T).
Proof.
  unfold slice_action. destruct (Nat.ltb_spec a (t_actions T)); simpl;
    [| discriminate].
  intros [= <-]. split; [assumption |].
  unfold shape, wf_mat, nrows; simpl. repeat split.
  - apply Forall_forall. intros row Hin.
    apply in_map_iff in Hin. destruct Hin as (s & <- & _).
    now rewrite length_map, length_seq.
  - now rewrite length_map, length_seq.
Qed.

Lemma slice_action_ok T a :
  a < t_actions T -> exists r, slice_action T a = inr r.
Proof.
  intros Ha. unfold slice_action.
  destruct (Nat.ltb_spec a (t_actions T)); [eauto | lia].
Qed.

(** ** The blocks of the tabular formulator *)

Section TabularBlocks.

Variable T : tensor.
Variable Tinv : mat.

Let n : nat := t_states T.
Let k : nat := t_actions T.

Lemma dominance_rows_inr i cr :
  dominance_rows T Tinv i = inr cr ->
  shape cr n (ncols Tinv) /\ nrows Tinv = n.
Proof.
  unfold dominance_rows. intros H.
  bind_step H. bind_step H.
  apply slice_action_inr in Ha. destruct Ha as (_ & Hw0 & Hr0 & Hc0).
  apply slice_action_inr in Ha0. destruct Ha0 as (_ & Hwi & Hri & Hci).
  apply matmul_inr in H. destruct H as (Hin & Hwf & Hr & Hc).
  unfold mscale, msub, nrows in *; simpl in *.
  rewrite length_map, length_zip_with in Hr.
  unfold shape, nrows. fold n in Hr0, Hri, Hc0. repeat split; auto; lia.
Qed.

Lemma dominance_rows_ok i :
  i < k -> 0 < k -> nrows Tinv = n ->
  exists cr, dominance_rows T Tinv i = inr cr.
Proof.
  intros Hi Hk Hn. unfold dominance_rows.
  destruct (slice_action_ok T Hk) as (T0 & HT0).
  destruct (slice_action_ok T Hi) as (Ti & HTi).
  rewrite HT0, HTi. simpl.
  apply slice_action_inr in HT0. destruct HT0 as (_ & _ & _ & Hc0).
  unfold matmul, mscale, msub; simpl. fold n in Hc0. rewrite Hc0, Hn.
  rewrite Nat.eqb_refl. eauto.
Qed.

(** PolicyOptimality: (k-1) n rows, no new variable. *)
Lemma add_optimal_policy_constraints_inr c A b c' A' b' r w :
  shape A r w ->
  add_optimal_policy_constraints T Tinv (c, A, b) = inr (c', A', b') ->
  c' = c /\ shape A' (r + (k - 1) * n) w /\
  length b' = length b + (k - 1) * n.
Proof.
  intros HA Hrun. unfold add_optimal_policy_constraints, for_range in Hrun.
  pose (Inv := fun (done : list nat) (s : lp_problem) =>
                 let '(c1, A1, b1) := s in
                 c1 = c /\ shape A1 (r + length done * n) w /\
                 length b1 = length b + length done * n).
  eapply (for_loop_inv _ Inv) with (done := []) in Hrun.
  - simpl in Hrun. rewrite length_seq in Hrun. exact Hrun.
  - intros i done [[c1 A1] b1] [[c2 A2] b2] _ (-> & HA1 & Hb1) Hbody.
    bind_step Hbody. bind_step Hbody. injection Hbody as <- <- <-.
    apply dominance_rows_inr in Ha. destruct Ha as (Hcr & _).
    pose proof (vstack_inr _ _ Ha0) as (Hcols & _).
    assert (Hw : ncols Tinv = w).
    { destruct HA1 as (_ & _ & <-), Hcr as (_ & _ & <-). auto. }
    rewrite Hw in Hcr.
    pose proof (shape_vstack HA1 Hcr Ha0) as HA2.
    simpl. rewrite !length_app, repeat_length. simpl length.
    destruct Hcr as (_ & -> & _).
    replace (r + (length done + 1) * n) with (r + length done * n + n)
      by lia.
    repeat split; try apply HA2; lia.
  - simpl. rewrite !Nat.add_0_r. auto.
Qed.

(** CostlySingleStep: n new variables of weight -1 and (k-1) n rows. *)
Lemma add_costly_single_step_constraints_inr c A b c' A' b' r w :
  shape A r w ->
  add_costly_single_step_constraints T Tinv (c, A, b) = inr (c', A', b') ->
  c' = c ++ repeat (-1)%Q n /\ shape A' (r + (k - 1) * n) (w + n) /\
  length b' = length b + (k - 1) * n.
Proof.
  intros HA Hrun. unfold add_costly_single_step_constraints in Hrun.
  fold n in Hrun. bind_step Hrun. unfold for_range in Hrun.
  assert (Ha1 : shape a r (w + n)).
  { eapply shape_hstack; [exact HA | | exact Ha].
    replace (nrows A) with r by (symmetry; apply HA). apply shape_zeros. }
  pose (Inv := fun (done : list nat) (s : lp_problem) =>
                 let '(c1, A1, b1) := s in
                 c1 = c ++ repeat (-1)%Q n /\
                 shape A1 (r + length done * n) (w + n) /\
                 length b1 = length b + length done * n).
  eapply (for_loop_inv _ Inv) with (done := []) in Hrun.
  - simpl in Hrun. rewrite length_seq in Hrun. exact Hrun.
  - intros i done [[c1 A1] b1] [[c2 A2] b2] _ (-> & HA1 & Hb1) Hbody.
    bind_inv Hbody as cr Hcr. bind_inv Hbody as pad Hpad.
    bind_inv Hbody as cr1 Hcr1. bind_inv Hbody as cr2 Hcr2.
    bind_inv Hbody as A3 HA3. injection Hbody as <- <- <-.
    apply dominance_rows_inr in Hcr. destruct Hcr as (Hcr & _).
    destruct (n <=? length (c ++ repeat (-1)%Q n) - n); [| discriminate].
    injection Hpad as <-.
    assert (Hp : shape (zeros (nrows cr)
                          (length (c ++ repeat (-1)%Q n) - n - n))
                       n (length (c ++ repeat (-1)%Q n) - n - n)).
    { replace (nrows cr) with n by (symmetry; apply Hcr).
      apply shape_zeros. }
    pose proof (shape_hstack Hcr Hp Hcr1) as H1.
    pose proof (shape_hstack H1 (shape_identity n) Hcr2) as H2.
    pose proof (vstack_inr _ _ HA3) as (Hcols & _).
    assert (H2' : shape cr2 n (w + n)).
    { destruct H2 as (Hwf2 & Hr2 & Hc2), HA1 as (_ & _ & HcA1).
      repeat split; auto. congruence. }
    pose proof (shape_vstack HA1 H2' HA3) as HA2.
    simpl. rewrite !length_app, repeat_length. simpl length.
    replace (nrows cr2) with n by (symmetry; apply H2').
    replace (r + (length done + 1) * n) with (r + length done * n + n)
      by lia.
    repeat split; try apply HA2; lia.
  - simpl. rewrite !Nat.add_0_r. repeat split; auto; apply Ha1.
Qed.

End TabularBlocks.

(** ** Blocks that append unit rows *)

Lemma length_unit_row w i v : length (unit_row w i v) = w.
Proof. unfold unit_row. now rewrite length_upd, repeat_length. Qed.

Lemma Forall_flat_map_rows {I : Type} (f : I -> list vec) (w : nat) items :
  (forall i, Forall (fun r => length r = w) (f i)) ->
  Forall (fun r => length r = w) (flat_map f items).
Proof.
  intros Hf. induction items as [| i rest IH]; simpl; [constructor |].
  apply Forall_app. split; [apply Hf | exact IH].
Qed.

Lemma length_flat_map_const {I A : Type} (f : I -> list A) (c : nat) items :
  (forall i, length (f i) = c) ->
  length (flat_map f items) = length items * c.
Proof.
  intros Hf. induction items as [| i rest IH]; simpl; [reflexivity |].
  rewrite length_app, Hf, IH. lia.
Qed.

Lemma Forall_l1_rows w off i :
  Forall (fun r => length r = w) (l1_rows w off i).
Proof.
  unfold l1_rows. repeat constructor;
    rewrite ?length_upd; apply length_unit_row.
Qed.

Lemma Forall_alpha_rows w i : Forall (fun r => length r = w) (alpha_rows w i).
Proof. unfold alpha_rows. repeat constructor; apply length_unit_row. Qed.

(** BoundConstraint of the sampled and trajectory formulators: the rows it
    appends, when it returns. *)
Lemma add_alpha_size_constraints_inr d c A b c' A' b' :
  add_alpha_size_constraints d (c, A, b) = inr (c', A', b') ->
  c' = c /\ ncols A' = ncols A /\
  rows A' = rows A ++ flat_map (alpha_rows (ncols A)) (seq 0 d) /\
  b' = b ++ flat_map (fun _ => [1%Q; 1%Q]) (seq 0 d).
Proof.
  intros Hrun. unfold add_alpha_size_constraints, for_range in Hrun.
  pose (Inv := fun (done : list nat) (s : lp_problem) =>
                 let '(c1, A1, b1) := s in
                 c1 = c /\ ncols A1 = ncols A /\
                 rows A1 = rows A ++ flat_map (alpha_rows (ncols A)) done /\
                 b1 = b ++ flat_map (fun _ => [1%Q; 1%Q]) done).
  eapply (for_loop_inv _ Inv) with (done := []) in Hrun.
  - exact Hrun.
  - intros i done [[c1 A1] b1] [[c2 A2] b2] _ (-> & Hc1 & Hr1 & ->) Hbody.
    bind_inv Hbody as row1 Hrow1. bind_inv Hbody as A3 HA3.
    cbv zeta in Hbody.
    bind_inv Hbody as row2 Hrow2. bind_inv Hbody as A4 HA4.
    injection Hbody as <- <- <-.
    apply list_setitem_inr in Hrow1. destruct Hrow1 as (_ & ->).
    apply vstack_inr in HA3. destruct HA3 as (_ & ->). simpl in *.
    apply list_setitem_inr in Hrow2. destruct Hrow2 as (_ & ->).
    apply vstack_inr in HA4. destruct HA4 as (_ & ->). simpl.
    rewrite Hc1, Hr1, !flat_map_app. simpl.
    rewrite <- !app_assoc. simpl. auto.
  - simpl. rewrite !app_nil_r. auto.
Qed.

Lemma add_alpha_size_constraints_ok d c A b :
  d <= ncols A ->
  exists out, add_alpha_size_constraints d (c, A, b) = inr out.
Proof.
  intros Hd. unfold add_alpha_size_constraints, for_range.
  pose (Inv := fun (_ : list nat) (s : lp_problem) =>
                 let '(_, A1, _) := s in ncols A1 = ncols A).
  destruct (for_loop_returns
              (fun i '(c, a_ub, b_ub) =>
                 constraint_row <- list_setitem (repeat 0%Q (ncols a_ub)) i 1%Q ;;
                 a_ub <- vstack_row a_ub constraint_row ;;
                 let b_ub := b_ub ++ [1%Q] in
                 constraint_row <-
                   list_setitem (repeat 0%Q (ncols a_ub)) i (-1)%Q ;;
                 a_ub <- vstack_row a_ub constraint_row ;;
                 ret (c, a_ub, b_ub ++ [1%Q]))
              Inv (seq 0 d)) with (done := @nil nat) (s := (c, A, b))
    as (out & Hout & _).
  - intros i done [[c1 A1] b1] Hin Hc1. simpl in Hc1.
    apply in_seq in Hin.
    rewrite list_setitem_ok by (rewrite repeat_length; lia). simpl.
    unfold vstack_row.
    rewrite vstack_ok by (simpl; now rewrite length_upd, repeat_length).
    simpl.
    rewrite list_setitem_ok by (rewrite repeat_length; lia). simpl.
    rewrite vstack_ok by (simpl; now rewrite length_upd, repeat_length).
    simpl. eexists. split; [reflexivity | exact Hc1].
  - reflexivity.
  - eauto.
Qed.

Section TabularUnitRowBlocks.

Variable T : tensor.

Let n : nat := t_states T.

(** BoundConstraint of the tabular formulator: n rows, no new variable. *)
Lemma add_rmax_constraints_inr c A b c' A' b' Rmax r w :
  shape A r w ->
  add_rmax_constraints T (c, A, b) Rmax = inr (c', A', b') ->
  c' = c /\ shape A' (r + n) w /\ length b' = length b + n.
Proof.
  intros HA Hrun. unfold add_rmax_constraints, for_range in Hrun.
  pose (Inv := fun (done : list nat) (s : lp_problem) =>
                 let '(c1, A1, b1) := s in
                 c1 = c /\ shape A1 (r + length done) w /\
                 length b1 = length b + length done).
  eapply (for_loop_inv _ Inv) with (done := []) in Hrun.
  - simpl in Hrun. rewrite length_seq in Hrun. exact Hrun.
  - intros i done [[c1 A1] b1] [[c2 A2] b2] _ (-> & HA1 & Hb1) Hbody.
    bind_inv Hbody as row Hrow. bind_inv Hbody as A3 HA3.
    injection Hbody as <- <- <-.
    apply list_setitem_inr in Hrow. destruct Hrow as (_ & ->).
    eapply shape_vstack_row in HA3; [| exact HA1 |].
    + simpl. rewrite !length_app. simpl.
      replace (r + (length done + 1)) with (S (r + length done)) by lia.
      repeat split; try apply HA3; lia.
    + rewrite length_upd, repeat_length. apply HA1.
  - simpl. rewrite !Nat.add_0_r. auto.
Qed.

Lemma add_rmax_constraints_ok c A b Rmax :
  n <= ncols A ->
  exists out, add_rmax_constraints T (c, A, b) Rmax = inr out.
Proof.
  intros Hn. unfold add_rmax_constraints, for_range.
  pose (Inv := fun (_ : list nat) (s : lp_problem) =>
                 let '(_, A1, _) := s in ncols A1 = ncols A).
  destruct (for_loop_returns
              (fun i '(c, A_ub, b_ub) =>
                 constraint_row <-
                   list_setitem (repeat 0%Q (ncols A_ub)) i 1%Q ;;
                 A_ub <- vstack_row A_ub constraint_row ;;
                 ret (c, A_ub, b_ub ++ [Rmax]))
              Inv (seq 0 (t_states T)))
    with (done := @nil nat) (s := (c, A, b)) as (out & Hout & _).
  - intros i done [[c1 A1] b1] Hin Hc1. simpl in Hc1.
    apply in_seq in Hin. fold n in Hin.
    rewrite list_setitem_ok by (rewrite repeat_length; lia). simpl.
    unfold vstack_row.
    rewrite vstack_ok by (simpl; now rewrite length_upd, repeat_length).
    simpl. eexists. split; [reflexivity | exact Hc1].
  - reflexivity.
  - eauto.
Qed.

(** L1Regularization: what the block returns on a problem that satisfies
    the invariant.  It cannot fail there. *)
Lemma add_l1norm_constraints_eq c A b l1 :
  lp_invariant (c, A, b) ->
  add_l1norm_constraints T (c, A, b) l1 =
  inr (c ++ repeat l1 n,
       mk_mat (ncols A + n)
         (zip_with (@app Q) (rows A) (repeat (repeat 0%Q n) (nrows A)) ++
          flat_map (l1_rows (ncols A + n) (ncols A)) (seq 0 n)),
       b ++ flat_map (fun _ => [0%Q; 0%Q]) (seq 0 n)).
Proof.
  intros (HwA & HcA & HrA). unfold add_l1norm_constraints. fold n.
  rewrite hstack_ok by (symmetry; apply shape_zeros).
  simpl bind. unfold for_range.
  assert (Hoff : length (c ++ repeat l1 n) - n = ncols A).
  { rewrite length_app, repeat_length. lia. }
  rewrite Hoff.
  set (A0 := zip_with (@app Q) (rows A) (repeat (repeat 0%Q n) (nrows A))).
  pose (Inv := fun (done : list nat) (s : lp_problem) =>
                 s = (c ++ repeat l1 n,
                      mk_mat (ncols A + n)
                        (A0 ++ flat_map (l1_rows (ncols A + n) (ncols A))
                                        done),
                      b ++ flat_map (fun _ => [0%Q; 0%Q]) done)).
  destruct (for_loop_returns
              (fun i '(c, A_ub, b_ub) =>
                 constraint_row_1 <-
                   list_setitem (repeat 0%Q (ncols A_ub)) i (-1)%Q ;;
                 A_ub <- vstack_row A_ub constraint_row_1 ;;
                 let b_ub := b_ub ++ [0%Q] in
                 constraint_row_2 <-
                   list_setitem (repeat 0%Q (ncols A_ub)) i 1%Q ;;
                 constraint_row_2 <-
                   list_setitem constraint_row_2 (ncols A + i) (-1)%Q ;;
                 A_ub <- vstack_row A_ub constraint_row_2 ;;
                 ret (c, A_ub, b_ub ++ [0%Q]))
              Inv (seq 0 n))
    with (done := @nil nat)
         (s := (c ++ repeat l1 n, mk_mat (ncols A + n) A0, b))
    as (out & Hout & Hinv).
  - intros i done s Hin ->. apply in_seq in Hin. simpl.
    rewrite list_setitem_ok by (rewrite repeat_length; lia). simpl.
    unfold vstack_row.
    rewrite vstack_ok by (simpl; now rewrite length_upd, repeat_length).
    simpl.
    rewrite list_setitem_ok by (rewrite repeat_length; lia). simpl.
    rewrite list_setitem_ok by (rewrite length_upd, repeat_length; lia).
    simpl.
    rewrite vstack_ok
      by (simpl; now rewrite !length_upd, repeat_length).
    simpl. eexists. split; [reflexivity |].
    unfold Inv. rewrite !flat_map_app. simpl.
    rewrite <- !app_assoc. reflexivity.
  - unfold Inv. simpl. now rewrite !app_nil_r.
  - unfold Inv in Hinv. simpl app in Hinv. subst out. exact Hout.
Qed.

End TabularUnitRowBlocks.

Lemma hstack_shape_ok m n rm cm cn :
  shape m rm cm -> shape n rm cn ->
  exists r, hstack m n = inr r /\ shape r rm (cm + cn).
Proof.
  intros Hm Hn.
  assert (Hr : nrows m = nrows n).
  { destruct Hm as (_ & -> & _), Hn as (_ & -> & _). reflexivity. }
  pose proof (hstack_ok _ _ Hr) as Hh.
  eexists. split; [exact Hh |]. eapply shape_hstack; eauto.
Qed.

Lemma vstack_shape_ok m n rm rn c :
  shape m rm c -> shape n rn c ->
  exists r, vstack m n = inr r /\ shape r (rm + rn) c.
Proof.
  intros Hm Hn.
  assert (Hc : ncols m = ncols n).
  { destruct Hm as (_ & _ & ->), Hn as (_ & _ & ->). reflexivity. }
  pose proof (vstack_ok _ _ Hc) as Hv.
  eexists. split; [exact Hv |]. eapply shape_vstack; eauto.
Qed.

Section TabularReturns.

Variable T : tensor.
Variable Tinv : mat.

Let n : nat := t_states T.
Let k : nat := t_actions T.

Hypothesis actions : 1 <= k.
Hypothesis Tinv_shape : shape Tinv n n.

Lemma add_optimal_policy_constraints_ok c A b :
  wf_mat A -> ncols A = n ->
  exists out, add_optimal_policy_constraints T Tinv (c, A, b) = inr out.
Proof.
  intros HwA HcA. unfold add_optimal_policy_constraints, for_range.
  pose (Inv := fun (_ : list nat) (s : lp_problem) =>
                 let '(_, A1, _) := s in wf_mat A1 /\ ncols A1 = n).
  destruct (for_loop_returns
              (fun i '(c, A_ub, b_ub) =>
                 constraint_rows <- dominance_rows T Tinv i ;;
                 A_ub' <- vstack A_ub constraint_rows ;;
                 ret (c, A_ub', b_ub ++ repeat 0%Q (nrows constraint_rows)))
              Inv (seq 0 (t_actions T - 1)))
    with (done := @nil nat) (s := (c, A, b)) as (out & Hout & _).
  - intros i done [[c1 A1] b1] Hin (Hw1 & Hc1). apply in_seq in Hin.
    destruct (@dominance_rows_ok T Tinv i) as (cr & Hcr);
      [fold k in Hin |- *; lia | fold k; lia | apply Tinv_shape |].
    rewrite Hcr. simpl.
    apply dominance_rows_inr in Hcr. destruct Hcr as (Hcr & _).
    replace (ncols Tinv) with n in Hcr by (symmetry; apply Tinv_shape).
    destruct (@vstack_shape_ok A1 cr (nrows A1) n n) as (A2 & HA2 & HsA2);
      [repeat split; auto | exact Hcr |].
    rewrite HA2. simpl. eexists. split; [reflexivity |].
    split; apply HsA2.
  - split; assumption.
  - eauto.
Qed.

Lemma add_costly_single_step_constraints_ok c A b :
  lp_invariant (c, A, b) -> n <= ncols A ->
  exists out, add_costly_single_step_constraints T Tinv (c, A, b) = inr out.
Proof.
  intros (HwA & HcA & HrA) Hn.
  unfold add_costly_single_step_constraints. fold n.
  destruct (@hstack_shape_ok A (zeros (nrows A) n) (nrows A) (ncols A) n)
    as (A0 & HA0 & HsA0); [repeat split; auto | apply shape_zeros |].
  rewrite HA0. simpl bind. unfold for_range.
  assert (Hoff : length (c ++ repeat (-1)%Q n) - n = ncols A).
  { rewrite length_app, repeat_length. lia. }
  rewrite Hoff.
  pose (Inv := fun (_ : list nat) (s : lp_problem) =>
                 let '(_, A1, _) := s in
                 wf_mat A1 /\ ncols A1 = ncols A + n).
  destruct (for_loop_returns
              (fun i '(c, A_ub, b_ub) =>
                 constraint_rows <- dominance_rows T Tinv i ;;
                 let min_operator_entries := identity n in
                 padding_entries <-
                   (if n <=? ncols A
                    then ret (zeros (nrows constraint_rows) (ncols A - n))
                    else raise ValueError) ;;
                 constraint_rows <- hstack constraint_rows padding_entries ;;
                 constraint_rows <-
                   hstack constraint_rows min_operator_entries ;;
                 A_ub' <- vstack A_ub constraint_rows ;;
                 ret (c, A_ub',
                      b_ub ++ repeat 0%Q (nrows constraint_rows)))
              Inv (seq 0 (t_actions T - 1)))
    with (done := @nil nat) (s := (c ++ repeat (-1)%Q n, A0, b))
    as (out & Hout & _).
  - intros i done [[c1 A1] b1] Hin (Hw1 & Hc1). apply in_seq in Hin.
    destruct (@dominance_rows_ok T Tinv i) as (cr & Hcr);
      [fold k in Hin |- *; lia | fold k; lia | apply Tinv_shape |].
    rewrite Hcr. simpl.
    apply dominance_rows_inr in Hcr. destruct Hcr as (Hcr & _).
    replace (ncols Tinv) with n in Hcr by (symmetry; apply Tinv_shape).
    destruct (Nat.leb_spec n (ncols A)) as [_ | Hlt]; [| lia]. simpl.
    destruct (@hstack_shape_ok cr (zeros (nrows cr) (ncols A - n))
                n n (ncols A - n)) as (cr1 & Hcr1 & Hs1);
      [exact Hcr
      | replace (nrows cr) with n by (symmetry; apply Hcr);
        apply shape_zeros |].
    rewrite Hcr1. simpl.
    destruct (@hstack_shape_ok cr1 (identity n) n (n + (ncols A - n)) n)
      as (cr2 & Hcr2 & Hs2); [exact Hs1 | apply shape_identity |].
    rewrite Hcr2. simpl.
    replace (n + (ncols A - n) + n) with (ncols A + n) in Hs2 by lia.
    destruct (@vstack_shape_ok A1 cr2 (nrows A1) n (ncols A + n))
      as (A2 & HA2 & HsA2); [repeat split; auto | exact Hs2 |].
    rewrite HA2. simpl. eexists. split; [reflexivity |].
    split; apply HsA2.
  - split; apply HsA0.
  - eauto.
Qed.

End TabularReturns.

(** The tabular formulator builds its problem for every tensor with at
    least one action, given an n x n inverse: 3 n variables (rewards, helper
    and L1 variables) and 2 (k-1) n + 3 n rows. *)
Lemma compose_tabular_ok (T : tensor) (Tinv : mat) (l1 r_max : Q) :
  let n := t_states T in
  let k := t_actions T in
  1 <= k ->
  shape Tinv n n ->
  exists c A b,
    compose_tabular T Tinv l1 r_max = inr (c, A, b) /\
    length c = 3 * n /\
    shape A (2 * (k - 1) * n + 3 * n) (3 * n) /\
    length b = 2 * (k - 1) * n + 3 * n.
Proof.
  intros n k Hk HTinv. unfold compose_tabular.
  pose proof (shape_zeros 0 n) as Hs0.
  destruct (@add_optimal_policy_constraints_ok T Tinv Hk HTinv
              (repeat 0%Q n) (zeros 0 n) [])
    as ([[c1 A1] b1] & H1); [apply Hs0 | reflexivity |].
  fold n. rewrite H1. cbn [bind].
  eapply add_optimal_policy_constraints_inr in H1; [| exact Hs0].
  destruct H1 as (Hc1 & HA1 & Hb1). subst c1.
  assert (Hinv1 : lp_invariant (repeat 0%Q n, A1, b1)).
  { destruct HA1 as (Hw & Hr & Hc). repeat split; auto.
    - now rewrite repeat_length.
    - simpl in Hb1. lia. }
  destruct (@add_costly_single_step_constraints_ok T Tinv Hk HTinv
              (repeat 0%Q n) A1 b1 Hinv1)
    as ([[c2 A2] b2] & H2); [destruct HA1 as (_ & _ & Hc); fold n; lia |].
  rewrite H2. cbn [bind].
  eapply add_costly_single_step_constraints_inr in H2; [| exact HA1].
  destruct H2 as (Hc2 & HA2 & Hb2). fold n in Hc2. subst c2.
  destruct (@add_rmax_constraints_ok T (repeat 0%Q n ++ repeat (-1)%Q n)
              A2 b2 r_max)
    as ([[c3 A3] b3] & H3); [destruct HA2 as (_ & _ & Hc); fold n; lia |].
  rewrite H3. cbn [bind].
  eapply add_rmax_constraints_inr in H3; [| exact HA2].
  destruct H3 as (Hc3 & HA3 & Hb3). subst c3.
  assert (Hinv3 :
            lp_invariant (repeat 0%Q n ++ repeat (-1)%Q n, A3, b3)).
  { destruct HA3 as (Hw & Hr & Hc). repeat split; auto.
    - rewrite length_app, !repeat_length. fold n in Hc. lia.
    - simpl in Hb1. fold n k in Hb1, Hb2, Hb3, Hr. lia. }
  rewrite (add_l1norm_constraints_eq T l1 Hinv3). fold n.
  do 3 eexists. split; [reflexivity |].
  destruct HA3 as (Hw3 & Hr3 & Hc3). simpl in Hb1.
  fold n k in Hb1, Hb2, Hb3, Hr3, Hc3.
  assert (Hl1 : length (flat_map (l1_rows (ncols A3 + n) (ncols A3))
                                 (seq 0 n)) = 2 * n).
  { rewrite (@length_flat_map_const _ _ _ 2) by reflexivity.
    rewrite length_seq. lia. }
  assert (Hl0 : length (flat_map (fun _ : nat => [0%Q; 0%Q]) (seq 0 n))
                = 2 * n).
  { rewrite (@length_flat_map_const _ _ _ 2) by reflexivity.
    rewrite length_seq. lia. }
  unfold shape, wf_mat, nrows in *. cbn [ncols rows].
  rewrite !length_app, !repeat_length, length_zip_with, repeat_length.
  rewrite Hl1, Hl0. repeat split; try lia.
  apply Forall_app. split.
  - replace (3 * n) with (ncols A3 + n) by lia.
    apply Forall_zip_app; [exact Hw3 |].
    apply Forall_forall. intros row Hin.
    apply repeat_spec in Hin. subst row. apply repeat_length.
  - replace (3 * n) with (ncols A3 + n) by lia.
    apply Forall_flat_map_rows. intros i. apply Forall_l1_rows.
Qed.

(** ** The blocks of the sampled formulator *)

Lemma Forall_firstn_skipn {A : Type} (P : A -> Prop) (i : nat) (l : list A) :
  Forall P l -> Forall P (firstn i l) /\ Forall P (skipn i l).
Proof.
  intros Hl. rewrite <- (firstn_skipn i l) in Hl.
  now apply Forall_app in Hl.
Qed.

Lemma length_replace_item {A : Type} (l : list A) (i : nat) (y : A) :
  i < length l -> length (firstn i l ++ y :: skipn (S i) l) = length l.
Proof.
  intros Hi. rewrite length_app, length_firstn. cbn [length].
  rewrite length_skipn. lia.
Qed.

Lemma Forall_replace_item {A : Type} (P : A -> Prop) (l : list A) i y :
  Forall P l -> P y -> Forall P (firstn i l ++ y :: skipn (S i) l).
Proof.
  intros Hl Hy.
  destruct (Forall_firstn_skipn i Hl) as (Hf & _).
  destruct (Forall_firstn_skipn (S i) Hl) as (_ & Hs).
  apply Forall_app. split; [exact Hf |]. constructor; assumption.
Qed.

Lemma iadd_broadcast_length target v r :
  iadd_broadcast target v = inr r -> length r = length target.
Proof.
  unfold iadd_broadcast.
  destruct (Nat.eqb_spec (length v) (length target)) as [Heq | _].
  - intros [= <-]. rewrite length_zip_with. lia.
  - destruct v as [| a [| b v]]; try discriminate.
    intros [= <-]. apply length_map.
Qed.

Lemma iadd_broadcast_ok target v :
  length v = length target -> exists r, iadd_broadcast target v = inr r.
Proof.
  intros Hlen. unfold iadd_broadcast. rewrite Hlen, Nat.eqb_refl. eauto.
Qed.

Lemma Forall_concat_repeat {A : Type} (P : A -> Prop) (l : list A) q :
  Forall P l -> Forall P (concat (repeat l q)).
Proof.
  intros Hl. induction q as [| q IH]; simpl; [constructor |].
  apply Forall_app. split; assumption.
Qed.

Lemma length_concat_repeat {A : Type} (l : list A) q :
  length (concat (repeat l q)) = q * length l.
Proof.
  induction q as [| q IH]; simpl; [reflexivity |].
  rewrite length_app, IH. reflexivity.
Qed.

Lemma vstack_copies_inr count block r rb c :
  shape block rb c -> vstack_copies count block = inr r ->
  1 <= count /\ shape r (count * rb) c.
Proof.
  intros (Hw & Hr & Hc) Hv. unfold vstack_copies in Hv.
  destruct count as [| count']; [discriminate |].
  injection Hv as <-. split; [lia |].
  unfold shape, wf_mat, nrows in *. cbn [ncols rows].
  repeat split; auto.
  - now apply (@Forall_concat_repeat _ _ _ (S count')).
  - etransitivity; [apply (length_concat_repeat _ (S count')) |].
    now rewrite Hr.
Qed.

Lemma length_column j m : length (column j m) = nrows m.
Proof. unfold column. apply length_map. Qed.

Lemma length_enumerate {A : Type} (l : list A) :
  length (enumerate l) = length l.
Proof.
  unfold enumerate. rewrite length_combine, length_seq. lia.
Qed.

Lemma value_expectation_diff_T_inr num_actions d a_ve D :
  a_ve_columns num_actions d a_ve ->
  value_expectation_diff_T d a_ve = inr D ->
  shape D (num_actions - 1) d.
Proof.
  intros (Hlen & Hall) HD. unfold value_expectation_diff_T in HD.
  destruct a_ve as [| expert others]; [discriminate |].
  injection HD as <-. apply Forall_cons_iff in Hall.
  destruct Hall as (He & Ho). simpl in Hlen.
  unfold shape, wf_mat, nrows; simpl. repeat split.
  - apply Forall_forall. intros row Hin.
    apply in_map_iff in Hin. destruct Hin as (other & <- & Hin0).
    rewrite length_zip_with. rewrite Forall_forall in Ho.
    rewrite (Ho _ Hin0). lia.
  - rewrite length_map. lia.
Qed.

Section SampledBlocks.

Variables State World : Type.
Variable state_sample : list State.
Variable num_actions : nat.
Variable ordered_transition_function : State -> nat -> World -> State * World.
Variable basis_value_fn : State -> vec.
Variable penalty_coefficient : Q.
Variable num_transition_samples : positive.
Variable d : nat.

Let a_ve_shape := a_ve_columns num_actions d.

Lemma accumulate_value_expectations_inr state w a_ve w' :
  accumulate_value_expectations num_actions ordered_transition_function
    basis_value_fn num_transition_samples d state w = inr (a_ve, w') ->
  a_ve_shape a_ve.
Proof.
  unfold accumulate_value_expectations, for_range. intros Hrun.
  pose (Inv := fun (_ : list nat) (s : list vec * World) =>
                 a_ve_shape (fst s)).
  apply (for_loop_inv _ Inv) with (done := []) in Hrun; [exact Hrun | |].
  - intros pass done s s' _ Hs Hinner.
    apply (for_loop_inv _ Inv) with (done := []) in Hinner;
      [exact Hinner | | exact Hs].
    intros a done' [cols w0] [cols' w1] Hin (Hlen & Hall) Hbody.
    simpl in Hlen, Hall. apply in_seq in Hin.
    destruct (ordered_transition_function state a w0) as [s1 w2].
    bind_inv Hbody as col Hcol. injection Hbody as <- <-.
    apply iadd_broadcast_length in Hcol.
    split; cbn [fst].
    + etransitivity; [apply length_replace_item; lia | exact Hlen].
    + apply Forall_replace_item; [exact Hall |].
      rewrite Hcol. rewrite Forall_forall in Hall.
      apply Hall, nth_In. lia.
  - split; simpl; [apply repeat_length |].
    apply Forall_forall. intros col Hin.
    apply repeat_spec in Hin. subst. apply repeat_length.
Qed.

Lemma value_expectations_inr state w a_ve w' :
  value_expectations num_actions ordered_transition_function
    basis_value_fn num_transition_samples d state w = inr (a_ve, w') ->
  a_ve_shape a_ve.
Proof.
  unfold value_expectations. intros Hrun.
  bind_inv Hrun as acc Hacc. destruct acc as [a_ve0 w0].
  injection Hrun as <- <-.
  apply accumulate_value_expectations_inr in Hacc.
  destruct Hacc as (Hlen & Hall). split.
  - now rewrite length_map.
  - apply Forall_forall. intros col Hin.
    apply in_map_iff in Hin. destruct Hin as (col0 & <- & Hin0).
    rewrite length_map. rewrite Forall_forall in Hall. auto.
Qed.

Let m : nat := length state_sample.

(** CostlySingleStep in alpha-space: one helper variable and 2 (k-1) rows
    per sampled state. *)
Lemma add_costly_single_step_constraints_sampled_inr
    c A b w c' A' b' w' r wd :
  shape A r wd ->
  add_costly_single_step_constraints_sampled state_sample num_actions
    ordered_transition_function basis_value_fn penalty_coefficient
    num_transition_samples d (c, A, b) w = inr ((c', A', b'), w') ->
  c' = c ++ repeat (-1)%Q m /\
  shape A' (r + m * (2 * (num_actions - 1))) (wd + m) /\
  length b' = length b + m * (2 * (num_actions - 1)).
Proof.
  intros HA Hrun. unfold add_costly_single_step_constraints_sampled in Hrun.
  fold m in Hrun.
  bind_inv Hrun as A0 HA0.
  assert (HsA0 : shape A0 r (wd + m)).
  { eapply shape_hstack; [exact HA | | exact HA0].
    replace (nrows A) with r by (symmetry; apply HA). apply shape_zeros. }
  set (q := 2 * (num_actions - 1)).
  pose (Inv := fun (done : list (nat * State)) (s : lp_problem * World) =>
                 let '((c1, A1, b1), _) := s in
                 c1 = c ++ repeat (-1)%Q m /\
                 shape A1 (r + length done * q) (wd + m) /\
                 length b1 = length b + length done * q).
  eapply (for_loop_inv _ Inv) with (done := []) in Hrun.
  - simpl in Hrun. rewrite length_enumerate in Hrun. exact Hrun.
  - intros [si state] done [[[c1 A1] b1] w1] [[[c2 A2] b2] w2] _
           (-> & HA1 & Hb1) Hbody.
    bind_inv Hbody as ve Hve. destruct ve as [a_ve w3].
    bind_inv Hbody as D HD. bind_inv Hbody as tmp Htmp.
    bind_inv Hbody as blk1 Hblk1. bind_inv Hbody as A3 HA3.
    bind_inv Hbody as z1 Hz1. cbv zeta in Hbody.
    bind_inv Hbody as blk2 Hblk2. bind_inv Hbody as A4 HA4.
    bind_inv Hbody as z2 Hz2. injection Hbody as <- <- <- <-.
    apply value_expectations_inr in Hve.
    pose proof (value_expectation_diff_T_inr Hve HD) as HsD.
    assert (Hrow : shape (mk_mat m [upd si (-1)%Q (repeat 0%Q m)]) 1 m).
    { unfold shape, wf_mat, nrows; simpl. repeat split.
      constructor; [| constructor].
      now rewrite length_upd, repeat_length. }
    eapply vstack_copies_inr in Htmp; [| exact Hrow].
    destruct Htmp as (Hk & Htmp).
    rewrite Nat.mul_1_r in Htmp.
    pose proof (shape_hstack HsD Htmp Hblk1) as Hs1.
    assert (Hwd : d + m = wd + m).
    { apply vstack_inr in HA3. destruct HA3 as (Hc3 & _).
      destruct HA1 as (_ & _ & HcA1), Hs1 as (_ & _ & Hc1). congruence. }
    rewrite Hwd in Hs1.
    pose proof (shape_vstack HA1 Hs1 HA3) as HsA3.
    pose proof (shape_hstack (shape_mscale penalty_coefficient HsD)
                  Htmp Hblk2) as Hs2.
    rewrite Hwd in Hs2.
    pose proof (shape_vstack HsA3 Hs2 HA4) as HsA4.
    assert (Hone : shape (mk_mat 1 [[0%Q]]) 1 1).
    { unfold shape, wf_mat, nrows; simpl. repeat split.
      repeat constructor. }
    eapply vstack_copies_inr in Hz1; [| exact Hone].
    destruct Hz1 as (_ & Hz1).
    eapply vstack_copies_inr in Hz2; [| exact Hone].
    destruct Hz2 as (_ & Hz2).
    simpl. rewrite !length_app, !length_column. simpl length.
    replace (nrows z1) with (num_actions - 1) by (destruct Hz1; lia).
    replace (nrows z2) with (num_actions - 1) by (destruct Hz2; lia).
    replace (r + (length done + 1) * q)
      with (r + length done * q + (num_actions - 1) + (num_actions - 1))
      by (unfold q; lia).
    repeat split; try apply HsA4. unfold q. lia.
  - simpl. rewrite !Nat.add_0_r. repeat split; auto; apply HsA0.
Qed.

End SampledBlocks.

Lemma vstack_copies_ok count block rb c :
  shape block rb c -> 1 <= count ->
  exists r, vstack_copies count block = inr r /\ shape r (count * rb) c.
Proof.
  intros Hb Hc. destruct count as [| count']; [lia |].
  eexists. split; [reflexivity |].
  eapply vstack_copies_inr; [exact Hb | reflexivity].
Qed.

Section SampledReturns.

Variables State World : Type.
Variable state_sample : list State.
Variable num_actions : nat.
Variable ordered_transition_function : State -> nat -> World -> State * World.
Variable basis_value_fn : State -> vec.
Variable penalty_coefficient : Q.
Variable num_transition_samples : positive.
Variable d : nat.

(** There is an action besides the expert's, and the basis value estimates
    have one entry per basis function. *)
Hypothesis two_actions : 2 <= num_actions.
Hypothesis basis_length : forall s, length (basis_value_fn s) = d.

Lemma value_expectations_ok state w :
  exists a_ve w',
    value_expectations num_actions ordered_transition_function
      basis_value_fn num_transition_samples d state w = inr (a_ve, w').
Proof.
  unfold value_expectations, accumulate_value_expectations, for_range.
  pose (Inv := fun (_ : list nat) (s : list vec * World) =>
                 a_ve_columns num_actions d (fst s)).
  match goal with
  | |- context [for_loop ?body ?items ?s0] =>
      destruct (@for_loop_returns _ _ body Inv items) with
        (done := @nil nat) (s := s0) as ([a_ve w'] & Hout & _)
  end.
  - intros pass done st _ Hst.
    match goal with
    | |- exists s', for_loop ?body ?items ?s0 = inr s' /\ _ =>
        destruct (@for_loop_returns _ _ body Inv items) with
          (done := @nil nat) (s := s0) as (st' & Hout & Hinv)
    end.
    + intros a done' [cols w0] Hin (Hlen & Hall). simpl in Hlen, Hall.
      apply in_seq in Hin.
      destruct (ordered_transition_function state a w0) as [s1 w2].
      assert (Hcol : length (nth a cols []) = d).
      { rewrite Forall_forall in Hall. apply Hall, nth_In. lia. }
      destruct (@iadd_broadcast_ok (nth a cols []) (basis_value_fn s1))
        as (col & Hadd); [now rewrite basis_length |].
      rewrite Hadd. cbn [bind ret]. eexists. split; [reflexivity |].
      apply iadd_broadcast_length in Hadd.
      split; cbn [fst].
      * etransitivity; [apply length_replace_item; lia | exact Hlen].
      * apply Forall_replace_item; [exact Hall | congruence].
    + exact Hst.
    + exists st'. split; [exact Hout | exact Hinv].
  - split; simpl; [apply repeat_length |].
    apply Forall_forall. intros col Hin.
    apply repeat_spec in Hin. subst. apply repeat_length.
  - rewrite Hout. cbn [bind ret]. eauto.
Qed.

Let m : nat := length state_sample.

Lemma add_costly_single_step_constraints_sampled_ok c A b w r :
  shape A r d ->
  exists out,
    add_costly_single_step_constraints_sampled state_sample num_actions
      ordered_transition_function basis_value_fn penalty_coefficient
      num_transition_samples d (c, A, b) w = inr out.
Proof.
  intros HA. unfold add_costly_single_step_constraints_sampled. fold m.
  destruct (@hstack_shape_ok A (zeros (nrows A) m) r d m)
    as (A0 & HA0 & HsA0);
    [exact HA
    | replace (nrows A) with r by (symmetry; apply HA); apply shape_zeros |].
  rewrite HA0. cbn [bind].
  pose (Inv := fun (_ : list (nat * State)) (s : lp_problem * World) =>
                 let '((_, A1, _), _) := s in
                 wf_mat A1 /\ ncols A1 = d + m).
  match goal with
  | |- exists out, for_loop ?body ?items ?s0 = inr out =>
      destruct (@for_loop_returns _ _ body Inv items) with
        (done := @nil (nat * State)) (s := s0) as (out & Hout & _)
  end.
  - intros [si state] done [[[c1 A1] b1] w1] _ (Hw1 & Hc1).
    destruct (value_expectations_ok state w1) as (a_ve & w2 & Hve).
    rewrite Hve. cbn [bind].
    pose proof Hve as Hcols. apply value_expectations_inr in Hcols.
    assert (Hd : exists D, value_expectation_diff_T d a_ve = inr D).
    { destruct a_ve as [| expert others]; [| simpl; eauto].
      destruct Hcols as (Hlen & _). simpl in Hlen. lia. }
    destruct Hd as (D & HD). rewrite HD. cbn [bind].
    pose proof (value_expectation_diff_T_inr Hcols HD) as HsD.
    assert (Hrow : shape (mk_mat m [upd si (-1)%Q (repeat 0%Q m)]) 1 m).
    { unfold shape, wf_mat, nrows; simpl. repeat split.
      constructor; [| constructor].
      now rewrite length_upd, repeat_length. }
    destruct (@vstack_copies_ok (num_actions - 1) _ 1 m Hrow)
      as (tmp & Htmp & Hstmp); [lia |].
    rewrite Nat.mul_1_r in Hstmp. rewrite Htmp. cbn [bind].
    destruct (hstack_shape_ok HsD Hstmp) as (blk1 & Hblk1 & Hs1).
    rewrite Hblk1. cbn [bind].
    destruct (@vstack_shape_ok A1 blk1 (nrows A1) (num_actions - 1) (d + m))
      as (A2 & HA2 & HsA2); [repeat split; auto | exact Hs1 |].
    rewrite HA2. cbn [bind].
    assert (Hone : shape (mk_mat 1 [[0%Q]]) 1 1).
    { unfold shape, wf_mat, nrows; simpl. repeat split.
      repeat constructor. }
    destruct (@vstack_copies_ok (num_actions - 1) _ 1 1 Hone)
      as (z1 & Hz1 & _); [lia |].
    rewrite Hz1. cbn [bind].
    destruct (hstack_shape_ok (shape_mscale penalty_coefficient HsD) Hstmp)
      as (blk2 & Hblk2 & Hs2).
    rewrite Hblk2. cbn [bind].
    destruct (vstack_shape_ok HsA2 Hs2) as (A3 & HA3 & HsA3).
    rewrite HA3. cbn [bind ret].
    eexists. split; [reflexivity |].
    unfold Inv. cbn beta iota. split; apply HsA3.
  - split; apply HsA0.
  - eauto.
Qed.

Lemma compose_sampled_ok w :
  exists out,
    compose_sampled state_sample num_actions ordered_transition_function
      basis_value_fn penalty_coefficient num_transition_samples d w
    = inr out.
Proof.
  unfold compose_sampled.
  destruct (@add_costly_single_step_constraints_sampled_ok
              (repeat 0%Q d) (zeros 0 d) [] w 0 (shape_zeros 0 d))
    as ([[[c1 A1] b1] w1] & Hcss).
  rewrite Hcss. cbn [bind].
  eapply add_costly_single_step_constraints_sampled_inr in Hcss;
    [| apply shape_zeros].
  destruct Hcss as (_ & (_ & _ & HcA1) & _).
  destruct (@add_alpha_size_constraints_ok d c1 A1 b1) as (pb & Hpb);
    [lia |].
  rewrite Hpb. cbn [bind ret]. eauto.
Qed.

End SampledReturns.

(** ** The blocks of the trajectory formulator *)

Section TrajectoryBlocks.

Variable State : Type.
Variable phi : list (State -> Q).
Variable p : Q.
Variable expert_value_vector : vec.

Let d : nat := length phi.

(** The expert's value vector has one entry per basis function, as have
    the rows of the array of the other policies' value vectors. *)
Hypothesis expert_length : length expert_value_vector = d.

(** The expert block: k slack variables and 2 k rows; the objective is
    rebuilt as d zeros followed by k ones. *)
Lemma add_optimal_expert_constraints_inr k vv c A b c' A' b' r w :
  wf_mat vv -> ncols vv = d -> shape A r w ->
  add_optimal_expert_constraints phi p expert_value_vector k vv (c, A, b)
  = inr (c', A', b') ->
  c' = repeat 0%Q d ++ repeat 1%Q k /\
  shape A' (r + 2 * k) (d + k) /\
  length b' = length b + 2 * k.
Proof.
  intros Hwv Hcv HA Hrun. unfold add_optimal_expert_constraints in Hrun.
  fold d in Hrun.
  bind_inv Hrun as A0 HA0. bind_inv Hrun as blk1 Hblk1.
  bind_inv Hrun as A1 HA1. cbv zeta in Hrun.
  bind_inv Hrun as blk2 Hblk2. bind_inv Hrun as A2 HA2.
  injection Hrun as <- <- <-.
  assert (HsA0 : shape A0 r (w + k)).
  { eapply shape_hstack; [exact HA | | exact HA0].
    replace (nrows A) with r by (symmetry; apply HA). apply shape_zeros. }
  assert (Hm1 : shape (mk_mat d (map (fun v => zip_with Qminus
                                                expert_value_vector v)
                                    (rows vv))) (nrows vv) d).
  { unfold shape, wf_mat, nrows; simpl. repeat split.
    - apply Forall_forall. intros row Hin.
      apply in_map_iff in Hin. destruct Hin as (v & <- & Hin0).
      rewrite length_zip_with, expert_length.
      unfold wf_mat in Hwv. rewrite Forall_forall in Hwv.
      rewrite (Hwv _ Hin0), Hcv. lia.
    - apply length_map. }
  assert (Hk : nrows vv = k).
  { apply hstack_inr in Hblk1. destruct Hblk1 as (Hr & _).
    destruct Hm1 as (_ & Hr1 & _).
    pose proof (shape_mscale (-1) (shape_identity k)) as (_ & Hrk & _).
    congruence. }
  rewrite Hk in Hm1.
  pose proof (shape_mscale (-1) (shape_identity k)) as Hid.
  pose proof (shape_hstack Hm1 Hid Hblk1) as Hs1.
  assert (Hwd : d + k = w + k).
  { apply vstack_inr in HA1. destruct HA1 as (Hc1 & _).
    destruct HsA0 as (_ & _ & Hc0), Hs1 as (_ & _ & Hcb). congruence. }
  rewrite Hwd in Hs1.
  pose proof (shape_vstack HsA0 Hs1 HA1) as HsA1.
  pose proof (shape_hstack (shape_mscale p Hm1) Hid Hblk2) as Hs2.
  rewrite Hwd in Hs2.
  pose proof (shape_vstack HsA1 Hs2 HA2) as HsA2.
  rewrite !length_app, !repeat_length. rewrite Hwd.
  replace (r + 2 * k) with (r + k + k) by lia.
  repeat split; try apply HsA2; try lia.
Qed.

Lemma compose_trajectory_inr k vv c A b :
  wf_mat vv -> ncols vv = d ->
  compose_trajectory phi p expert_value_vector k vv = inr (c, A, b) ->
  c = repeat 0%Q d ++ repeat 1%Q k /\
  shape A (2 * k + 2 * d) (d + k) /\
  length b = 2 * k + 2 * d /\
  exists rs bs,
    length rs = length bs /\
    rows A = rs ++ flat_map (alpha_rows (d + k)) (seq 0 d) /\
    b = bs ++ flat_map (fun _ => [1%Q; 1%Q]) (seq 0 d).
Proof.
  intros Hwv Hcv Hrun. unfold compose_trajectory in Hrun. fold d in Hrun.
  bind_inv Hrun as pb Hpb. destruct pb as [[c1 A1] b1].
  eapply add_optimal_expert_constraints_inr in Hpb;
    [| exact Hwv | exact Hcv | apply shape_zeros].
  destruct Hpb as (-> & HsA1 & Hb1).
  apply add_alpha_size_constraints_inr in Hrun.
  destruct Hrun as (-> & HcA & HrA & ->).
  destruct HsA1 as (HwA1 & HrA1 & HcA1).
  rewrite HcA1 in HrA.
  assert (Hlen : length (flat_map (alpha_rows (d + k)) (seq 0 d)) = 2 * d).
  { rewrite (@length_flat_map_const _ _ _ 2) by reflexivity.
    rewrite length_seq. lia. }
  assert (Hlen1 : length (flat_map (fun _ : nat => [1%Q; 1%Q]) (seq 0 d))
                  = 2 * d).
  { rewrite (@length_flat_map_const _ _ _ 2) by reflexivity.
    rewrite length_seq. lia. }
  split; [reflexivity |]. split; [| split].
  - unfold shape, wf_mat, nrows in *. rewrite HrA, HcA, HcA1.
    repeat split.
    + apply Forall_app. split; [now rewrite <- HcA1 |].
      apply Forall_flat_map_rows. intros i. apply Forall_alpha_rows.
    + rewrite length_app, Hlen. simpl in HrA1. lia.
  - rewrite length_app, Hlen1. simpl in Hb1. lia.
  - exists (rows A1), b1. repeat split; auto.
    unfold nrows in HrA1. simpl in *. lia.
Qed.

End TrajectoryBlocks.

(** ** The LPProblem invariant *)

Lemma lp_invariant_shape c A b :
  lp_invariant (c, A, b) -> shape A (length b) (length c).
Proof. intros (Hw & Hc & Hr). repeat split; auto. Qed.

Lemma shape_lp_invariant c A b :
  shape A (length b) (length c) -> lp_invariant (c, A, b).
Proof. intros (Hw & Hr & Hc). repeat split; auto. Qed.

(** C8.  Every constraint block of the three formulators, applied to a
    problem (c, A, b) in which A has as many columns as c has entries and as
    many rows as b, returns (when it returns at all, rather than raising) a
    problem with the same property, whatever the sizes n, k, d, m. *)
Theorem constraint_blocks_preserve_invariant :
  (forall T Tinv p out,
      lp_invariant p ->
      add_optimal_policy_constraints T Tinv p = inr out ->
      lp_invariant out) /\
  (forall T Tinv p out,
      lp_invariant p ->
      add_costly_single_step_constraints T Tinv p = inr out ->
      lp_invariant out) /\
  (forall T p Rmax out,
      lp_invariant p ->
      add_rmax_constraints T p Rmax = inr out ->
      lp_invariant out) /\
  (forall T p l1 out,
      lp_invariant p ->
      add_l1norm_constraints T p l1 = inr out ->
      lp_invariant out) /\
  (forall (State World : Type) (state_sample : list State) k
          (otf : State -> nat -> World -> State * World)
          bvf penalty samples d p w out w',
      lp_invariant p ->
      add_costly_single_step_constraints_sampled state_sample k otf bvf
        penalty samples d p w = inr (out, w') ->
      lp_invariant out) /\
  (forall d p out,
      lp_invariant p ->
      add_alpha_size_constraints d p = inr out ->
      lp_invariant out) /\
  (forall (State : Type) (phi : list (State -> Q)) pen expert k vv p out,
      length expert = length phi -> wf_mat vv -> ncols vv = length phi ->
      lp_invariant p ->
      add_optimal_expert_constraints phi pen expert k vv p = inr out ->
      lp_invariant out).
Proof.
  repeat split.
  - intros T Tinv [[c A] b] [[c' A'] b'] Hinv Hrun.
    apply lp_invariant_shape in Hinv.
    eapply add_optimal_policy_constraints_inr in Hrun; [| exact Hinv].
    destruct Hrun as (-> & HA' & Hb').
    apply shape_lp_invariant. now rewrite Hb'.
  - intros T Tinv [[c A] b] [[c' A'] b'] Hinv Hrun.
    apply lp_invariant_shape in Hinv.
    eapply add_costly_single_step_constraints_inr in Hrun; [| exact Hinv].
    destruct Hrun as (-> & HA' & Hb').
    apply shape_lp_invariant.
    now rewrite Hb', length_app, repeat_length.
  - intros T [[c A] b] Rmax [[c' A'] b'] Hinv Hrun.
    apply lp_invariant_shape in Hinv.
    eapply add_rmax_constraints_inr in Hrun; [| exact Hinv].
    destruct Hrun as (-> & HA' & Hb').
    apply shape_lp_invariant. now rewrite Hb'.
  - intros T [[c A] b] l1 out Hinv Hrun.
    rewrite (add_l1norm_constraints_eq T l1 Hinv) in Hrun.
    injection Hrun as <-. destruct Hinv as (Hw & Hc & Hr).
    unfold lp_invariant, wf_mat, nrows in *. cbn [ncols rows].
    repeat split.
    + apply Forall_app. split.
      * apply Forall_zip_app; [exact Hw |].
        apply Forall_forall. intros row Hin.
        apply repeat_spec in Hin. subst. apply repeat_length.
      * apply Forall_flat_map_rows. intros i. apply Forall_l1_rows.
    + rewrite length_app, repeat_length. lia.
    + rewrite !length_app, length_zip_with, repeat_length.
      rewrite !(@length_flat_map_const _ _ _ 2) by reflexivity.
      lia.
  - intros State World sample k otf bvf penalty samples d
           [[c A] b] w [[c' A'] b'] w' Hinv Hrun.
    apply lp_invariant_shape in Hinv.
    eapply add_costly_single_step_constraints_sampled_inr in Hrun;
      [| exact Hinv].
    destruct Hrun as (-> & HA' & Hb').
    apply shape_lp_invariant.
    now rewrite Hb', length_app, repeat_length.
  - intros d [[c A] b] [[c' A'] b'] (Hw & Hc & Hr) Hrun.
    apply add_alpha_size_constraints_inr in Hrun.
    destruct Hrun as (-> & HcA & HrA & ->).
    unfold lp_invariant, wf_mat, nrows in *. rewrite HcA, HrA.
    repeat split; auto.
    + apply Forall_app. split; [exact Hw |].
      apply Forall_flat_map_rows. intros i. apply Forall_alpha_rows.
    + rewrite !length_app, Hr.
      rewrite !(@length_flat_map_const _ _ _ 2) by reflexivity.
      reflexivity.
  - intros State phi pen expert k vv [[c A] b] [[c' A'] b']
           Hexp Hwv Hcv Hinv Hrun.
    apply lp_invariant_shape in Hinv.
    eapply add_optimal_expert_constraints_inr in Hrun;
      [| exact Hexp | exact Hwv | exact Hcv | exact Hinv].
    destruct Hrun as (-> & HA' & Hb').
    apply shape_lp_invariant.
    now rewrite Hb', length_app, !repeat_length.
Qed.

(** The invariant along the blocks of the three formulators on the chain. *)
Lemma blocks_preserve_invariant_on_chain :
  match compose_tabular chain3 chain3_disc_inv 0 1 with
  | inr out => lp_invariant out
  | inl _ => False
  end /\
  match add_costly_single_step_constraints_sampled [0; 1; 2] 2 chain_otf
          chain_basis_value_fn 2 1 2 (repeat 0%Q 2, zeros 0 2, []) tt with
  | inr (out, _) => lp_invariant out
  | inl _ => False
  end /\
  match add_optimal_expert_constraints chain_phi 2 chain_expert_value 1
          chain_other_values (repeat 0%Q 2, zeros 0 2, []) with
  | inr out => lp_invariant out
  | inl _ => False
  end.
Proof.
  destruct constraint_blocks_preserve_invariant
    as (H1 & H2 & H3 & H4 & H5 & _ & H7).
  assert (Hempty : forall d, lp_invariant (repeat 0%Q d, zeros 0 d, [])).
  { intros d. unfold lp_invariant, wf_mat, nrows. simpl.
    repeat split; [constructor | now rewrite repeat_length]. }
  split; [| split].
  - unfold compose_tabular.
    destruct (add_optimal_policy_constraints chain3 chain3_disc_inv
                (repeat 0%Q (t_states chain3), zeros 0 (t_states chain3), []))
      as [e | p1] eqn:E1; [vm_compute in E1; discriminate E1 |].
    pose proof (H1 _ _ _ _ (Hempty _) E1) as I1.
    vm_compute in E1. injection E1 as <-. cbn [bind].
    match goal with
    | |- match bind ?m _ with _ => _ end =>
        destruct m as [e | p2] eqn:E2; [vm_compute in E2; discriminate E2 |]
    end.
    pose proof (H2 _ _ _ _ I1 E2) as I2.
    vm_compute in E2. injection E2 as <-. cbn [bind].
    match goal with
    | |- match bind ?m _ with _ => _ end =>
        destruct m as [e | p3] eqn:E3; [vm_compute in E3; discriminate E3 |]
    end.
    pose proof (H3 _ _ _ _ I2 E3) as I3.
    vm_compute in E3. injection E3 as <-. cbn [bind].
    match goal with
    | |- match ?m with _ => _ end =>
        destruct m as [e | p4] eqn:E4; [vm_compute in E4; discriminate E4 |]
    end.
    exact (H4 _ _ _ _ I3 E4).
  - match goal with
    | |- match ?m with _ => _ end =>
        destruct m as [e | [p1 w1]] eqn:E1;
          [vm_compute in E1; discriminate E1 |]
    end.
    exact (H5 _ _ _ _ _ _ _ _ _ _ _ _ _ (Hempty _) E1).
  - match goal with
    | |- match ?m with _ => _ end =>
        destruct m as [e | p1] eqn:E1; [vm_compute in E1; discriminate E1 |]
    end.
    refine (H7 _ _ _ _ _ _ _ _ _ _ _ (Hempty _) E1).
    + reflexivity.
    + unfold wf_mat, chain_other_values. simpl rows.
      constructor; [reflexivity | constructor].
    + reflexivity.
Defined.

(** ** What the L1 rows enforce *)

Lemma dot_nil_r u : dot u [] = 0%Q.
Proof. destruct u; reflexivity. Qed.

Lemma dot_repeat_zero w z : (dot (repeat 0 w) z == 0)%Q.
Proof.
  revert z. induction w as [| w IH]; intros z; simpl; [reflexivity |].
  destruct z as [| b z]; [reflexivity |].
  change (0 * b + dot (repeat 0 w) z == 0)%Q. rewrite IH. ring.
Qed.

Lemma dot_upd row : forall i v z,
  i < length row ->
  (dot (upd i v row) z == dot row z + (v - nth i row 0) * nth i z 0)%Q.
Proof.
  induction row as [| h t IH]; intros i v z Hi; simpl in Hi; [lia |].
  destruct i as [| i], z as [| b z]; simpl upd; simpl nth;
    rewrite ?dot_nil_r; try ring.
  - change (v * b + dot t z == h * b + dot t z + (v - h) * b)%Q. ring.
  - change (h * b + dot (upd i v t) z ==
            h * b + dot t z + (v - nth i t 0) * nth i z 0)%Q.
    rewrite IH by lia. ring.
Qed.

Lemma nth_upd_other row : forall i j v,
  i <> j -> nth j (upd i v row) 0%Q = nth j row 0%Q.
Proof.
  induction row as [| h t IH]; intros i j v Hij; [reflexivity |].
  destruct i as [| i], j as [| j]; simpl; auto; lia.
Qed.

Lemma nth_repeat_zero w i : nth i (repeat 0%Q w) 0%Q = 0%Q.
Proof. apply nth_repeat. Qed.

Lemma dot_unit_row w i v z :
  i < w -> (dot (unit_row w i v) z == v * nth i z 0)%Q.
Proof.
  intros Hi. unfold unit_row.
  rewrite dot_upd by now rewrite repeat_length.
  rewrite dot_repeat_zero, nth_repeat_zero. ring.
Qed.

Lemma dot_l1_pair_row w off i z :
  0 < off -> off + i < w ->
  (dot (upd (off + i) (-1) (unit_row w i 1)) z ==
   nth i z 0 - nth (off + i) z 0)%Q.
Proof.
  intros Hoff Hi.
  rewrite dot_upd by (rewrite length_unit_row; lia).
  rewrite dot_unit_row by lia.
  unfold unit_row. rewrite nth_upd_other by lia.
  rewrite nth_repeat_zero. ring.
Qed.

Lemma satisfies_l1_rows w off items z :
  satisfies (flat_map (l1_rows w off) items)
            (flat_map (fun _ => [0%Q; 0%Q]) items) z <->
  Forall (fun i =>
            (dot (unit_row w i (-1)) z <= 0)%Q /\
            (dot (upd (off + i) (-1)%Q (unit_row w i 1)) z <= 0)%Q) items.
Proof.
  unfold satisfies. induction items as [| i rest IH]; simpl.
  - split; constructor.
  - split; intros H.
    + inversion H as [| ? ? ? ? H1 H']; subst.
      inversion H' as [| ? ? ? ? H2 H'']; subst.
      constructor; [split; assumption | now apply IH].
    + inversion H as [| ? ? (H1 & H2) H']; subst.
      constructor; [exact H1 |]. constructor; [exact H2 | now apply IH].
Qed.

Lemma Qabs_val_nonneg q : (0 <= q)%Q -> (Qabs_val q == q)%Q.
Proof.
  intros Hq. unfold Qabs_val.
  destruct (Q.max_spec q (- q)) as [(Hlt & ->) | (Hle & ->)];
    [lra | reflexivity].
Qed.

(** C2, as the code has it.  The rows the tabular L1Regularization block
    adds hold for an assignment exactly when, for each true variable x_i,
    x_i >= 0 and aux_i >= x_i.  So an assignment with aux_i < |x_i| for some
    i violates an added row; and so does any assignment with a negative
    x_i, whatever its aux_i. *)
Theorem l1_rows_enforce_nonneg_and_upper
    (T : tensor) (c : vec) (A : mat) (b : vec) (l1 : Q) (z : vec) :
  lp_invariant (c, A, b) ->
  t_states T <= ncols A ->
  exists c' A' b',
    add_l1norm_constraints T (c, A, b) l1 = inr (c', A', b') /\
    let added_rows := skipn (nrows A) (rows A') in
    let added_bounds := skipn (length b) b' in
    let x i := nth i z 0%Q in
    let aux i := nth (ncols A + i) z 0%Q in
    (satisfies added_rows added_bounds z <->
     forall i, i < t_states T -> (0 <= x i)%Q /\ (x i <= aux i)%Q) /\
    ((exists i, i < t_states T /\ (aux i < Qabs_val (x i))%Q) ->
     ~ satisfies added_rows added_bounds z) /\
    ((exists i, i < t_states T /\ (x i < 0)%Q) ->
     ~ satisfies added_rows added_bounds z).
Proof.
  intros Hinv Hn.
  rewrite (add_l1norm_constraints_eq T l1 Hinv).
  do 3 eexists. split; [reflexivity |].
  cbn [rows]. destruct Hinv as (Hw & Hc & Hr).
  set (A0 := zip_with (@app Q) (rows A)
                      (repeat (repeat 0%Q (t_states T)) (nrows A))).
  assert (HA0 : length A0 = nrows A).
  { unfold A0, nrows. rewrite length_zip_with, repeat_length.
    unfold nrows. lia. }
  rewrite <- HA0 at 1 2 3.
  rewrite !skipn_app, !skipn_all, !Nat.sub_diag. cbn [skipn app].
  assert (Hiff :
    satisfies (flat_map (l1_rows (ncols A + t_states T) (ncols A))
                        (seq 0 (t_states T)))
              (flat_map (fun _ : nat => [0%Q; 0%Q]) (seq 0 (t_states T))) z
    <-> forall i, i < t_states T ->
          (0 <= nth i z 0)%Q /\ (nth i z 0 <= nth (ncols A + i) z 0)%Q).
  { rewrite satisfies_l1_rows, Forall_forall. split.
    - intros H i Hi. destruct (H i) as (H1 & H2); [apply in_seq; lia |].
      rewrite dot_unit_row in H1 by lia.
      rewrite dot_l1_pair_row in H2 by lia. split; lra.
    - intros H i Hi. apply in_seq in Hi.
      destruct (H i) as (H1 & H2); [lia |].
      rewrite dot_unit_row by lia. rewrite dot_l1_pair_row by lia.
      split; lra. }
  split; [exact Hiff |]. split.
  - intros (i & Hi & Hlt) Hsat.
    destruct (proj1 Hiff Hsat i Hi) as (H1 & H2).
    rewrite (Qabs_val_nonneg H1) in Hlt. lra.
  - intros (i & Hi & Hlt) Hsat.
    destruct (proj1 Hiff Hsat i Hi) as (H1 & _). lra.
Qed.

Lemma chain2_problem_reached : chain2_before_l1 = inr chain2_problem.
Proof. vm_compute. reflexivity. Qed.

(** On the two-state chain the added rows accept x = [0.5, 0.3] with
    aux = [0.5, 0.3]. *)
Lemma l1_rows_accept_nonneg_on_chain2 :
  let '(c, A, b) := chain2_problem in
  exists c' A' b',
    add_l1norm_constraints chain2 (c, A, b) 0 = inr (c', A', b') /\
    satisfies (skipn (nrows A) (rows A')) (skipn (length b) b')
      ([1 # 2; 3 # 10] ++ [0; 0] ++ [1 # 2; 3 # 10])%Q.
Proof.
  unfold chain2_problem.
  match goal with
  | |- exists c' A' b', add_l1norm_constraints _ (?c, ?A, ?b) _ = _ /\ _ =>
      destruct (@l1_rows_enforce_nonneg_and_upper chain2 c A b 0
                  ([1 # 2; 3 # 10] ++ [0; 0] ++ [1 # 2; 3 # 10])%Q)
        as (c' & A' & b' & Hrun & Hiff & _)
  end.
  - unfold lp_invariant, wf_mat, nrows. simpl. repeat split.
    repeat constructor.
  - simpl. lia.
  - exists c', A', b'. split; [exact Hrun |].
    cbv zeta in Hiff. apply Hiff. intros i Hi. simpl in Hi.
    destruct i as [| [| i]]; [| | lia]; simpl; split;
      unfold Qle; simpl; lia.
Defined.

(** For x = [-0.5, 0.3] the assignment aux = [0.5, 0.3] violates the added
    row [-x_0 <= 0]. *)
Lemma l1_rows_reject_abs_assignment :
  let '(c, A, b) := chain2_problem in
  exists c' A' b',
    add_l1norm_constraints chain2 (c, A, b) 0 = inr (c', A', b') /\
    ~ satisfies (skipn (nrows A) (rows A')) (skipn (length b) b')
        ([-1 # 2; 3 # 10] ++ [0; 0] ++ [1 # 2; 3 # 10])%Q.
Proof.
  unfold chain2_problem. do 3 eexists. split; [vm_compute; reflexivity |].
  unfold satisfies. simpl. intros Hsat.
  inversion Hsat as [| ? ? ? ? Hrow _]; subst.
  vm_compute in Hrow. apply Hrow. reflexivity.
Qed.

(** ** What the bound rows enforce *)

Lemma Forall2_app_same_length {X Y : Type} (R : X -> Y -> Prop) :
  forall (l1 : list X) (l1' : list Y) l2 l2',
    length l1 = length l1' ->
    Forall2 R (l1 ++ l2) (l1' ++ l2') -> Forall2 R l2 l2'.
Proof.
  induction l1 as [| a l1 IH]; intros [| a' l1'] l2 l2' Hlen H;
    simpl in *; try discriminate; [exact H |].
  inversion H; subst. eapply IH; eauto.
Qed.

Lemma satisfies_alpha_rows w items z :
  satisfies (flat_map (alpha_rows w) items)
            (flat_map (fun _ => [1%Q; 1%Q]) items) z <->
  Forall (fun i =>
            (dot (unit_row w i 1) z <= 1)%Q /\
            (dot (unit_row w i (-1)) z <= 1)%Q) items.
Proof.
  unfold satisfies. induction items as [| i rest IH]; simpl.
  - split; constructor.
  - split; intros H.
    + inversion H as [| ? ? ? ? H1 H']; subst.
      inversion H' as [| ? ? ? ? H2 H'']; subst.
      constructor; [split; assumption | now apply IH].
    + inversion H as [| ? ? (H1 & H2) H']; subst.
      constructor; [exact H1 |]. constructor; [exact H2 | now apply IH].
Qed.

(** A vector that satisfies the rows of BoundConstraint(1) has its first d
    entries between -1 and 1. *)
Lemma alpha_rows_bound d w sol :
  d <= w -> d <= length sol ->
  satisfies (flat_map (alpha_rows w) (seq 0 d))
            (flat_map (fun _ => [1%Q; 1%Q]) (seq 0 d)) sol ->
  unit_bounded (firstn d sol).
Proof.
  intros Hdw Hlen Hsat. apply satisfies_alpha_rows in Hsat.
  rewrite Forall_forall in Hsat.
  unfold unit_bounded. apply Forall_forall. intros a Hin.
  destruct (In_nth _ _ 0%Q Hin) as (i & Hi & <-).
  rewrite length_firstn in Hi.
  rewrite nth_firstn.
  destruct (Nat.ltb_spec i d) as [Hid | Hid]; [| lia].
  destruct (Hsat i) as (H1 & H2); [apply in_seq; lia |].
  rewrite dot_unit_row in H1 by lia.
  rewrite dot_unit_row in H2 by lia. lra.
Qed.

(** ** Sizes of the linear programs *)

(** C6.  For every transition tensor with n states and k >= 1 actions, the
    tabular CostlySingleStep block, applied to a problem whose first n
    columns are the true variables, returns and adds exactly n new
    optimisation variables, each with objective weight -1, and exactly
    (k-1) n constraint rows. *)
Theorem costly_single_step_adds_helpers_and_rows
    (T : tensor) (Tinv : mat) (c : vec) (A : mat) (b : vec) :
  1 <= t_actions T ->
  shape Tinv (t_states T) (t_states T) ->
  lp_invariant (c, A, b) ->
  t_states T <= ncols A ->
  exists c' A' b',
    add_costly_single_step_constraints T Tinv (c, A, b) = inr (c', A', b') /\
    c' = c ++ repeat (-1)%Q (t_states T) /\
    ncols A' = ncols A + t_states T /\
    nrows A' = nrows A + (t_actions T - 1) * t_states T /\
    length b' = length b + (t_actions T - 1) * t_states T.
Proof.
  intros Hk HTinv Hinv Hn.
  destruct (@add_costly_single_step_constraints_ok T Tinv Hk HTinv c A b
              Hinv Hn) as ([[c' A'] b'] & Hrun).
  exists c', A', b'. split; [exact Hrun |].
  destruct Hinv as (HwA & HcA & HrA).
  assert (HsA : shape A (nrows A) (ncols A)) by (repeat split; auto).
  pose proof Hrun as Hsize.
  eapply add_costly_single_step_constraints_inr in Hsize; [| exact HsA].
  destruct Hsize as (Hc' & (_ & Hr' & Hc'') & Hb').
  auto.
Qed.

(** With k = 2 and n = 3 the block adds exactly 3 helper variables and 3
    constraint rows. *)
Lemma costly_single_step_k2_n3 :
  exists c' A' b',
    add_costly_single_step_constraints chain3 chain3_disc_inv
      (repeat 0%Q 3, zeros 3 3, repeat 0%Q 3) = inr (c', A', b') /\
    c' = [0; 0; 0; -1; -1; -1]%Q /\
    ncols A' = 3 + 3 /\ nrows A' = 3 + 3 /\ length b' = 3 + 3.
Proof.
  apply (@costly_single_step_adds_helpers_and_rows chain3 chain3_disc_inv
           (repeat 0%Q 3) (zeros 3 3) (repeat 0%Q 3)).
  - simpl. lia.
  - unfold shape, wf_mat, nrows. simpl. repeat split.
    repeat constructor.
  - unfold lp_invariant, wf_mat, nrows. simpl. repeat split.
    repeat constructor.
  - simpl. lia.
Defined.

(** C7.  The LP of the sampled formulator, for a sample of m states, k
    actions and d basis functions: its objective is d zeros followed by m
    helper weights -1 (one helper variable per sampled state), and its
    constraints are 2 (k-1) rows per sampled state followed by the 2 d rows
    [alpha_i <= 1], [-alpha_i <= 1], which bound the first d entries of every
    feasible assignment by 1 in absolute value; in all m helper variables
    and 2 (k-1) m + 2 d rows.  The LP is built whenever there are at least
    two actions and the basis value estimates have d entries. *)
Theorem sampled_lp_size
    (State World : Type) (state_sample : list State) (num_actions : nat)
    (otf : State -> nat -> World -> State * World)
    (basis_value_fn : State -> vec) (penalty : Q) (samples : positive)
    (d : nat) (w : World) :
  let m := length state_sample in
  let rows_per_state := 2 * (num_actions - 1) in
  (forall c A b w',
      compose_sampled state_sample num_actions otf basis_value_fn penalty
        samples d w = inr ((c, A, b), w') ->
      c = repeat 0%Q d ++ repeat (-1)%Q m /\
      shape A (rows_per_state * m + 2 * d) (d + m) /\
      length b = rows_per_state * m + 2 * d /\
      (exists rs bs,
          length rs = rows_per_state * m /\
          length bs = rows_per_state * m /\
          rows A = rs ++ flat_map (alpha_rows (d + m)) (seq 0 d) /\
          b = bs ++ flat_map (fun _ => [1%Q; 1%Q]) (seq 0 d)) /\
      (forall sol,
          d <= length sol -> satisfies (rows A) b sol ->
          unit_bounded (firstn d sol))) /\
  (2 <= num_actions ->
   (forall s, length (basis_value_fn s) = d) ->
   exists out,
     compose_sampled state_sample num_actions otf basis_value_fn penalty
       samples d w = inr out).
Proof.
  intros m rows_per_state. split.
  - intros c A b w' Hrun. unfold compose_sampled in Hrun.
    bind_inv Hrun as pw Hcss. destruct pw as [[[c1 A1] b1] w1].
    bind_inv Hrun as pb Halpha. destruct pb as [[c2 A2] b2].
    injection Hrun as -> -> -> ->.
    eapply add_costly_single_step_constraints_sampled_inr in Hcss;
      [| apply shape_zeros].
    destruct Hcss as (-> & (HwA1 & HrA1 & HcA1) & Hb1).
    apply add_alpha_size_constraints_inr in Halpha.
    destruct Halpha as (-> & HcA & HrA & ->).
    fold m in HrA1, HcA1, Hb1. rewrite HcA1 in HrA. simpl in HrA1, Hb1.
    unfold nrows in HrA1.
    assert (Hlen : length (flat_map (alpha_rows (d + m)) (seq 0 d)) = 2 * d).
    { rewrite (@length_flat_map_const _ _ _ 2) by reflexivity.
      rewrite length_seq. lia. }
    assert (Hlen1 : length (flat_map (fun _ : nat => [1%Q; 1%Q]) (seq 0 d))
                    = 2 * d).
    { rewrite (@length_flat_map_const _ _ _ 2) by reflexivity.
      rewrite length_seq. lia. }
    split; [reflexivity |]. split; [| split; [| split]].
    + unfold shape, wf_mat, nrows in *. rewrite HrA, HcA, HcA1.
      repeat split.
      * apply Forall_app. split; [now rewrite <- HcA1 |].
        apply Forall_flat_map_rows. intros i. apply Forall_alpha_rows.
      * rewrite length_app, Hlen. unfold rows_per_state. lia.
    + rewrite length_app, Hlen1. unfold rows_per_state. lia.
    + exists (rows A1), b1. unfold rows_per_state.
      repeat split; auto; lia.
    + intros sol Hsol Hsat. rewrite HrA in Hsat.
      apply Forall2_app_same_length in Hsat; [| lia].
      eapply alpha_rows_bound; [| exact Hsol | exact Hsat]. lia.
  - intros Hk Hlen. now apply compose_sampled_ok.
Qed.

(** Three sampled states, two actions, two basis functions: 3 helper
    variables and 2 * 1 * 3 + 2 * 2 = 10 rows. *)
Lemma sampled_lp_size_chain :
  exists c A b,
    compose_sampled [0; 1; 2] 2 chain_otf chain_basis_value_fn 2 1 2 tt
    = inr ((c, A, b), tt) /\
    c = [0; 0; -1; -1; -1]%Q /\ shape A 10 5 /\ length b = 10.
Proof.
  destruct (@sampled_lp_size nat unit [0; 1; 2] 2 chain_otf
              chain_basis_value_fn 2 1 2 tt) as (Hsize & Hbuilt).
  destruct Hbuilt as ([[[c A] b] []] & Hrun).
  - lia.
  - intros s. reflexivity.
  - exists c, A, b. split; [exact Hrun |].
    destruct (Hsize c A b tt Hrun) as (Hc & HA & Hb & _).
    repeat split; solve [apply Hc | apply HA | apply Hb].
Defined.

(** ** Minimum, maximum and the rescaling of the tabular solution *)

Lemma fold_min_le_acc t : forall w, (fold_left Qmin t w <= w)%Q.
Proof.
  induction t as [| a t IH]; intros w; simpl; [apply Qle_refl |].
  eapply Qle_trans; [apply IH | apply Q.le_min_l].
Qed.

Lemma fold_min_le_in t : forall w u, In u t -> (fold_left Qmin t w <= u)%Q.
Proof.
  induction t as [| a t IH]; intros w u Hin; simpl; [contradiction |].
  destruct Hin as [<- | Hin]; [| now apply IH].
  eapply Qle_trans; [apply fold_min_le_acc | apply Q.le_min_r].
Qed.

Lemma fold_min_attained t : forall w,
  exists u, In u (w :: t) /\ (fold_left Qmin t w == u)%Q.
Proof.
  induction t as [| a t IH]; intros w; simpl.
  - exists w. split; [now left | reflexivity].
  - destruct (IH (Qmin w a)) as (u & [<- | Hin] & Heq).
    + destruct (Q.min_dec w a) as [Hm | Hm].
      * exists w. split; [now left | now rewrite Heq].
      * exists a. split; [right; now left | now rewrite Heq].
    + exists u. split; [right; now right | exact Heq].
Qed.

Lemma fold_max_ge_acc t : forall w, (w <= fold_left Qmax t w)%Q.
Proof.
  induction t as [| a t IH]; intros w; simpl; [apply Qle_refl |].
  eapply Qle_trans; [apply Q.le_max_l | apply IH].
Qed.

Lemma fold_max_ge_in t : forall w u, In u t -> (u <= fold_left Qmax t w)%Q.
Proof.
  induction t as [| a t IH]; intros w u Hin; simpl; [contradiction |].
  destruct Hin as [<- | Hin]; [| now apply IH].
  eapply Qle_trans; [apply Q.le_max_r | apply fold_max_ge_acc].
Qed.

Lemma fold_max_attained t : forall w,
  exists u, In u (w :: t) /\ (fold_left Qmax t w == u)%Q.
Proof.
  induction t as [| a t IH]; intros w; simpl.
  - exists w. split; [now left | reflexivity].
  - destruct (IH (Qmax w a)) as (u & [<- | Hin] & Heq).
    + destruct (Q.max_dec w a) as [Hm | Hm].
      * exists w. split; [now left | now rewrite Heq].
      * exists a. split; [right; now left | now rewrite Heq].
    + exists u. split; [right; now right | exact Heq].
Qed.

(** [np.min] returns a lower bound that is one of the entries. *)
Lemma np_min_spec vals lo :
  np_min vals = inr lo ->
  (forall u, In u vals -> (lo <= u)%Q) /\
  (exists u, In u vals /\ (lo == u)%Q).
Proof.
  destruct vals as [| v t]; simpl; [discriminate |]. intros [= <-]. split.
  - intros u [<- | Hin];
      [apply fold_min_le_acc | now apply fold_min_le_in].
  - apply fold_min_attained.
Qed.

Lemma np_max_spec vals hi :
  np_max vals = inr hi ->
  (forall u, In u vals -> (u <= hi)%Q) /\
  (exists u, In u vals /\ (hi == u)%Q).
Proof.
  destruct vals as [| v t]; simpl; [discriminate |]. intros [= <-]. split.
  - intros u [<- | Hin];
      [apply fold_max_ge_acc | now apply fold_max_ge_in].
  - apply fold_max_attained.
Qed.

(** A lower bound that is attained is the minimum [np.min] returns. *)
Lemma np_min_unique vals lo :
  vals <> [] ->
  (forall u, In u vals -> (lo <= u)%Q) ->
  (exists u, In u vals /\ (u == lo)%Q) ->
  exists lo', np_min vals = inr lo' /\ (lo' == lo)%Q.
Proof.
  intros Hne Hlow (u & Hin & Heq).
  destruct vals as [| v t]; [contradiction |].
  destruct (@np_min_spec (v :: t) _ eq_refl) as (Hle & (u' & Hin' & Heq')).
  eexists. split; [reflexivity |].
  apply Qle_antisym.
  - rewrite <- Heq. now apply Hle.
  - rewrite Heq'. now apply Hlow.
Qed.

Lemma np_max_unique vals hi :
  vals <> [] ->
  (forall u, In u vals -> (u <= hi)%Q) ->
  (exists u, In u vals /\ (u == hi)%Q) ->
  exists hi', np_max vals = inr hi' /\ (hi' == hi)%Q.
Proof.
  intros Hne Hup (u & Hin & Heq).
  destruct vals as [| v t]; [contradiction |].
  destruct (@np_max_spec (v :: t) _ eq_refl) as (Hle & (u' & Hin' & Heq')).
  eexists. split; [reflexivity |].
  apply Qle_antisym.
  - rewrite Heq'. now apply Hup.
  - rewrite <- Heq. now apply Hle.
Qed.

(** What [normalize] computes: with [lo] and [hi] the extreme entries, the
    division by [hi - lo] is carried out whenever that is not zero, and
    raises ZeroDivisionError when it is. *)
Lemma normalize_eq vals lo hi :
  np_min vals = inr lo -> np_max vals = inr hi ->
  normalize vals =
  if Qeq_bool (hi - lo) 0 then inl ZeroDivisionError
  else inr (map (fun v => (v / (hi - lo))%Q)
                (map (fun v => (v - lo)%Q) vals)).
Proof.
  intros Hlo Hhi. unfold normalize. rewrite Hlo, Hhi. reflexivity.
Qed.

Lemma rescaled_entry_bounds r_max lo hi u :
  (0 <= r_max)%Q -> (lo < hi)%Q -> (lo <= u)%Q -> (u <= hi)%Q ->
  (0 <= r_max * ((u - lo) / (hi - lo)) <= r_max)%Q.
Proof.
  intros Hr Hlt Hlo Hhi.
  assert (Hd : (0 < hi - lo)%Q) by lra.
  assert (H0 : (0 <= (u - lo) / (hi - lo))%Q).
  { apply Qle_shift_div_l; [exact Hd | lra]. }
  assert (H1 : ((u - lo) / (hi - lo) <= 1)%Q).
  { apply Qle_shift_div_r; [exact Hd | lra]. }
  split; nra.
Qed.

Lemma np_min_nonempty vals lo : np_min vals = inr lo -> vals <> [].
Proof. destruct vals; [discriminate | discriminate]. Qed.

(** The rescaling on a vector that is not constant: it returns, every entry
    lies in [0, r_max], and both ends are attained. *)
Lemma rescale_spec vals lo hi r_max :
  np_min vals = inr lo -> np_max vals = inr hi ->
  ~ (hi == lo)%Q -> (0 <= r_max)%Q ->
  exists normed,
    normalize vals = inr normed /\
    normed = map (fun v => (v / (hi - lo))%Q)
                 (map (fun v => (v - lo)%Q) vals) /\
    length (vscale r_max normed) = length vals /\
    (forall u, In u (vscale r_max normed) -> (0 <= u <= r_max)%Q) /\
    (exists lo', np_min (vscale r_max normed) = inr lo' /\ (lo' == 0)%Q) /\
    (exists hi', np_max (vscale r_max normed) = inr hi' /\ (hi' == r_max)%Q).
Proof.
  intros Hlo Hhi Hne Hr.
  pose proof (@np_min_nonempty vals lo Hlo) as Hvals.
  destruct (@np_min_spec vals lo Hlo) as (Hlow & (ulo & Hinlo & Heqlo)).
  destruct (@np_max_spec vals hi Hhi) as (Hup & (uhi & Hinhi & Heqhi)).
  assert (Hlt : (lo < hi)%Q).
  { assert (lo <= hi)%Q by (rewrite Heqhi; now apply Hlow). lra. }
  rewrite (@normalize_eq vals lo hi Hlo Hhi).
  destruct (Qeq_bool (hi - lo) 0) eqn:Hz.
  { apply Qeq_bool_iff in Hz. lra. }
  eexists. split; [reflexivity |]. split; [reflexivity |].
  unfold vscale. rewrite !map_map.
  set (f := fun v : Q => (r_max * ((v - lo) / (hi - lo)))%Q).
  assert (Hbounds : forall u, In u (map f vals) -> (0 <= u <= r_max)%Q).
  { intros u Hin. apply in_map_iff in Hin. destruct Hin as (v & <- & Hv).
    apply rescaled_entry_bounds; auto. }
  assert (Hmap : map f vals <> []).
  { destruct vals; [contradiction | discriminate]. }
  split; [apply length_map |]. split; [exact Hbounds |]. split.
  - apply np_min_unique; [exact Hmap | intros u Hu; now apply Hbounds |].
    exists (f ulo). split; [now apply in_map |].
    unfold f. rewrite <- Heqlo. unfold Qdiv.
    setoid_replace (lo - lo)%Q with 0%Q by ring. ring.
  - apply np_max_unique; [exact Hmap | intros u Hu; now apply Hbounds |].
    exists (f uhi). split; [now apply in_map |].
    unfold f. rewrite <- Heqhi. field. lra.
Qed.

(** On a constant vector the division by max - min = 0 is attempted. *)
Lemma normalize_constant vals lo hi :
  np_min vals = inr lo -> np_max vals = inr hi -> (hi == lo)%Q ->
  normalize vals = inl ZeroDivisionError.
Proof.
  intros Hlo Hhi Heq. rewrite (@normalize_eq vals lo hi Hlo Hhi).
  destruct (Qeq_bool (hi - lo) 0) eqn:Hz; [reflexivity |].
  apply Qeq_bool_neq in Hz. lra.
Qed.

Section TabularRescaling.

(** The tabular formulator has composed its problem, the solver has
    answered with a solution vector, and the extreme entries of its first
    n coordinates are [lo] and [hi]: the rescaling step is reached. *)
Variable linalg_inv : mat -> result mat.
Variable solve : lp_solver.
Variable T : tensor.
Variables discount_factor l1 r_max : Q.
Variables T0 T_disc_inv : mat.
Variable c : vec.
Variable A : mat.
Variable b : vec.
Variable res : lp_result.
Variable sol : vec.
Variables lo hi : Q.

Let n : nat := t_states T.

Hypothesis expert_slice : slice_action T 0 = inr T0.
Hypothesis inverse :
  linalg_inv (msub (identity n) (mscale discount_factor T0))
  = inr T_disc_inv.
Hypothesis composed : compose_tabular T T_disc_inv l1 r_max = inr (c, A, b).
Hypothesis solved : solve c A b = inr res.
Hypothesis solution : x res = Some sol.
Hypothesis minimum : np_min (firstn n sol) = inr lo.
Hypothesis maximum : np_max (firstn n sol) = inr hi.

Lemma linear_programming_rescales :
  linear_programming linalg_inv solve T discount_factor l1 r_max =
  (normed <- normalize (firstn n sol) ;; ret (vscale r_max normed, res)).
Proof.
  unfold linear_programming. fold n.
  rewrite expert_slice. cbn [bind]. rewrite inverse. cbn [bind].
  rewrite composed. cbn [bind]. rewrite solved. cbn [bind].
  unfold solution_prefix. rewrite solution. reflexivity.
Qed.

(** C3, as the code has it.  The tabular formulator rescales the first n
    coordinates of the solution by min-max normalisation,
    r_max (x_i - min) / (max - min), which lies in [0, r_max] when
    r_max >= 0; it makes no test of its own for a constant solution: with
    max = min the division by zero is attempted and the formulator fails
    with the ZeroDivisionError of that division. *)
Theorem rescaling_is_min_max_and_unguarded :
  (~ (hi == lo)%Q -> (0 <= r_max)%Q ->
   exists rewards,
     linear_programming linalg_inv solve T discount_factor l1 r_max
     = inr (rewards, res) /\
     rewards = map (fun v => (r_max * ((v - lo) / (hi - lo)))%Q)
                   (firstn n sol) /\
     forall u, In u rewards -> (0 <= u <= r_max)%Q) /\
  ((hi == lo)%Q ->
   linear_programming linalg_inv solve T discount_factor l1 r_max
   = inl ZeroDivisionError).
Proof.
  rewrite linear_programming_rescales. split.
  - intros Hne Hr.
    destruct (@rescale_spec (firstn n sol) lo hi r_max minimum maximum
                Hne Hr) as (normed & Hnorm & Heq & _ & Hb & _).
    rewrite Hnorm. cbn [bind]. eexists. split; [reflexivity |].
    split; [| exact Hb].
    rewrite Heq. unfold vscale. now rewrite !map_map.
  - intros Heq.
    now rewrite (@normalize_constant (firstn n sol) lo hi minimum maximum
                   Heq).
Qed.

(** C10.  When the rescaling step runs on a solution whose first n
    coordinates are not constant, the formulator returns a reward vector
    with one entry per coordinate rescaled, n of them when the solution
    has at least n coordinates, whose minimum is 0 and whose maximum is
    r_max (for r_max >= 0, as the configuration requires). *)
Theorem rescaled_reward_attains_endpoints :
  ~ (hi == lo)%Q -> (0 <= r_max)%Q ->
  exists rewards,
    linear_programming linalg_inv solve T discount_factor l1 r_max
    = inr (rewards, res) /\
    length rewards = Nat.min n (length sol) /\
    (exists lo', np_min rewards = inr lo' /\ (lo' == 0)%Q) /\
    (exists hi', np_max rewards = inr hi' /\ (hi' == r_max)%Q).
Proof.
  intros Hne Hr. rewrite linear_programming_rescales.
  destruct (@rescale_spec (firstn n sol) lo hi r_max minimum maximum
              Hne Hr) as (normed & Hnorm & _ & Hlen & _ & Hmin & Hmax).
  rewrite Hnorm. cbn [bind]. eexists. split; [reflexivity |].
  rewrite Hlen, length_firstn. auto.
Qed.

End TabularRescaling.

(** On the three-state chain, a graded solution is rescaled into [0, 1]. *)
Lemma rescaling_on_chain3 :
  exists rewards,
    linear_programming gauss_jordan_inv (oracle_solver chain3_graded)
      chain3 (1 # 2) 0 1
    = inr (rewards, mk_lp_result Optimal (Some chain3_graded)) /\
    forall u, In u rewards -> (0 <= u <= 1)%Q.
Proof.
  epose proof (@rescaling_is_min_max_and_unguarded gauss_jordan_inv
                 (oracle_solver chain3_graded) chain3 (1 # 2) 0 1 _ _ _ _ _
                 (mk_lp_result Optimal (Some chain3_graded)) chain3_graded
                 _ _) as Hthm.
  edestruct Hthm as ((rewards & Hrun & _ & Hbounds) & _).
  - vm_compute. reflexivity.
  - vm_compute. reflexivity.
  - vm_compute. reflexivity.
  - reflexivity.
  - reflexivity.
  - vm_compute. reflexivity.
  - vm_compute. reflexivity.
  - unfold Qeq. simpl. lia.
  - unfold Qle. simpl. lia.
  - exists rewards. split; [exact Hrun | exact Hbounds].
Defined.

(** A constant solution: no DegenerateNormalization error exists; the
    division by max - min = 0 is attempted and its ZeroDivisionError is what
    the formulator fails with. *)
Lemma constant_solution_divides_by_zero :
  np_min (firstn 3 chain3_constant) = inr 1%Q /\
  np_max (firstn 3 chain3_constant) = inr 1%Q /\
  normalize (firstn 3 chain3_constant) = matrix_div [0; 0; 0]%Q (1 - 1) /\
  linear_programming gauss_jordan_inv (oracle_solver chain3_constant)
    chain3 (1 # 2) 0 1 = inl ZeroDivisionError.
Proof. repeat split; vm_compute; reflexivity. Qed.

(** On the three-state chain, the graded solution comes back as a vector of
    three rewards with minimum 0 and maximum r_max = 1. *)
Lemma rescaled_reward_on_chain3 :
  exists rewards,
    linear_programming gauss_jordan_inv (oracle_solver chain3_graded)
      chain3 (1 # 2) 0 1
    = inr (rewards, mk_lp_result Optimal (Some chain3_graded)) /\
    length rewards = 3 /\
    (exists lo', np_min rewards = inr lo' /\ (lo' == 0)%Q) /\
    (exists hi', np_max rewards = inr hi' /\ (hi' == 1)%Q).
Proof.
  eapply (@rescaled_reward_attains_endpoints gauss_jordan_inv
            (oracle_solver chain3_graded) chain3 (1 # 2) 0 1 _ _ _ _ _
            (mk_lp_result Optimal (Some chain3_graded)) chain3_graded).
  - vm_compute. reflexivity.
  - vm_compute. reflexivity.
  - vm_compute. reflexivity.
  - reflexivity.
  - reflexivity.
  - vm_compute. reflexivity.
  - vm_compute. reflexivity.
  - unfold Qeq. simpl. lia.
  - unfold Qle. simpl. lia.
Defined.

(** ** The empirical value of a set of trajectories *)

Section EmpiricalValue.

Variables State Action : Type.
Variable phi : list (State -> Q).
Variable gamma : Q.

Lemma trajectory_value_loop (f : State -> Q)
    (traj : trajectory State Action) :
  forall (a : nat) (acc : Q),
    (fold_left
       (fun value '(j, (s, _)) => (value + gamma ^ Z.of_nat j * f s)%Q)
       (combine (seq a (length traj)) traj) acc
     == acc + discounted_sum_from gamma f a (map fst traj))%Q.
Proof.
  induction traj as [| [s act] rest IH]; intros a acc; simpl.
  - ring.
  - rewrite IH. ring.
Qed.

Lemma zip_with_map_plus {X : Type} (f g : X -> Q) (l : list X) :
  zip_with Qplus (map f l) (map g l) = map (fun a => (f a + g a)%Q) l.
Proof. induction l as [| a l IH]; simpl; [reflexivity | now rewrite IH]. Qed.

Lemma policy_value_loop (tv : (State -> Q) -> trajectory State Action -> Q)
    (zeta : list (trajectory State Action)) :
  forall (acc : (State -> Q) -> Q),
    fold_left
      (fun value_vector traj =>
         zip_with Qplus value_vector (map (fun phi_i => tv phi_i traj) phi))
      zeta (map acc phi)
    = map (fun phi_i =>
             fold_left (fun a traj => (a + tv phi_i traj)%Q) zeta
                       (acc phi_i))
          phi.
Proof.
  induction zeta as [| traj rest IH]; intros acc; simpl; [reflexivity |].
  rewrite zip_with_map_plus.
  apply (IH (fun phi_i => (acc phi_i + tv phi_i traj)%Q)).
Qed.

Lemma fold_left_sum_Q {X : Type} (g : X -> Q) (l : list X) :
  forall acc, (fold_left (fun a y => (a + g y)%Q) l acc
               == acc + sum_Q (map g l))%Q.
Proof.
  induction l as [| y l IH]; intros acc; simpl.
  - ring.
  - rewrite IH. ring.
Qed.

Lemma sum_Q_ext {X : Type} (g h : X -> Q) (l : list X) :
  (forall y, (g y == h y)%Q) -> (sum_Q (map g l) == sum_Q (map h l))%Q.
Proof.
  intros Hgh. induction l as [| y l IH]; simpl; [reflexivity |].
  now rewrite IH, Hgh.
Qed.

Lemma repeat_as_map {X Y : Type} (y : Y) (l : list X) :
  repeat y (length l) = map (fun _ => y) l.
Proof. induction l as [| a l IH]; simpl; [reflexivity | now rewrite IH]. Qed.

Lemma Forall2_map_pointwise {X : Type} (f g : X -> Q) (l : list X) :
  (forall a, (f a == g a)%Q) -> Forall2 Qeq (map f l) (map g l).
Proof.
  intros Hfg. induction l as [| a l IH]; simpl; constructor; auto.
Qed.

Lemma emperical_policy_value_as_map
    (zeta : list (trajectory State Action)) :
  emperical_policy_value phi gamma zeta =
  map (fun phi_i =>
         (fold_left
            (fun a traj =>
               (a + fold_left
                      (fun value '(j, (s, _)) =>
                         (value + gamma ^ Z.of_nat j * phi_i s)%Q)
                      (combine (seq 0 (length traj)) traj) 0)%Q)
            zeta 0
          / inject_Z (Z.of_nat (length zeta)))%Q)
      phi.
Proof.
  unfold emperical_policy_value, emperical_trajectory_value, enumerate.
  rewrite repeat_as_map.
  rewrite (policy_value_loop
             (fun phi_i traj =>
                fold_left
                  (fun value '(j, (s, _)) =>
                     (value + gamma ^ Z.of_nat j * phi_i s)%Q)
                  (combine (seq 0 (length traj)) traj) 0%Q)).
  now rewrite map_map.
Qed.

Lemma length_emperical_policy_value
    (zeta : list (trajectory State Action)) :
  length (emperical_policy_value phi gamma zeta) = length phi.
Proof. rewrite emperical_policy_value_as_map. apply length_map. Qed.

(** C9.  For a non-empty set of trajectories, [emperical_policy_value]
    computes, for each basis function phi_i, the mean over the
    trajectories of the discounted sums Sum_t gamma^t phi_i(s_t): the
    vector v_E the INIT step takes as the expert's. *)
Theorem emperical_policy_value_is_mean_discounted_sum
    (zeta : list (trajectory State Action)) :
  zeta <> [] ->
  length (emperical_policy_value phi gamma zeta) = length phi /\
  Forall2 Qeq (emperical_policy_value phi gamma zeta)
              (basis_value_spec phi gamma zeta).
Proof.
  intros _. split; [apply length_emperical_policy_value |].
  rewrite emperical_policy_value_as_map. unfold basis_value_spec.
  apply Forall2_map_pointwise. intros phi_i.
  rewrite fold_left_sum_Q.
  match goal with
  | |- context [sum_Q (map ?F zeta)] =>
      assert (Hs : (sum_Q (map F zeta) ==
                    sum_Q (map (fun traj =>
                                  discounted_sum_from gamma phi_i 0
                                    (map fst traj)) zeta))%Q)
  end.
  { apply sum_Q_ext. intros traj. rewrite trajectory_value_loop. ring. }
  rewrite Hs. unfold Qdiv. ring.
Qed.

End EmpiricalValue.

(** The expert's value on two demonstrations of the chain is the mean of
    their discounted sums. *)
Lemma emperical_policy_value_on_chain :
  length (emperical_policy_value chain_phi (1 # 2) chain_demos_two_starts)
  = 2 /\
  Forall2 Qeq
    (emperical_policy_value chain_phi (1 # 2) chain_demos_two_starts)
    (basis_value_spec chain_phi (1 # 2) chain_demos_two_starts).
Proof.
  apply (@emperical_policy_value_is_mean_discounted_sum nat nat chain_phi
           (1 # 2) chain_demos_two_starts).
  discriminate.
Defined.

(** ** The outer loop of the trajectory formulator *)

Lemma satisfiesb_sound rs : forall bs z,
  satisfiesb rs bs z = true -> satisfies rs bs z.
Proof.
  unfold satisfies.
  induction rs as [| row rs IH]; intros [| bound bs] z H; simpl in H;
    try discriminate; [constructor |].
  apply andb_prop in H. destruct H as (H1 & H2).
  constructor; [now apply Qle_bool_iff | now apply IH].
Qed.

Lemma zero_solver_feasible : feasible_solver zero_solver.
Proof.
  intros c A b res sol Hrun Hx. unfold zero_solver in Hrun.
  destruct (satisfiesb (rows A) b (repeat 0%Q (length c))) eqn:Hs;
    injection Hrun as <-; simpl in Hx; [| discriminate].
  injection Hx as <-. split; [apply repeat_length |].
  now apply satisfiesb_sound.
Qed.

Lemma alpha_converged_true alpha alpha_new tol :
  alpha_converged alpha alpha_new tol = inr true ->
  exists delta,
    sub_broadcast alpha alpha_new = inr delta /\
    (0 <= tol)%Q /\ (sum_squares delta <= tol * tol)%Q.
Proof.
  unfold alpha_converged. intros H. bind_inv H as delta Hd.
  injection H as H. apply andb_prop in H. destruct H as (H1 & H2).
  exists delta. repeat split; auto; now apply Qle_bool_iff.
Qed.

Section TrajectoryLoop.

Variables State Action World : Type.
Variable T : State -> Action -> World -> (State * bool) * World.
Variable phi : list (State -> Q).
Variable gamma : Q.
Variable opt_pol : vec -> policy State Action.
Variable p : Q.
Variable m : positive.
Variable H : nat.
Variable tol : Q.
Variable start_state : State.
Variable expert_value_vector : vec.
Variable solve : lp_solver.

Let d : nat := length phi.
Let body := loop_body T phi gamma opt_pol p m H tol start_state
                      expert_value_vector solve.
Let run := loop T phi gamma opt_pol p m H tol start_state
                expert_value_vector solve.
Let lp_of (st : loop_state State Action World) :=
  compose_trajectory phi p expert_value_vector
    (length (ls_policy_set st)) (ls_value_vectors st).

(** The pass on which the test succeeds leaves the loop with the vector
    the new solution was compared with. *)
Lemma loop_body_stops st c A b res sol :
  lp_of st = inr (c, A, b) -> solve c A b = inr res -> x res = Some sol ->
  alpha_converged (ls_alpha st) (firstn d sol) tol = inr true ->
  body st = inr (inl (ls_alpha st, None)).
Proof.
  intros Hlp Hsolve Hx Hconv. unfold body, loop_body.
  unfold lp_of in Hlp. unfold d in Hconv. rewrite Hlp. cbn [bind]. rewrite Hsolve. cbn [bind].
  unfold solution_prefix. rewrite Hx. cbn [bind ret]. rewrite Hconv.
  reflexivity.
Qed.

(** A pass that goes round again has taken the first d coordinates of
    its solution as the new alpha. *)
Lemma loop_body_continues st st' :
  body st = inr (inr st') ->
  exists c A b res sol,
    lp_of st = inr (c, A, b) /\ solve c A b = inr res /\
    x res = Some sol /\
    alpha_converged (ls_alpha st) (firstn d sol) tol = inr false /\
    ls_alpha st' = firstn d sol /\
    exists trajs : list (trajectory State Action),
      vstack_row (ls_value_vectors st)
                 (emperical_policy_value phi gamma trajs)
      = inr (ls_value_vectors st').
Proof.
  unfold body, loop_body, d. intros Hb.
  bind_inv Hb as pb Hpb. destruct pb as [[c A] b].
  bind_inv Hb as res Hres. bind_inv Hb as alpha_new Hnew.
  bind_inv Hb as stop Hstop.
  unfold solution_prefix in Hnew.
  destruct (x res) as [sol |] eqn:Hx; [| discriminate].
  injection Hnew as <-.
  destruct stop; [discriminate |].
  destruct (mc_trajectories T m H start_state
              (opt_pol (firstn (length phi) sol)) (ls_world st))
    as [trajs w'].
  bind_inv Hb as vv Hvv. injection Hb as <-.
  exists c, A, b, res, sol. repeat split; auto.
  exists trajs. exact Hvv.
Qed.

(** If after j passes the test succeeds, the loop returns on pass j+1. *)
Lemma loop_returns_after_passes j st0 st out :
  passes body j st0 st -> body st = inr (inl out) ->
  forall fuel, j < fuel -> run fuel st0 = Some (inr out).
Proof.
  intros Hp Hstop. induction Hp as [st | j st st' st'' Hstep Hp IH];
    intros fuel Hfuel; (destruct fuel as [| fuel]; [lia |]);
    unfold run; simpl; fold body.
  - now rewrite Hstop.
  - rewrite Hstep. apply IH; [exact Hstop | lia].
Qed.

Let state_ok := @loop_state_ok State Action World d.

Hypothesis expert_length : length expert_value_vector = d.
Hypothesis solver_ok : feasible_solver solve.

Lemma pass_keeps_state_ok st st' :
  state_ok st -> body st = inr (inr st') -> state_ok st'.
Proof.
  intros (Hwv & Hcv & _ & _) Hb.
  apply loop_body_continues in Hb.
  destruct Hb as (c & A & b & res & sol & Hlp & Hsolve & Hx & _ & Halpha
                  & trajs & Hvv).
  destruct (solver_ok Hsolve Hx) as (Hlen & Hsat).
  unfold lp_of in Hlp.
  eapply compose_trajectory_inr in Hlp;
    [| exact expert_length | exact Hwv | exact Hcv].
  destruct Hlp as (-> & _ & _ & (rs & bs & Hrb & HrA & ->)).
  rewrite HrA in Hsat. fold d in Hsat.
  apply Forall2_app_same_length in Hsat; [| exact Hrb].
  rewrite length_app, !repeat_length in Hlen. fold d in Hlen.
  assert (Hshape : shape (ls_value_vectors st)
                         (nrows (ls_value_vectors st)) d)
    by (repeat split; auto).
  eapply shape_vstack_row in Hvv;
    [| exact Hshape | apply length_emperical_policy_value].
  destruct Hvv as (Hw' & _ & Hc').
  unfold state_ok, loop_state_ok. rewrite Halpha. repeat split; auto.
  - rewrite length_firstn. lia.
  - eapply alpha_rows_bound; [| | exact Hsat]; lia.
Qed.

Lemma passes_keep_state_ok j st0 st :
  passes body j st0 st -> state_ok st0 -> state_ok st.
Proof.
  intros Hp. induction Hp as [st | j st st' st'' Hstep Hp IH]; auto.
  intros Hok. apply IH. eapply pass_keeps_state_ok; eauto.
Qed.

Lemma passes_none_inv st0 st : passes body 0 st0 st -> st = st0.
Proof. intros Hp. inversion Hp. reflexivity. Qed.

(** The last of j+1 passes. *)
Lemma passes_last j st0 st :
  passes body (S j) st0 st ->
  exists st_prev, passes body j st0 st_prev /\ body st_prev = inr (inr st).
Proof.
  revert st0. induction j as [| j IH]; intros st0 Hp.
  - inversion Hp as [| ? ? st1 ? Hstep Hrest]; subst.
    apply passes_none_inv in Hrest. subst st1.
    exists st0. split; [constructor | exact Hstep].
  - inversion Hp as [| ? ? st1 ? Hstep Hrest]; subst.
    destruct (IH _ Hrest) as (st_prev & Hp' & Hlast).
    exists st_prev. split; [| exact Hlast].
    econstructor; eauto.
Qed.

End TrajectoryLoop.

Section TrajectoryFormulator.

Variables State Action World : Type.
Variable T : State -> Action -> World -> (State * bool) * World.
Variable phi : list (State -> Q).
Variable gamma : Q.
Variable opt_pol : vec -> policy State Action.
Variable p : Q.
Variable m : positive.
Variable H : nat.
Variable tol : Q.
Variable solve : lp_solver.
Variable zeta : list (trajectory State Action).
Variable alpha0 : vec.
Variable pi0 : policy State Action.
Variable w : World.
Variable start_state : State.

Let d : nat := length phi.
Let expert_value_vector := emperical_policy_value phi gamma zeta.
Let st0 := initial_loop_state T phi gamma m H start_state alpha0 pi0 w.
Let body := loop_body T phi gamma opt_pol p m H tol start_state
                      expert_value_vector solve.

(** The formulator gets as far as its loop. *)
Hypothesis starts : get_start_state zeta = inr start_state.
Hypothesis checked : check_start_states zeta start_state = inr tt.

Lemma trajectory_linear_programming_runs_loop fuel :
  trajectory_linear_programming T phi gamma opt_pol p m H tol solve zeta
    alpha0 pi0 fuel w
  = loop T phi gamma opt_pol p m H tol start_state expert_value_vector
         solve fuel st0.
Proof.
  unfold trajectory_linear_programming. rewrite starts, checked.
  reflexivity.
Qed.

Lemma initial_state_ok :
  length alpha0 = d -> unit_bounded alpha0 -> loop_state_ok d st0.
Proof.
  intros Hlen Hb. unfold st0, initial_loop_state.
  destruct (mc_trajectories T m H start_state pi0 w) as [trajs w'].
  unfold loop_state_ok, wf_mat. simpl. repeat split; auto.
  constructor; [apply length_emperical_policy_value | constructor].
Qed.

(** C4, as the code has it.  When, after j passes of the outer loop, the
    convergence test ||alpha_new - alpha_prev|| <= tol first succeeds, the
    loop terminates and the function returns alpha_prev, the vector the new
    solution was compared with: the initial vector or the first d
    coordinates of an earlier LP solution.  It lies within tol of
    alpha_new; it has d entries, all between -1 and 1, provided the initial
    vector has and the solver's solutions satisfy their constraints. *)
Theorem converged_loop_returns_compared_alpha
    j st c A b res sol :
  feasible_solver solve ->
  length alpha0 = d -> unit_bounded alpha0 ->
  passes body j st0 st ->
  compose_trajectory phi p expert_value_vector
    (length (ls_policy_set st)) (ls_value_vectors st) = inr (c, A, b) ->
  solve c A b = inr res -> x res = Some sol ->
  alpha_converged (ls_alpha st) (firstn d sol) tol = inr true ->
  (forall fuel, j < fuel ->
     exists second,
       trajectory_linear_programming T phi gamma opt_pol p m H tol solve
         zeta alpha0 pi0 fuel w = Some (inr (ls_alpha st, second))) /\
  (j = 0 -> ls_alpha st = alpha0) /\
  (forall j', j = S j' ->
     exists st_prev c' A' b' res' sol',
       passes body j' st0 st_prev /\
       compose_trajectory phi p expert_value_vector
         (length (ls_policy_set st_prev)) (ls_value_vectors st_prev)
       = inr (c', A', b') /\
       solve c' A' b' = inr res' /\ x res' = Some sol' /\
       ls_alpha st = firstn d sol') /\
  length (ls_alpha st) = d /\ unit_bounded (ls_alpha st) /\
  exists delta,
    sub_broadcast (ls_alpha st) (firstn d sol) = inr delta /\
    (0 <= tol)%Q /\ (sum_squares delta <= tol * tol)%Q.
Proof.
  intros Hsolver Hlen Hbound Hpasses Hlp Hsolve Hx Hconv.
  assert (Hexp : length expert_value_vector = length phi)
    by apply length_emperical_policy_value.
  pose proof (passes_keep_state_ok Hexp Hsolver Hpasses
                (initial_state_ok Hlen Hbound)) as (_ & _ & Hl & Hb).
  split; [| split; [| split; [| split; [| split]]]]; auto.
  - intros fuel Hfuel. exists None.
    rewrite trajectory_linear_programming_runs_loop.
    eapply loop_returns_after_passes; [exact Hpasses | | exact Hfuel].
    eapply loop_body_stops; eauto.
  - intros ->. apply passes_none_inv in Hpasses. subst st.
    unfold st0, initial_loop_state.
    now destruct (mc_trajectories T m H start_state pi0 w).
  - intros j' ->. apply passes_last in Hpasses.
    destruct Hpasses as (st_prev & Hprev & Hlast).
    apply loop_body_continues in Hlast.
    destruct Hlast as (c' & A' & b' & res' & sol' & Hlp' & Hsolve' & Hx'
                       & _ & Halpha & _).
    exists st_prev, c', A', b', res', sol'. auto.
  - now apply alpha_converged_true.
Qed.

End TrajectoryFormulator.

(** On the chain, with tolerance 1/10 and initial vector [1/2, 0]: the test
    fails on the first pass, succeeds on the second, and the function
    returns the solution of the first pass. *)
Lemma converged_after_one_pass_on_chain :
  (exists second,
     trajectory_linear_programming chain_T chain_phi (1 # 2) chain_opt_pol
       2 1 3 (1 # 10) zero_solver chain_demo [1 # 2; 0]%Q chain_pi0 5 tt
     = Some (inr ([0; 0]%Q, second))) /\
  unit_bounded [0; 0]%Q.
Proof.
  epose proof (@converged_loop_returns_compared_alpha nat nat unit chain_T
                 chain_phi (1 # 2) chain_opt_pol 2 1 3 (1 # 10) zero_solver
                 chain_demo [1 # 2; 0]%Q chain_pi0 tt 0) as Hthm.
  edestruct Hthm as (Hrun & _ & _ & _ & Hbound & _).
  - reflexivity.
  - reflexivity.
  - exact zero_solver_feasible.
  - reflexivity.
  - repeat constructor; unfold Qle; simpl; lia.
  - eapply passes_more; [vm_compute; reflexivity | apply passes_none].
  - vm_compute. reflexivity.
  - vm_compute. reflexivity.
  - reflexivity.
  - vm_compute. reflexivity.
  - split; [apply (Hrun 5); lia | exact Hbound].
Defined.

(** On the chain, with tolerance 1 and initial vector [1/10, 0]: the test
    succeeds on the first pass against the solution [0, 0], and the function
    returns the initial vector, not the solution, with None beside it. *)
Lemma converged_run_returns_previous_alpha :
  exists c A b res,
    compose_trajectory chain_phi 2
      (emperical_policy_value chain_phi (1 # 2) chain_demo) 1
      (ls_value_vectors
         (initial_loop_state chain_T chain_phi (1 # 2) 1 3 0
            [1 # 10; 0]%Q chain_pi0 tt)) = inr (c, A, b) /\
    zero_solver c A b = inr res /\
    solution_prefix res 2 = inr [0; 0]%Q /\
    alpha_converged [1 # 10; 0]%Q [0; 0]%Q 1 = inr true /\
    trajectory_linear_programming chain_T chain_phi (1 # 2) chain_opt_pol
      2 1 3 1 zero_solver chain_demo [1 # 10; 0]%Q chain_pi0 5 tt
    = Some (inr ([1 # 10; 0]%Q, None)) /\
    vec_eqb [1 # 10; 0]%Q [0; 0]%Q = false.
Proof.
  do 4 eexists. split; [vm_compute; reflexivity |].
  repeat split; vm_compute; reflexivity.
Qed.

(** ** The check of the starting states *)

Lemma check_start_states_raises (State Action : Type)
    (zeta : list (trajectory State Action)) (start_state : State) :
  2 <= length zeta ->
  check_start_states zeta start_state = inl TypeError.
Proof.
  intros Hlen. unfold check_start_states, for_range.
  destruct (length zeta - 1) as [| q] eqn:Hq; [lia |].
  reflexivity.
Qed.

Lemma check_start_states_single (State Action : Type)
    (zeta : list (trajectory State Action)) (start_state : State) :
  length zeta <= 1 ->
  check_start_states zeta start_state = inr tt.
Proof.
  intros Hlen. unfold check_start_states, for_range.
  replace (length zeta - 1) with 0 by lia. reflexivity.
Qed.

(** With two or more demonstrations the formulator never reaches its loop:
    the check subscripts an int and raises TypeError, whether or not the
    starting states differ. *)
Lemma several_demonstrations_raise (State Action World : Type)
    T phi gamma opt_pol p m H tol solve
    (zeta : list (trajectory State Action)) alpha0 pi0 fuel (w : World)
    (start_state : State) :
  get_start_state zeta = inr start_state ->
  2 <= length zeta ->
  trajectory_linear_programming T phi gamma opt_pol p m H tol solve zeta
    alpha0 pi0 fuel w = Some (inl TypeError).
Proof.
  intros Hstart Hlen. unfold trajectory_linear_programming.
  rewrite Hstart. now rewrite check_start_states_raises.
Qed.

(** C5, at the failing input.  Two demonstrations on the chain that start in
    states 0 and 1: the formulator aborts with TypeError; and it aborts just
    so when both start in state 0. *)
Theorem differing_start_states_abort :
  trajectory_linear_programming chain_T chain_phi (1 # 2) chain_opt_pol
    2 1 3 (1 # 10) zero_solver chain_demos_two_starts [1 # 2; 0]%Q
    chain_pi0 5 tt = Some (inl TypeError) /\
  trajectory_linear_programming chain_T chain_phi (1 # 2) chain_opt_pol
    2 1 3 (1 # 10) zero_solver (chain_demo ++ chain_demo) [1 # 2; 0]%Q
    chain_pi0 5 tt = Some (inl TypeError).
Proof. split; reflexivity. Qed.

(** ** The solver status *)

Section SolverStatus.

Variables s1 s2 : lp_solver.
Hypothesis agree : same_solutions s1 s2.

Lemma linear_programming_ignores_status linalg_inv T discount l1 r_max :
  result_map fst (linear_programming linalg_inv s1 T discount l1 r_max) =
  result_map fst (linear_programming linalg_inv s2 T discount l1 r_max).
Proof.
  unfold linear_programming.
  destruct (slice_action T 0) as [e | T0]; [reflexivity |]. cbn [bind].
  destruct (linalg_inv _) as [e | Tinv]; [reflexivity |]. cbn [bind].
  destruct (compose_tabular T Tinv l1 r_max) as [e | [[c A] b]];
    [reflexivity |]. cbn [bind].
  specialize (agree c A b).
  destruct (s1 c A b) as [e1 | r1], (s2 c A b) as [e2 | r2];
    try contradiction; [now subst |]. cbn [bind].
  unfold solution_prefix. rewrite agree.
  destruct (x r2) as [sol |]; [| reflexivity]. cbn [bind ret].
  destruct (normalize _); reflexivity.
Qed.

Lemma large_linear_programming_ignores_status
    (State World : Type) (state_sample : list State) k
    (otf : State -> nat -> World -> State * World) bvf pen samples w :
  result_map (fun out => (fst (fst out), snd out))
    (large_linear_programming state_sample k otf bvf pen samples s1 w) =
  result_map (fun out => (fst (fst out), snd out))
    (large_linear_programming state_sample k otf bvf pen samples s2 w).
Proof.
  unfold large_linear_programming.
  destruct (negb (Qle_bool 1 pen)); [reflexivity |].
  destruct state_sample as [| s0 rest]; [reflexivity |].
  destruct (compose_sampled _ _ _ _ _ _ _ _) as [e | [[[c A] b] w']];
    [reflexivity |]. cbn [bind].
  specialize (agree c A b).
  destruct (s1 c A b) as [e1 | r1], (s2 c A b) as [e2 | r2];
    try contradiction; [now subst |]. cbn [bind].
  unfold solution_prefix. rewrite agree.
  destruct (x r2) as [sol |]; reflexivity.
Qed.

Lemma loop_ignores_status (State Action World : Type)
    (T : State -> Action -> World -> (State * bool) * World)
    phi gamma opt_pol p m H tol start_state expert fuel :
  forall st,
    loop T phi gamma opt_pol p m H tol start_state expert s1 fuel st =
    loop T phi gamma opt_pol p m H tol start_state expert s2 fuel st.
Proof.
  induction fuel as [| fuel IH]; intros st; simpl; [reflexivity |].
  assert (Hbody :
    loop_body T phi gamma opt_pol p m H tol start_state expert s1 st =
    loop_body T phi gamma opt_pol p m H tol start_state expert s2 st).
  { unfold loop_body.
    destruct (compose_trajectory _ _ _ _ _) as [e | [[c A] b]];
      [reflexivity |]. cbn [bind].
    specialize (agree c A b).
    destruct (s1 c A b) as [e1 | r1], (s2 c A b) as [e2 | r2];
      try contradiction; [now subst |]. cbn [bind].
    unfold solution_prefix. now rewrite agree. }
  rewrite Hbody.
  destruct (loop_body _ _ _ _ _ _ _ _ _ _ s2 st) as [e | [out | st']];
    auto.
Qed.

End SolverStatus.

Lemma linear_programming_returns_solver_result
    linalg_inv solve T discount l1 r_max rewards res :
  linear_programming linalg_inv solve T discount l1 r_max
  = inr (rewards, res) ->
  exists c A b, solve c A b = inr res.
Proof.
  unfold linear_programming. intros Hrun.
  bind_inv Hrun as T0 HT0. bind_inv Hrun as Tinv HTinv.
  bind_inv Hrun as pb Hpb. destruct pb as [[c A] b].
  bind_inv Hrun as res' Hres. bind_inv Hrun as sol Hsol.
  bind_inv Hrun as normed Hnorm. injection Hrun as _ <-.
  eauto.
Qed.

Lemma large_linear_programming_returns_solver_result
    (State World : Type) (state_sample : list State) k
    (otf : State -> nat -> World -> State * World) bvf pen samples
    solve w alpha res w' :
  large_linear_programming state_sample k otf bvf pen samples solve w
  = inr ((alpha, res), w') ->
  exists c A b, solve c A b = inr res.
Proof.
  unfold large_linear_programming. intros Hrun.
  destruct (negb (Qle_bool 1 pen)); [discriminate |].
  destruct state_sample as [| s0 rest]; [discriminate |].
  bind_inv Hrun as pw Hpw. destruct pw as [[[c A] b] w1].
  bind_inv Hrun as res' Hres. bind_inv Hrun as sol Hsol.
  injection Hrun as _ <- _. eauto.
Qed.

(** C1, as the code has it.  No formulator inspects the solver status: the
    reward or weight vector each returns is computed from the solver's
    solution vector alone, so two solvers that return the same solution
    vectors under different statuses get the same vector back; and the
    tabular and the sampled formulator return the solver's own result
    object, status included, beside it. *)
Theorem solver_status_is_not_inspected (s1 s2 : lp_solver) :
  same_solutions s1 s2 ->
  (forall linalg_inv T discount l1 r_max,
      result_map fst (linear_programming linalg_inv s1 T discount l1 r_max) =
      result_map fst (linear_programming linalg_inv s2 T discount l1 r_max))
  /\
  (forall (State World : Type) (state_sample : list State) k
          (otf : State -> nat -> World -> State * World) bvf pen samples w,
      result_map (fun out => (fst (fst out), snd out))
        (large_linear_programming state_sample k otf bvf pen samples s1 w) =
      result_map (fun out => (fst (fst out), snd out))
        (large_linear_programming state_sample k otf bvf pen samples s2 w))
  /\
  (forall (State Action World : Type)
          (T : State -> Action -> World -> (State * bool) * World)
          phi gamma opt_pol p m H tol zeta alpha0 pi0 fuel w,
      trajectory_linear_programming T phi gamma opt_pol p m H tol s1 zeta
        alpha0 pi0 fuel w =
      trajectory_linear_programming T phi gamma opt_pol p m H tol s2 zeta
        alpha0 pi0 fuel w)
  /\
  (forall linalg_inv T discount l1 r_max rewards res,
      linear_programming linalg_inv s1 T discount l1 r_max
      = inr (rewards, res) ->
      exists c A b, s1 c A b = inr res)
  /\
  (forall (State World : Type) (state_sample : list State) k
          (otf : State -> nat -> World -> State * World) bvf pen samples
          w alpha res w',
      large_linear_programming state_sample k otf bvf pen samples s1 w
      = inr ((alpha, res), w') ->
      exists c A b, s1 c A b = inr res).
Proof.
  intros Hagree. repeat split.
  - intros. now apply linear_programming_ignores_status.
  - intros. now apply large_linear_programming_ignores_status.
  - intros. unfold trajectory_linear_programming.
    destruct (get_start_state zeta) as [e | s0]; [reflexivity |].
    destruct (check_start_states zeta s0); [reflexivity |].
    now apply loop_ignores_status.
  - intros. eapply linear_programming_returns_solver_result; eauto.
  - intros. eapply large_linear_programming_returns_solver_result; eauto.
Qed.

(** A solver that reports its answer as optimal and one that reports the
    same answer with status unknown get the same rewards on the chain. *)
Lemma stalled_and_optimal_get_same_rewards :
  result_map fst
    (linear_programming gauss_jordan_inv (oracle_solver chain3_graded)
       chain3 (1 # 2) 0 1) =
  result_map fst
    (linear_programming gauss_jordan_inv (stalled_solver chain3_graded)
       chain3 (1 # 2) 0 1).
Proof.
  refine (proj1 (@solver_status_is_not_inspected
                   (oracle_solver chain3_graded)
                   (stalled_solver chain3_graded) _)
                gauss_jordan_inv chain3 (1 # 2)%Q 0%Q 1%Q).
  intros c A b. reflexivity.
Defined.

(** Each formulator, given a solver that gave up (status unknown), returns
    a reward or weight vector read from its last iterate. *)
Lemma stalled_solve_is_returned_as_result :
  (exists rewards res,
     linear_programming gauss_jordan_inv (stalled_solver chain3_graded)
       chain3 (1 # 2) 0 1 = inr (rewards, res) /\
     status res = Unknown /\ vec_eqb rewards [0; 1 # 2; 1]%Q = true) /\
  (exists alpha res,
     large_linear_programming [0; 1; 2] 2 chain_otf chain_basis_value_fn
       2 1 (stalled_solver [1 # 3; 2 # 3; 0; 0; 0]%Q) tt
     = inr ((alpha, res), tt) /\
     status res = Unknown /\ alpha = [1 # 3; 2 # 3]%Q) /\
  trajectory_linear_programming chain_T chain_phi (1 # 2) chain_opt_pol
    2 1 3 (1 # 10) stalled_zero_solver chain_demo [1 # 2; 0]%Q chain_pi0
    5 tt = Some (inr ([0; 0]%Q, None)).
Proof.
  split; [| split].
  - do 2 eexists. split; [vm_compute; reflexivity |].
    split; reflexivity.
  - do 2 eexists. split; [vm_compute; reflexivity |].
    split; reflexivity.
  - vm_compute. reflexivity.
Qed.

(** * Further properties of the formulators *)

(** ** The action that is never compared *)

Lemma for_loop_ext {I St : Type} (body body' : I -> St -> result St)
    (items : list I) :
  (forall i s, In i items -> body i s = body' i s) ->
  forall s, for_loop body items s = for_loop body' items s.
Proof.
  induction items as [| i rest IH]; intros Hext s; simpl; [reflexivity |].
  rewrite (Hext i s (or_introl eq_refl)).
  destruct (body' i s) as [e | s']; simpl; [reflexivity |].
  apply IH. intros j s0 Hin. apply Hext. now right.
Qed.

Section LastAction.

Variables T T' : tensor.

Hypothesis same_states : t_states T = t_states T'.
Hypothesis same_actions : t_actions T = t_actions T'.
Hypothesis agree :
  forall s a s', a < t_actions T - 1 -> t_at T s a s' = t_at T' s a s'.

Lemma slice_action_agree a :
  a < t_actions T - 1 -> slice_action T a = slice_action T' a.
Proof.
  intros Ha. unfold slice_action. rewrite <- same_actions, <- same_states.
  destruct (a <? t_actions T); [| reflexivity].
  do 2 f_equal. apply map_ext. intros s. apply map_ext. intros s'.
  now apply agree.
Qed.

Lemma dominance_rows_agree Tinv i :
  i < t_actions T - 1 -> dominance_rows T Tinv i = dominance_rows T' Tinv i.
Proof.
  intros Hi. unfold dominance_rows.
  rewrite <- (slice_action_agree Hi).
  rewrite <- (@slice_action_agree 0) by lia. reflexivity.
Qed.

Lemma compose_tabular_agree Tinv l1 r_max :
  compose_tabular T Tinv l1 r_max = compose_tabular T' Tinv l1 r_max.
Proof.
  unfold compose_tabular.
  assert (H1 : forall p, add_optimal_policy_constraints T Tinv p =
                         add_optimal_policy_constraints T' Tinv p).
  { intros p. unfold add_optimal_policy_constraints, for_range.
    rewrite <- same_actions. apply for_loop_ext.
    intros i [[c A] b] Hin. apply in_seq in Hin.
    rewrite dominance_rows_agree by lia. reflexivity. }
  assert (H2 : forall p, add_costly_single_step_constraints T Tinv p =
                         add_costly_single_step_constraints T' Tinv p).
  { intros [[c A] b]. unfold add_costly_single_step_constraints, for_range.
    rewrite <- same_actions, <- same_states.
    destruct (hstack A (zeros (nrows A) (t_states T))) as [e | A0];
      [reflexivity |].
    cbn [bind]. apply for_loop_ext.
    intros i [[c1 A1] b1] Hin. apply in_seq in Hin.
    rewrite dominance_rows_agree by lia. reflexivity. }
  assert (H3 : forall p Rmax, add_rmax_constraints T p Rmax =
                              add_rmax_constraints T' p Rmax).
  { intros p Rmax. unfold add_rmax_constraints. now rewrite same_states. }
  assert (H4 : forall p l, add_l1norm_constraints T p l =
                           add_l1norm_constraints T' p l).
  { intros [[c A] b] l. unfold add_l1norm_constraints.
    now rewrite same_states. }
  rewrite <- same_states, H1.
  destruct (add_optimal_policy_constraints T' Tinv _) as [e | p1];
    [reflexivity |].
  cbn [bind]. rewrite H2.
  destruct (add_costly_single_step_constraints T' Tinv p1) as [e | p2];
    [reflexivity |].
  cbn [bind]. rewrite H3.
  destruct (add_rmax_constraints T' p2 r_max) as [e | p3]; [reflexivity |].
  cbn [bind]. apply H4.
Qed.

End LastAction.

(** X1.  The tabular formulator never reads the transition probabilities of
    the last action: its loops run over [range(k - 1)] and compare action 0
    with action [i], so two tensors with at least two actions that agree on
    the actions 0 .. k-2 give the same rewards and the same solver result,
    whatever they say about action k-1. *)
Theorem tabular_formulator_ignores_last_action
    (linalg_inv : mat -> result mat) (solve : lp_solver)
    (T T' : tensor) (discount_factor l1 r_max : Q) :
  t_states T = t_states T' ->
  t_actions T = t_actions T' ->
  2 <= t_actions T ->
  (forall s a s', a < t_actions T - 1 -> t_at T s a s' = t_at T' s a s') ->
  linear_programming linalg_inv solve T discount_factor l1 r_max =
  linear_programming linalg_inv solve T' discount_factor l1 r_max.
Proof.
  intros Hs Ha Hk Hagree. unfold linear_programming.
  rewrite <- (@slice_action_agree T T' Hs Ha Hagree 0) by lia.
  rewrite <- Hs.
  destruct (slice_action T 0) as [e | T0]; [reflexivity |]. cbn [bind].
  destruct (linalg_inv _) as [e | Tinv]; [reflexivity |]. cbn [bind].
  now rewrite (@compose_tabular_agree T T' Hs Ha Hagree).
Qed.

Lemma last_action_ignored_on_chain3 :
  linear_programming gauss_jordan_inv (oracle_solver chain3_graded)
    chain3 (1 # 2) 0 1 =
  linear_programming gauss_jordan_inv (oracle_solver chain3_graded)
    chain3_lazy (1 # 2) 0 1 /\
  linear_programming gauss_jordan_inv (oracle_solver chain3_graded)
    chain3 (1 # 2) 0 1 =
  inr ([0; 1 # 2; 1]%Q, mk_lp_result Optimal (Some chain3_graded)).
Proof.
  split.
  - apply tabular_formulator_ignores_last_action.
    + reflexivity.
    + reflexivity.
    + simpl. lia.
    + intros s a s' Ha. simpl in Ha.
      assert (a = 0) by lia. subst a. reflexivity.
  - vm_compute. reflexivity.
Defined.

(** ** The comparison of the expert with itself *)

Lemma dot_all_zero r : forall v, all_zero r -> (dot r v == 0)%Q.
Proof.
  unfold dot. induction r as [| a r IH]; intros [| b v] Hr; simpl;
    try reflexivity.
  inversion Hr as [| ? ? Ha Hr']; subst.
  rewrite (IH v Hr'), Ha. ring.
Qed.

Lemma all_zero_self_difference r : all_zero (zip_with Qminus r r).
Proof.
  induction r as [| a r IH]; simpl; constructor; [ring | exact IH].
Qed.

Lemma all_zero_vscale a r : all_zero r -> all_zero (vscale a r).
Proof.
  unfold vscale. induction 1 as [| q r Hq Hr IH]; simpl; constructor; auto.
  rewrite Hq. ring.
Qed.




(** ** What the reward bound of the tabular formulator enforces *)

Lemma add_rmax_constraints_eq (T : tensor) c A b Rmax :
  t_states T <= ncols A ->
  add_rmax_constraints T (c, A, b) Rmax =
  inr (c,
       mk_mat (ncols A)
         (rows A ++ map (fun i => unit_row (ncols A) i 1) (seq 0 (t_states T))),
       b ++ repeat Rmax (t_states T)).
Proof.
  intros Hn. unfold add_rmax_constraints, for_range.
  pose (Inv := fun (done : list nat) (s : lp_problem) =>
                 s = (c,
                      mk_mat (ncols A)
                        (rows A ++ map (fun i => unit_row (ncols A) i 1) done),
                      b ++ repeat Rmax (length done))).
  destruct (for_loop_returns
              (fun i '(c, A_ub, b_ub) =>
                 constraint_row <-
                   list_setitem (repeat 0%Q (ncols A_ub)) i 1%Q ;;
                 A_ub <- vstack_row A_ub constraint_row ;;
                 ret (c, A_ub, b_ub ++ [Rmax]))
              Inv (seq 0 (t_states T)))
    with (done := @nil nat) (s := (c, A, b)) as (out & Hout & Hinv).
  - intros i done s Hin ->. apply in_seq in Hin. simpl.
    rewrite list_setitem_ok by (rewrite repeat_length; lia). simpl.
    unfold vstack_row.
    rewrite vstack_ok by (simpl; now rewrite length_upd, repeat_length).
    simpl. eexists. split; [reflexivity |].
    unfold Inv. rewrite map_app, length_app, repeat_app. simpl.
    rewrite <- !app_assoc. reflexivity.
  - unfold Inv. simpl. rewrite !app_nil_r. now destruct A.
  - unfold Inv in Hinv. simpl app in Hinv. rewrite length_seq in Hinv.
    subst out. exact Hout.
Qed.

Lemma satisfies_upper_rows w R z : forall n a,
  a + n <= w ->
  satisfies (map (fun i => unit_row w i 1) (seq a n)) (repeat R n) z <->
  (forall i, a <= i < a + n -> (nth i z 0 <= R)%Q).
Proof.
  unfold satisfies.
  induction n as [| n IH]; intros a Ha; simpl.
  - split; [intros _ i Hi; lia | constructor].
  - split.
    + intros Hsat i Hi. inversion Hsat as [| ? ? ? ? Hrow Hrest]; subst.
      destruct (Nat.eq_dec i a) as [-> | Hne].
      * rewrite dot_unit_row in Hrow by lia. lra.
      * apply (proj1 (IH (S a) ltac:(lia)) Hrest). lia.
    + intros Hall. constructor.
      * rewrite dot_unit_row by lia.
        specialize (Hall a ltac:(lia)). lra.
      * apply IH; [lia |]. intros i Hi. apply Hall. lia.
Qed.

(** X3.  BoundConstraint of the tabular formulator.  On a problem with at
    least n columns the block returns; it keeps the objective, appends n rows
    and n bounds, and an assignment satisfies the appended rows exactly when
    each of the first n variables is at most [Rmax].  No lower bound on the
    rewards is written by this block. *)
Theorem rmax_rows_bound_rewards_from_above
    (T : tensor) (c : vec) (A : mat) (b : vec) (Rmax : Q) :
  t_states T <= ncols A ->
  exists rs bs,
    add_rmax_constraints T (c, A, b) Rmax =
    inr (c, mk_mat (ncols A) (rows A ++ rs), b ++ bs) /\
    length rs = t_states T /\ length bs = t_states T /\
    forall z, satisfies rs bs z <->
              (forall i, i < t_states T -> (nth i z 0 <= Rmax)%Q).
Proof.
  intros Hn.
  exists (map (fun i => unit_row (ncols A) i 1) (seq 0 (t_states T))),
         (repeat Rmax (t_states T)).
  split; [now apply add_rmax_constraints_eq |].
  split; [now rewrite length_map, length_seq |].
  split; [apply repeat_length |].
  intros z. rewrite satisfies_upper_rows by lia.
  split; intros Hall i Hi; apply Hall; lia.
Qed.

Lemma rmax_rows_on_chain3 :
  t_states chain3 <= ncols (zeros 0 3) /\
  exists rs bs,
    add_rmax_constraints chain3 chain3_empty 1 =
    inr (repeat 0%Q 3, mk_mat 3 ([] ++ rs), [] ++ bs) /\
    length rs = 3 /\ length bs = 3 /\
    forall z, satisfies rs bs z <->
              (forall i, i < 3 -> (nth i z 0 <= 1)%Q).
Proof.
  split; [simpl; lia |].
  apply (@rmax_rows_bound_rewards_from_above chain3 (repeat 0%Q 3)
           (zeros 0 3) [] 1).
  simpl. lia.
Defined.

(** X4.  Size of the tabular linear program.  For a tensor with n states and
    k >= 1 actions and an n x n inverse the four blocks return a problem with
    3 n variables: the objective is n zeros for the rewards, n entries -1 for
    the helper variables and n entries [l1] for the L1 variables, and there
    are 2 (k-1) n + 3 n constraint rows. *)
Theorem tabular_lp_size (T : tensor) (Tinv : mat) (l1 r_max : Q) :
  1 <= t_actions T ->
  shape Tinv (t_states T) (t_states T) ->
  exists A b,
    compose_tabular T Tinv l1 r_max =
    inr ((repeat 0%Q (t_states T) ++ repeat (-1)%Q (t_states T))
           ++ repeat l1 (t_states T), A, b) /\
    shape A (2 * (t_actions T - 1) * t_states T + 3 * t_states T)
            (3 * t_states T) /\
    length b = 2 * (t_actions T - 1) * t_states T + 3 * t_states T.
Proof.
  intros Hk HTinv.
  destruct (@compose_tabular_ok T Tinv l1 r_max Hk HTinv)
    as (c & A & b & Hrun & _ & HA & Hb).
  exists A, b. split; [| split; assumption].
  rewrite Hrun. do 2 f_equal. f_equal.
  unfold compose_tabular in Hrun.
  bind_inv Hrun as p1 H1. destruct p1 as [[c1 A1] b1].
  bind_inv Hrun as p2 H2. destruct p2 as [[c2 A2] b2].
  bind_inv Hrun as p3 H3. destruct p3 as [[c3 A3] b3].
  eapply add_optimal_policy_constraints_inr in H1; [| apply shape_zeros].
  destruct H1 as (-> & HA1 & _).
  eapply add_costly_single_step_constraints_inr in H2; [| exact HA1].
  destruct H2 as (-> & HA2 & _).
  eapply add_rmax_constraints_inr in H3; [| exact HA2].
  destruct H3 as (-> & HA3 & _).
  unfold add_l1norm_constraints in Hrun.
  bind_inv Hrun as A4 HA4. unfold for_range in Hrun.
  pose (Inv := fun (_ : list nat) (s : lp_problem) =>
                 fst (fst s) =
                 (repeat 0%Q (t_states T) ++ repeat (-1)%Q (t_states T))
                   ++ repeat l1 (t_states T)).
  eapply (for_loop_inv _ Inv) with (done := []) in Hrun;
    [exact Hrun | | reflexivity].
  intros i done [[c5 A5] b5] [[c6 A6] b6] _ Hc Hbody.
  unfold Inv in *. simpl in Hc. subst c5.
  bind_inv Hbody as r1 Hr1. bind_inv Hbody as A7 HA7.
  cbv zeta in Hbody.
  bind_inv Hbody as r2 Hr2. bind_inv Hbody as r3 Hr3.
  bind_inv Hbody as A8 HA8. injection Hbody as <- _ _. reflexivity.
Qed.

Lemma tabular_lp_size_chain3 :
  exists A b,
    compose_tabular chain3 chain3_disc_inv (1 # 4) 1 =
    inr ((repeat 0%Q 3 ++ repeat (-1)%Q 3) ++ repeat (1 # 4)%Q 3, A, b) /\
    shape A 15 9 /\ length b = 15.
Proof.
  apply (@tabular_lp_size chain3 chain3_disc_inv (1 # 4) 1).
  - simpl. lia.
  - unfold shape, wf_mat, nrows. simpl. repeat split.
    repeat constructor.
Defined.

(** ** The linear program of the trajectory formulator *)

Section TrajectoryProgram.

Variable State : Type.
Variable phi : list (State -> Q).
Variable p : Q.
Variable expert_value_vector : vec.

Let d : nat := length phi.

Hypothesis expert_length : length expert_value_vector = d.

Lemma compose_trajectory_ok k vv :
  shape vv k d ->
  exists c A b,
    compose_trajectory phi p expert_value_vector k vv = inr (c, A, b).
Proof.
  intros (Hwv & Hrv & Hcv). unfold compose_trajectory.
  unfold add_optimal_expert_constraints. fold d.
  rewrite hstack_ok by reflexivity. cbn [bind].
  set (margins := mk_mat d (map (fun v => zip_with Qminus
                                            expert_value_vector v)
                                (rows vv))).
  assert (Hm : shape margins k d).
  { unfold shape, wf_mat, nrows, margins; simpl. repeat split.
    - apply Forall_forall. intros row Hin.
      apply in_map_iff in Hin. destruct Hin as (v & <- & Hin0).
      rewrite length_zip_with, expert_length.
      unfold wf_mat in Hwv. rewrite Forall_forall in Hwv.
      rewrite (Hwv _ Hin0), Hcv. lia.
    - rewrite length_map. exact Hrv. }
  pose proof (shape_mscale (-1) (shape_identity k)) as Hid.
  destruct (hstack_shape_ok Hm Hid) as (blk1 & Hblk1 & Hs1).
  rewrite Hblk1. cbn [bind].
  assert (Hs0 : shape (mk_mat (ncols (zeros 0 d) + ncols (zeros (nrows (zeros 0 d)) k))
                         (zip_with (@app Q) (rows (zeros 0 d))
                            (rows (zeros (nrows (zeros 0 d)) k)))) 0 (d + k)).
  { unfold shape, wf_mat, nrows; simpl. repeat split. constructor. }
  destruct (vstack_shape_ok Hs0 Hs1) as (A1 & HA1 & HsA1).
  rewrite HA1. cbn [bind].
  destruct (hstack_shape_ok (shape_mscale p Hm) Hid) as (blk2 & Hblk2 & Hs2).
  rewrite Hblk2. cbn [bind].
  destruct (vstack_shape_ok HsA1 Hs2) as (A2 & HA2 & HsA2).
  rewrite HA2. cbn [bind ret].
  destruct (@add_alpha_size_constraints_ok d
              (repeat 0%Q d ++ repeat 1%Q k) A2
              (([] ++ repeat 0%Q k) ++ repeat 0%Q k)) as ([[c A] b] & Hout).
  { destruct HsA2 as (_ & _ & ->). lia. }
  rewrite Hout. eauto.
Qed.

End TrajectoryProgram.

(** X5.  Size of the linear program of the trajectory formulator.  For a set
    of k policies whose value vectors form a k x d array, and an expert value
    vector of length d, the two blocks return a problem with d + k variables:
    the objective is d zeros followed by k ones, and there are 2 k + 2 d
    constraint rows.  With an array of another number of rows the stacking
    fails instead. *)
Theorem trajectory_lp_size (State : Type) (phi : list (State -> Q)) (p : Q)
    (expert_value_vector : vec) (k : nat) (vv : mat) :
  length expert_value_vector = length phi ->
  wf_mat vv -> ncols vv = length phi ->
  (nrows vv = k ->
   exists A b,
     compose_trajectory phi p expert_value_vector k vv =
     inr (repeat 0%Q (length phi) ++ repeat 1%Q k, A, b) /\
     shape A (2 * k + 2 * length phi) (length phi + k) /\
     length b = 2 * k + 2 * length phi) /\
  (nrows vv <> k ->
   compose_trajectory phi p expert_value_vector k vv = inl ValueError).
Proof.
  intros Hexp Hwv Hcv. split.
  - intros Hrv.
    destruct (@compose_trajectory_ok State phi p expert_value_vector
                Hexp k vv) as (c & A & b & Hrun); [repeat split; auto |].
    pose proof (@compose_trajectory_inr State phi p expert_value_vector Hexp
                  k vv c A b Hwv Hcv Hrun)
      as (-> & HA & Hb & _).
    exists A, b. auto.
  - intros Hrv. unfold compose_trajectory, add_optimal_expert_constraints.
    rewrite hstack_ok by reflexivity. cbn [bind].
    unfold hstack at 1. unfold nrows at 1 2. cbn [rows mscale identity].
    rewrite !length_map, length_seq.
    fold (nrows vv).
    destruct (Nat.eqb_spec (nrows vv) k); [contradiction | reflexivity].
Qed.

Lemma trajectory_lp_size_chain :
  (exists A b,
     compose_trajectory chain_phi 2 chain_expert_value 1 chain_other_values =
     inr (repeat 0%Q 2 ++ repeat 1%Q 1, A, b) /\
     shape A 6 3 /\ length b = 6) /\
  compose_trajectory chain_phi 2 chain_expert_value 2 chain_other_values =
  inl ValueError.
Proof.
  destruct (@trajectory_lp_size nat chain_phi 2 chain_expert_value 1
              chain_other_values) as (H1 & _).
  - reflexivity.
  - unfold wf_mat. simpl. repeat constructor.
  - reflexivity.
  - destruct (@trajectory_lp_size nat chain_phi 2 chain_expert_value 2
              chain_other_values) as (_ & H2).
    + reflexivity.
    + unfold wf_mat. simpl. repeat constructor.
    + reflexivity.
    + split; [apply H1; reflexivity | apply H2; vm_compute; lia].
Defined.

(** ** Monte-Carlo rollouts *)

Section RolloutProperties.

Variables State Action World : Type.
Variable T : State -> Action -> World -> (State * bool) * World.
Variable m : positive.
Variable H : nat.
Variable start_state : State.
Variable pi : policy State Action.

Lemma rollout_spec h : forall state w,
  let r := fst (rollout T pi h state w) in
  length r <= h /\
  Forall (fun step => snd step = pi (fst step)) r /\
  (0 < h -> exists rest, r = (state, pi state) :: rest).
Proof.
  induction h as [| h IH]; intros state w; simpl.
  - split; [lia | split; [constructor | lia]].
  - destruct (T state (pi state) w) as [[state' done] w'].
    destruct done; simpl.
    + split; [lia | split; [repeat constructor | eauto]].
    + specialize (IH state' w').
      destruct (rollout T pi h state' w') as [rest w'']. simpl in *.
      destruct IH as (Hlen & Hall & _).
      split; [lia | split; [constructor; auto | eauto]].
Qed.

Lemma mc_rollouts_spec count : forall w,
  let trajs := fst (mc_rollouts T H start_state pi count w) in
  length trajs = count /\
  Forall (fun r =>
            length r <= H /\
            Forall (fun step => snd step = pi (fst step)) r /\
            (0 < H -> exists rest, r = (start_state, pi start_state) :: rest))
         trajs.
Proof.
  induction count as [| count IH]; intros w; simpl.
  - split; [reflexivity | constructor].
  - pose proof (rollout_spec H start_state w) as Hr.
    destruct (rollout T pi H start_state w) as [r w']. simpl in Hr.
    specialize (IH w').
    destruct (mc_rollouts T H start_state pi count w') as [rest w''].
    simpl in *. destruct IH as (Hlen & Hall).
    split; [lia | constructor; assumption].
Qed.

End RolloutProperties.

(** X6.  [mc_trajectories] returns exactly m rollouts.  Each has at most H
    steps, records at every step the action the policy gives for the state of
    that step, and, when H is positive, begins in the start state. *)
Theorem rollouts_are_bounded_and_follow_the_policy
    (State Action World : Type)
    (T : State -> Action -> World -> (State * bool) * World)
    (m : positive) (H : nat) (start_state : State)
    (pi : policy State Action) (w : World) :
  let trajs := fst (mc_trajectories T m H start_state pi w) in
  length trajs = Pos.to_nat m /\
  Forall (fun r =>
            length r <= H /\
            Forall (fun step => snd step = pi (fst step)) r /\
            (0 < H -> exists rest, r = (start_state, pi start_state) :: rest))
         trajs.
Proof.
  unfold mc_trajectories. apply mc_rollouts_spec.
Qed.

(** ** What the loop of the trajectory formulator returns *)

Section LoopOutcome.

Variables State Action World : Type.
Variable T : State -> Action -> World -> (State * bool) * World.
Variable phi : list (State -> Q).
Variable gamma : Q.
Variable opt_pol : vec -> policy State Action.
Variable p : Q.
Variable m : positive.
Variable H : nat.
Variable tol : Q.
Variable start_state : State.
Variable expert_value_vector : vec.
Variable solve : lp_solver.

Let body := loop_body T phi gamma opt_pol p m H tol start_state
                      expert_value_vector solve.
Let run := loop T phi gamma opt_pol p m H tol start_state
                expert_value_vector solve.

(** A pass that leaves the loop has seen the test succeed, and hands back
    the alpha of that pass with None. *)
Lemma loop_body_leaves st out :
  body st = inr (inl out) ->
  out = (ls_alpha st, None) /\
  exists alpha_new, alpha_converged (ls_alpha st) alpha_new tol = inr true.
Proof.
  unfold body, loop_body. intros Hb.
  bind_inv Hb as pb Hpb. destruct pb as [[c A] b].
  bind_inv Hb as res Hres. bind_inv Hb as alpha_new Hnew.
  bind_inv Hb as stop Hstop.
  destruct stop.
  - injection Hb as <-. eauto.
  - destruct (mc_trajectories T m H start_state (opt_pol alpha_new)
                (ls_world st)) as [trajs w'].
    bind_inv Hb as vv Hvv. discriminate.
Qed.

Lemma loop_returns_none fuel : forall st alpha r,
  run fuel st = Some (inr (alpha, r)) -> r = None.
Proof.
  unfold run. induction fuel as [| fuel IH]; intros st alpha r Hrun;
    simpl in Hrun; [discriminate |].
  fold body in Hrun.
  destruct (body st) as [e | [out | st']] eqn:Hb.
  - discriminate.
  - apply loop_body_leaves in Hb. destruct Hb as (-> & _).
    now injection Hrun as _ <-.
  - eapply IH; eauto.
Qed.

Lemma loop_needs_nonnegative_tolerance fuel : forall st out,
  (tol < 0)%Q -> run fuel st <> Some (inr out).
Proof.
  unfold run. induction fuel as [| fuel IH]; intros st out Htol Hrun;
    simpl in Hrun; [discriminate |].
  fold body in Hrun.
  destruct (body st) as [e | [out' | st']] eqn:Hb.
  - discriminate.
  - apply loop_body_leaves in Hb. destruct Hb as (_ & alpha_new & Hconv).
    apply alpha_converged_true in Hconv.
    destruct Hconv as (_ & _ & Hnonneg & _). lra.
  - eapply IH; eauto.
Qed.

(** A pass that goes round again appends one policy to the set and one row
    to the array of value vectors. *)
Lemma loop_body_appends st st' :
  body st = inr (inr st') ->
  exists pi row,
    ls_policy_set st' = ls_policy_set st ++ [pi] /\
    length row = length phi /\
    ls_value_vectors st' =
    mk_mat (ncols (ls_value_vectors st)) (rows (ls_value_vectors st) ++ [row])
    /\ ncols (ls_value_vectors st) = length phi.
Proof.
  unfold body, loop_body. intros Hb.
  bind_inv Hb as pb Hpb. destruct pb as [[c A] b].
  bind_inv Hb as res Hres. bind_inv Hb as alpha_new Hnew.
  bind_inv Hb as stop Hstop.
  destruct stop; [discriminate |].
  destruct (mc_trajectories T m H start_state (opt_pol alpha_new)
              (ls_world st)) as [trajs w'].
  bind_inv Hb as vv Hvv. injection Hb as <-. simpl.
  unfold vstack_row in Hvv. apply vstack_inr in Hvv.
  destruct Hvv as (Hc & ->). simpl in Hc.
  rewrite length_emperical_policy_value in Hc.
  exists (opt_pol alpha_new), (emperical_policy_value phi gamma trajs).
  repeat split; auto. apply length_emperical_policy_value.
Qed.

Lemma passes_grow j st0 st :
  passes body j st0 st ->
  length (ls_policy_set st) = length (ls_policy_set st0) + j /\
  (shape (ls_value_vectors st0) (nrows (ls_value_vectors st0)) (length phi) ->
   shape (ls_value_vectors st) (nrows (ls_value_vectors st0) + j)
         (length phi)).
Proof.
  induction 1 as [st | j st st' st'' Hstep Hp IH].
  - rewrite !Nat.add_0_r. auto.
  - apply loop_body_appends in Hstep.
    destruct Hstep as (pi & row & Hset & Hrow & Hvv & Hc).
    destruct IH as (IH1 & IH2).
    rewrite Hset, length_app in IH1. simpl in IH1.
    split; [lia |]. intros (Hw0 & _ & Hc0).
    replace (nrows (ls_value_vectors st) + S j)
      with (nrows (ls_value_vectors st') + j).
    + apply IH2. rewrite Hvv. unfold shape, wf_mat, nrows. simpl.
      repeat split; auto.
      apply Forall_app. split; [exact Hw0 |].
      constructor; [congruence | constructor].
    + rewrite Hvv. unfold nrows. simpl. rewrite length_app. simpl. lia.
Qed.

End LoopOutcome.

(** X7.  Whenever [trajectory_linear_programming] returns, the second
    component of what it returns is None: the variable [result] is set to
    None before the loop and never assigned again, so the solver's result
    object is not handed back. *)
Theorem trajectory_formulator_returns_no_result_object
    (State Action World : Type)
    (T : State -> Action -> World -> (State * bool) * World)
    (phi : list (State -> Q)) (gamma : Q)
    (opt_pol : vec -> policy State Action) (p : Q) (m : positive) (H : nat)
    (tol : Q) (solve : lp_solver) (zeta : list (trajectory State Action))
    (alpha0 : vec) (pi0 : policy State Action) (fuel : nat) (w : World)
    (alpha : vec) (r : option lp_result) :
  trajectory_linear_programming T phi gamma opt_pol p m H tol solve zeta
    alpha0 pi0 fuel w = Some (inr (alpha, r)) ->
  r = None.
Proof.
  unfold trajectory_linear_programming. intros Hrun.
  destruct (get_start_state zeta) as [e | start_state]; [discriminate |].
  destruct (check_start_states zeta start_state) as [e | []];
    [discriminate |].
  eapply loop_returns_none; eauto.
Qed.

Lemma no_result_object_on_chain :
  exists alpha r,
    trajectory_linear_programming chain_T chain_phi (1 # 2) chain_opt_pol
      2 1 3 1 zero_solver chain_demo [1 # 10; 0]%Q chain_pi0 5 tt
    = Some (inr (alpha, r)) /\ r = None.
Proof.
  exists [1 # 10; 0]%Q, None. split; [vm_compute; reflexivity |].
  apply (@trajectory_formulator_returns_no_result_object nat nat unit
           chain_T chain_phi (1 # 2) chain_opt_pol 2 1 3 1 zero_solver
           chain_demo [1 # 10; 0]%Q chain_pi0 5 tt [1 # 10; 0]%Q None).
  vm_compute. reflexivity.
Defined.

(** X8.  With a negative tolerance the convergence test can never succeed (a
    norm is not negative), so [trajectory_linear_programming] never returns a
    value: however many passes it is given, it has either raised or is still
    in its loop. *)
Theorem negative_tolerance_never_returns
    (State Action World : Type)
    (T : State -> Action -> World -> (State * bool) * World)
    (phi : list (State -> Q)) (gamma : Q)
    (opt_pol : vec -> policy State Action) (p : Q) (m : positive) (H : nat)
    (tol : Q) (solve : lp_solver) (zeta : list (trajectory State Action))
    (alpha0 : vec) (pi0 : policy State Action) (w : World) :
  (tol < 0)%Q ->
  forall fuel out,
    trajectory_linear_programming T phi gamma opt_pol p m H tol solve zeta
      alpha0 pi0 fuel w <> Some (inr out).
Proof.
  intros Htol fuel out. unfold trajectory_linear_programming.
  destruct (get_start_state zeta) as [e | start_state]; [discriminate |].
  destruct (check_start_states zeta start_state) as [e | []];
    [discriminate |].
  now apply loop_needs_nonnegative_tolerance.
Qed.

Lemma negative_tolerance_on_chain :
  (-1 < 0)%Q /\
  trajectory_linear_programming chain_T chain_phi (1 # 2) chain_opt_pol
    2 1 3 (-1) zero_solver chain_demo [0; 0]%Q chain_pi0 4 tt = None /\
  trajectory_linear_programming chain_T chain_phi (1 # 2) chain_opt_pol
    2 1 3 (-1) zero_solver chain_demo [0; 0]%Q chain_pi0 4 tt
  <> Some (inr ([0; 0]%Q, None)).
Proof.
  split; [reflexivity |]. split; [vm_compute; reflexivity |].
  apply (@negative_tolerance_never_returns nat nat unit chain_T chain_phi
           (1 # 2) chain_opt_pol 2 1 3 (-1) zero_solver chain_demo
           [0; 0]%Q chain_pi0 tt).
  reflexivity.
Defined.

(** X9.  The loop of the trajectory formulator keeps one value vector per
    policy: after j passes from the initial state the policy set has j + 1
    members and the array of value vectors is (j + 1) x d.  So the linear
    program of the next pass is always built: it has d + j + 1 variables and
    2 (j + 1) + 2 d rows. *)
Theorem trajectory_lp_grows_by_one_policy_per_pass
    (State Action World : Type)
    (T : State -> Action -> World -> (State * bool) * World)
    (phi : list (State -> Q)) (gamma : Q)
    (opt_pol : vec -> policy State Action) (p : Q) (m : positive) (H : nat)
    (tol : Q) (solve : lp_solver) (zeta : list (trajectory State Action))
    (alpha0 : vec) (pi0 : policy State Action) (w : World)
    (start_state : State) (j : nat) (st : loop_state State Action World) :
  passes (loop_body T phi gamma opt_pol p m H tol start_state
            (emperical_policy_value phi gamma zeta) solve)
         j (initial_loop_state T phi gamma m H start_state alpha0 pi0 w) st ->
  length (ls_policy_set st) = S j /\
  shape (ls_value_vectors st) (S j) (length phi) /\
  exists A b,
    compose_trajectory phi p (emperical_policy_value phi gamma zeta)
      (length (ls_policy_set st)) (ls_value_vectors st) =
    inr (repeat 0%Q (length phi) ++ repeat 1%Q (S j), A, b) /\
    shape A (2 * S j + 2 * length phi) (length phi + S j).
Proof.
  intros Hp. apply passes_grow in Hp. destruct Hp as (Hset & Hvv).
  assert (Hexp : length (emperical_policy_value phi gamma zeta) = length phi)
    by apply length_emperical_policy_value.
  assert (H0 : length (ls_policy_set
                         (initial_loop_state T phi gamma m H start_state
                            alpha0 pi0 w)) = 1 /\
               shape (ls_value_vectors
                        (initial_loop_state T phi gamma m H start_state
                           alpha0 pi0 w)) 1 (length phi)).
  { unfold initial_loop_state.
    destruct (mc_trajectories T m H start_state pi0 w) as [trajs w'].
    simpl. split; [reflexivity |].
    unfold shape, wf_mat, nrows. simpl. repeat split.
    constructor; [apply length_emperical_policy_value | constructor]. }
  destruct H0 as (Hset0 & Hvv0).
  assert (Hr0 : nrows (ls_value_vectors
                         (initial_loop_state T phi gamma m H start_state
                            alpha0 pi0 w)) = 1) by apply Hvv0.
  rewrite Hset0 in Hset. rewrite Hr0 in Hvv.
  specialize (Hvv Hvv0). simpl in Hset, Hvv.
  split; [exact Hset |]. split; [exact Hvv |].
  rewrite Hset.
  destruct (@compose_trajectory_ok State phi p
              (emperical_policy_value phi gamma zeta) Hexp (S j)
              (ls_value_vectors st) Hvv) as (c & A & b & Hrun).
  pose proof (@compose_trajectory_inr State phi p
                (emperical_policy_value phi gamma zeta) Hexp (S j)
                (ls_value_vectors st) c A b
                ltac:(apply Hvv) ltac:(apply Hvv) Hrun)
    as (-> & HA & _).
  exists A, b. auto.
Qed.

Lemma trajectory_lp_after_one_pass_on_chain :
  exists st,
    passes (loop_body chain_T chain_phi (1 # 2) chain_opt_pol 2 1 3 (1 # 10)
              0 (emperical_policy_value chain_phi (1 # 2) chain_demo)
              zero_solver)
           1 (initial_loop_state chain_T chain_phi (1 # 2) 1 3 0
                [1 # 2; 0]%Q chain_pi0 tt) st /\
    length (ls_policy_set st) = 2 /\
    shape (ls_value_vectors st) 2 2 /\
    exists A b,
      compose_trajectory chain_phi 2
        (emperical_policy_value chain_phi (1 # 2) chain_demo)
        (length (ls_policy_set st)) (ls_value_vectors st) =
      inr (repeat 0%Q 2 ++ repeat 1%Q 2, A, b) /\
      shape A 8 4.
Proof.
  eexists. split.
  - eapply passes_more; [vm_compute; reflexivity | apply passes_none].
  - apply (@trajectory_lp_grows_by_one_policy_per_pass nat nat unit chain_T
             chain_phi (1 # 2) chain_opt_pol 2 1 3 (1 # 10) zero_solver
             chain_demo [1 # 2; 0]%Q chain_pi0 tt 0 1).
    eapply passes_more; [vm_compute; reflexivity | apply passes_none].
Defined.

(** ** Edge cases of the sampled and the tabular formulator *)

Lemma for_loop_skip {I St : Type} (items : list I) (s : St) :
  for_loop (fun _ st => ret st) items s = ret s.
Proof.
  induction items as [| i rest IH]; simpl; auto.
Qed.

Section SampledEdgeCases.

Variables State World : Type.
Variable ordered_transition_function : State -> nat -> World -> State * World.
Variable basis_value_fn : State -> vec.
Variable num_transition_samples : positive.
Variable d : nat.

Hypothesis basis_length : forall s, length (basis_value_fn s) = d.

Lemma value_expectations_returns num_actions state w :
  exists a_ve w',
    value_expectations num_actions ordered_transition_function
      basis_value_fn num_transition_samples d state w = inr (a_ve, w').
Proof.
  unfold value_expectations, accumulate_value_expectations, for_range.
  pose (Inv := fun (_ : list nat) (s : list vec * World) =>
                 a_ve_columns num_actions d (fst s)).
  match goal with
  | |- context [for_loop ?body ?items ?s0] =>
      destruct (@for_loop_returns _ _ body Inv items) with
        (done := @nil nat) (s := s0) as ([a_ve w'] & Hout & _)
  end.
  - intros pass done st _ Hst.
    match goal with
    | |- exists s', for_loop ?body ?items ?s0 = inr s' /\ _ =>
        destruct (@for_loop_returns _ _ body Inv items) with
          (done := @nil nat) (s := s0) as (st' & Hout & Hinv)
    end.
    + intros a done' [cols w0] Hin (Hlen & Hall). simpl in Hlen, Hall.
      apply in_seq in Hin.
      destruct (ordered_transition_function state a w0) as [s1 w2].
      assert (Hcol : length (nth a cols []) = d).
      { rewrite Forall_forall in Hall. apply Hall, nth_In. lia. }
      destruct (@iadd_broadcast_ok (nth a cols []) (basis_value_fn s1))
        as (col & Hadd); [now rewrite basis_length |].
      rewrite Hadd. cbn [bind ret]. eexists. split; [reflexivity |].
      apply iadd_broadcast_length in Hadd.
      split; cbn [fst].
      * etransitivity; [apply length_replace_item; lia | exact Hlen].
      * apply Forall_replace_item; [exact Hall | congruence].
    + exact Hst.
    + exists st'. split; [exact Hout | exact Hinv].
  - split; simpl; [apply repeat_length |].
    apply Forall_forall. intros col Hin.
    apply repeat_spec in Hin. subst. apply repeat_length.
  - rewrite Hout. cbn [bind ret]. eauto.
Qed.

End SampledEdgeCases.

(** X10.  [large_linear_programming] needs an action besides the expert's.
    On a non-empty sample, with a penalty coefficient of at least 1 and
    basis value vectors of one length, it raises IndexError when there is no
    action (the expert column [a_ve[:, 0]] does not exist) and ValueError
    when there is only one ([np.vstack] of no rows). *)
Theorem sampled_formulator_needs_two_actions
    (State World : Type) (s0 : State) (others : list State)
    (ordered_transition_function : State -> nat -> World -> State * World)
    (basis_value_fn : State -> vec) (penalty_coefficient : Q)
    (num_transition_samples : positive) (solve : lp_solver) (w : World) :
  (1 <= penalty_coefficient)%Q ->
  (forall s, length (basis_value_fn s) = length (basis_value_fn s0)) ->
  large_linear_programming (s0 :: others) 0 ordered_transition_function
    basis_value_fn penalty_coefficient num_transition_samples solve w
  = inl IndexError /\
  large_linear_programming (s0 :: others) 1 ordered_transition_function
    basis_value_fn penalty_coefficient num_transition_samples solve w
  = inl ValueError.
Proof.
  intros Hpen Hlen.
  apply Qle_bool_iff in Hpen.
  unfold large_linear_programming. rewrite Hpen. cbn [negb].
  set (d := length (basis_value_fn s0)).
  unfold compose_sampled, add_costly_single_step_constraints_sampled.
  rewrite hstack_ok by reflexivity. cbn [bind].
  unfold enumerate. cbn [length seq combine for_loop].
  split.
  - unfold value_expectations, accumulate_value_expectations, for_range.
    cbn [seq for_loop]. rewrite for_loop_skip. reflexivity.
  - destruct (@value_expectations_returns State World
                ordered_transition_function basis_value_fn
                num_transition_samples d Hlen 1 s0 w) as (a_ve & w' & Hve).
    rewrite Hve. cbn [bind].
    apply value_expectations_inr in Hve. destruct Hve as (Hcols & _).
    destruct a_ve as [| expert [| other rest]]; try discriminate.
    reflexivity.
Qed.

Lemma sampled_formulator_on_chain_needs_two_actions :
  (1 <= 2)%Q /\
  large_linear_programming [0; 1; 2] 0 chain_otf chain_basis_value_fn 2 1
    zero_solver tt = inl IndexError /\
  large_linear_programming [0; 1; 2] 1 chain_otf chain_basis_value_fn 2 1
    zero_solver tt = inl ValueError.
Proof.
  split; [unfold Qle; simpl; lia |].
  apply (@sampled_formulator_needs_two_actions nat unit 0 [1; 2] chain_otf
           chain_basis_value_fn 2 1 zero_solver tt).
  - unfold Qle; simpl; lia.
  - reflexivity.
Defined.

(** X11.  An infeasible problem is not reported as such.  When the solver
    finds the linear program primal infeasible its result carries no
    solution (['x'] is None), and the tabular formulator, which has built
    its problem without error, fails with the TypeError of subscripting
    None. *)
Theorem infeasible_tabular_problem_raises_type_error
    (linalg_inv : mat -> result mat) (solve : lp_solver) (T : tensor)
    (discount_factor l1 r_max : Q) (T0 T_disc_inv : mat) :
  slice_action T 0 = inr T0 ->
  linalg_inv (msub (identity (t_states T)) (mscale discount_factor T0))
  = inr T_disc_inv ->
  shape T_disc_inv (t_states T) (t_states T) ->
  (forall c A b, exists res, solve c A b = inr res /\ x res = None) ->
  linear_programming linalg_inv solve T discount_factor l1 r_max
  = inl TypeError.
Proof.
  intros HT0 Hinv Hshape Hsolve. unfold linear_programming.
  rewrite HT0. cbn [bind]. rewrite Hinv. cbn [bind].
  apply slice_action_inr in HT0. destruct HT0 as (Hk & _).
  destruct (@compose_tabular_ok T T_disc_inv l1 r_max ltac:(lia) Hshape)
    as (c & A & b & Hrun & _).
  rewrite Hrun. cbn [bind].
  destruct (Hsolve c A b) as (res & Hres & Hx).
  rewrite Hres. cbn [bind]. unfold solution_prefix. rewrite Hx.
  reflexivity.
Qed.

Lemma infeasible_problem_on_chain3 :
  linear_programming gauss_jordan_inv infeasible_solver chain3 (1 # 2) 0 1
  = inl TypeError.
Proof.
  eapply (@infeasible_tabular_problem_raises_type_error gauss_jordan_inv
            infeasible_solver chain3 (1 # 2) 0 1).
  - vm_compute. reflexivity.
  - vm_compute. reflexivity.
  - unfold shape, wf_mat, nrows. simpl. repeat split. repeat constructor.
  - intros c A b. eexists. split; reflexivity.
Defined.

(** ** The rescaling forgets scale and offset *)






(** * The discrete gridworld *)

(** ** Loops over a list, seen from the items already passed *)

Lemma for_loop_prefix_returns {I St : Type} (body : I -> St -> result St)
    (Inv : list I -> St -> Prop) (items : list I) :
  (forall done i rest s, items = done ++ i :: rest -> Inv done s ->
     exists s', body i s = inr s' /\ Inv (done ++ [i]) s') ->
  forall s, Inv [] s ->
    exists s', for_loop body items s = inr s' /\ Inv items s'.
Proof.
  intros Hstep.
  assert (Hgen : forall rest done s, items = done ++ rest -> Inv done s ->
            exists s', for_loop body rest s = inr s' /\ Inv items s').
  { induction rest as [| i rest IH]; intros done s Heq Hinv; simpl.
    - exists s. split; [reflexivity |]. now rewrite Heq, app_nil_r.
    - destruct (Hstep done i rest s Heq Hinv) as (s1 & Hb & Hinv1).
      rewrite Hb. simpl. apply (IH (done ++ [i])); [| exact Hinv1].
      now rewrite <- app_assoc. }
  intros s Hinv. now apply (Hgen items []).
Qed.

Lemma seq_split_index a n (l1 l2 : list nat) i :
  seq a n = l1 ++ i :: l2 -> i = a + length l1 /\ i < a + n.
Proof.
  revert a l1. induction n as [| n IH]; intros a l1 Heq; simpl in Heq.
  - destruct l1; discriminate.
  - destruct l1 as [| h l1]; simpl in Heq; injection Heq as Hh Ht.
    + subst. simpl. lia.
    + apply IH in Ht. simpl. lia.
Qed.

Lemma map_fst_combine_seq {A : Type} (l : list A) : forall k,
  map fst (combine (seq k (length l)) l) = seq k (length l).
Proof.
  induction l as [| h t IH]; intros k; simpl;
    [reflexivity | now rewrite IH].
Qed.

Lemma enumerate_split_index {A : Type} (l : list A) done i a rest :
  enumerate l = done ++ (i, a) :: rest -> i = length done /\ i < length l.
Proof.
  unfold enumerate. intros Heq.
  pose proof (map_fst_combine_seq l 0) as Hfst.
  rewrite Heq, map_app in Hfst. simpl in Hfst. symmetry in Hfst.
  apply seq_split_index in Hfst. rewrite length_map in Hfst. lia.
Qed.

Lemma py_range_split_index n done i rest :
  py_range n = done ++ i :: rest ->
  i = Z.of_nat (length done) /\ (0 <= i < n)%Z.
Proof.
  unfold py_range. intros Heq.
  assert (Hmap : seq 0 (Z.to_nat n) =
                 map Z.to_nat done ++ Z.to_nat i :: map Z.to_nat rest).
  { change (Z.to_nat i :: map Z.to_nat rest)
      with (map Z.to_nat (i :: rest)).
    rewrite <- map_app, <- Heq, map_map.
    erewrite map_ext; [now rewrite map_id |].
    intros k. simpl. now rewrite Nat2Z.id. }
  apply seq_split_index in Hmap. rewrite length_map in Hmap.
  assert (Hin : In i (map Z.of_nat (seq 0 (Z.to_nat n)))).
  { rewrite Heq. apply in_or_app. right. now left. }
  apply in_map_iff in Hin. destruct Hin as (k & <- & Hk).
  apply in_seq in Hk. rewrite Nat2Z.id in Hmap. lia.
Qed.

Lemma length_py_range n : length (py_range n) = Z.to_nat n.
Proof. unfold py_range. now rewrite length_map, length_seq. Qed.

(** ** State indices and coordinates *)

Section GridIndices.

Import GridWorldDiscEnv.

Variable size : Z.
Variable edge_mode : Z.

Hypothesis size_positive : (0 < size)%Z.

Lemma _apply_edge_mode_spec x y :
  exists ax ay,
    _apply_edge_mode size edge_mode x y = inr (ax, ay) /\
    (0 <= ax < size)%Z /\ (0 <= ay < size)%Z /\
    ((0 <= x < size)%Z -> ax = x) /\ ((0 <= y < size)%Z -> ay = y).
Proof.
  unfold _apply_edge_mode, py_mod.
  destruct (edge_mode =? EDGEMODE_CLAMP)%Z.
  - do 2 eexists. split; [reflexivity |]. repeat split; lia.
  - destruct (Z.eqb_spec size 0); [lia |]. cbn [bind ret].
    do 2 eexists. split; [reflexivity |].
    pose proof (Z.mod_pos_bound x size size_positive).
    pose proof (Z.mod_pos_bound y size size_positive).
    repeat split; try lia; intros; now apply Z.mod_small.
Qed.

Lemma _xy2s_spec x y :
  exists ax ay,
    _xy2s size edge_mode x y = inr (ay * size + ax)%Z /\
    (0 <= ax < size)%Z /\ (0 <= ay < size)%Z /\
    ((0 <= x < size)%Z -> ax = x) /\ ((0 <= y < size)%Z -> ay = y).
Proof.
  destruct (_apply_edge_mode_spec x y) as (ax & ay & Hrun & Hrest).
  exists ax, ay. split; [| exact Hrest].
  unfold _xy2s. rewrite Hrun. reflexivity.
Qed.

Lemma _xy2s_in_range x y :
  exists s, _xy2s size edge_mode x y = inr s /\ (0 <= s < size * size)%Z.
Proof.
  destruct (_xy2s_spec x y) as (ax & ay & Hrun & Hx & Hy & _).
  eexists. split; [exact Hrun | nia].
Qed.

Lemma _xy2s_in_grid x y :
  (0 <= x < size)%Z -> (0 <= y < size)%Z ->
  _xy2s size edge_mode x y = inr (y * size + x)%Z.
Proof.
  intros Hx Hy.
  destruct (_xy2s_spec x y) as (ax & ay & Hrun & _ & _ & Hax & Hay).
  now rewrite Hrun, (Hax Hx), (Hay Hy).
Qed.

Lemma _s2xy_eq s : _s2xy size s = inr ((s mod size)%Z, (s / size)%Z).
Proof.
  unfold _s2xy, py_mod, py_floordiv.
  destruct (Z.eqb_spec size 0); [lia | reflexivity].
Qed.

Lemma _s2xy_in_grid s :
  (0 <= s < size * size)%Z ->
  (0 <= s mod size < size)%Z /\ (0 <= s / size < size)%Z /\
  (s / size * size + s mod size = s)%Z.
Proof.
  intros Hs. split; [now apply Z.mod_pos_bound |]. split.
  - split; [apply Z.div_pos; lia | apply Z.div_lt_upper_bound; lia].
  - pose proof (Z.div_mod s size). lia.
Qed.

Lemma index_of_cell x y :
  (0 <= x < size)%Z ->
  ((y * size + x) mod size = x)%Z /\ ((y * size + x) / size = y)%Z.
Proof.
  intros Hx. split.
  - rewrite Z.add_comm, Z.mod_add by lia. now apply Z.mod_small.
  - rewrite Z.add_comm, Z.div_add by lia. rewrite Z.div_small by lia. lia.
Qed.

End GridIndices.

(** X13.  In a gridworld of positive size, in either edge mode, the state
    index of any pair of coordinates lies in [0, size * size); every index
    in that range has coordinates inside the grid of which it is the index;
    and the coordinates of the index of a cell of the grid are that cell. *)
Theorem grid_index_and_coordinates_round_trip (size edge_mode : Z) :
  (0 < size)%Z ->
  (forall x y, exists s,
     GridWorldDiscEnv._xy2s size edge_mode x y = inr s /\
     (0 <= s < size * size)%Z) /\
  (forall s, (0 <= s < size * size)%Z ->
     exists x y,
       GridWorldDiscEnv._s2xy size s = inr (x, y) /\
       (0 <= x < size)%Z /\ (0 <= y < size)%Z /\
       GridWorldDiscEnv._xy2s size edge_mode x y = inr s) /\
  (forall x y, (0 <= x < size)%Z -> (0 <= y < size)%Z ->
     exists s,
       GridWorldDiscEnv._xy2s size edge_mode x y = inr s /\
       GridWorldDiscEnv._s2xy size s = inr (x, y)).
Proof.
  intros Hsize. split; [| split].
  - intros x y. now apply _xy2s_in_range.
  - intros s Hs. destruct (_s2xy_in_grid Hsize Hs) as (Hx & Hy & Heq).
    exists (s mod size)%Z, (s / size)%Z.
    split; [now apply _s2xy_eq |]. split; [exact Hx |]. split; [exact Hy |].
    rewrite _xy2s_in_grid by assumption. now rewrite Heq.
  - intros x y Hx Hy. exists (y * size + x)%Z.
    split; [now apply _xy2s_in_grid |].
    rewrite _s2xy_eq by assumption.
    destruct (@index_of_cell size Hsize x y Hx) as (-> & ->). reflexivity.
Qed.

Lemma grid_index_round_trip_on_3x3 :
  (0 < 3)%Z /\
  GridWorldDiscEnv._xy2s 3 1 (-1) 4 = inr 5%Z /\
  GridWorldDiscEnv._s2xy 3 5 = inr (2, 1)%Z /\
  (forall s, (0 <= s < 3 * 3)%Z ->
     exists x y,
       GridWorldDiscEnv._s2xy 3 s = inr (x, y) /\
       (0 <= x < 3)%Z /\ (0 <= y < 3)%Z /\
       GridWorldDiscEnv._xy2s 3 1 x y = inr s).
Proof.
  split; [reflexivity |]. split; [reflexivity |]. split; [reflexivity |].
  apply (@grid_index_and_coordinates_round_trip 3 1). reflexivity.
Defined.

(** ** The transition tensor of the gridworld *)

Lemma sum_Q_untouched (f g : nat -> Q) n : forall a,
  (forall i, a <= i < a + n -> g i = f i) ->
  sum_Q (map g (seq a n)) = sum_Q (map f (seq a n)).
Proof.
  induction n as [| n IH]; intros a Hext; simpl; [reflexivity |].
  rewrite Hext by lia. f_equal. apply IH. intros i Hi. apply Hext. lia.
Qed.

Lemma sum_Q_bump (f : nat -> Q) (j : nat) (v : Q) n : forall a,
  a <= j < a + n ->
  (sum_Q (map (fun i => if i =? j then f i + v else f i) (seq a n))
   == sum_Q (map f (seq a n)) + v)%Q.
Proof.
  induction n as [| n IH]; intros a Hj; [lia |]. simpl.
  destruct (Nat.eqb_spec a j) as [-> | Hne].
  - rewrite (@sum_Q_untouched f (fun i => if i =? j then (f i + v)%Q else f i)).
    + ring.
    + intros i Hi. destruct (Nat.eqb_spec i j); [lia | reflexivity].
  - rewrite IH by lia. ring.
Qed.

Lemma sum_Q_zeros (f : nat -> Q) n a :
  (forall i, f i = 0%Q) -> (sum_Q (map f (seq a n)) == 0)%Q.
Proof.
  intros Hf. revert a. induction n as [| n IH]; intros a; simpl;
    [reflexivity |].
  rewrite Hf, IH. ring.
Qed.

Lemma np_index_in_range n j :
  (0 <= j < Z.of_nat n)%Z -> np_index n j = inr (Z.to_nat j).
Proof.
  intros Hj. unfold np_index.
  destruct (Z.leb_spec 0 j); [| lia].
  destruct (Z.ltb_spec j (Z.of_nat n)); [reflexivity | lia].
Qed.

Section TransitionTensor.

Import GridWorldDiscEnv.

Variable size : Z.
Variable edge_mode : Z.
Variable wind : Q.

Hypothesis size_positive : (0 < size)%Z.

Let wind_ok : Prop := (0 <= wind <= 1)%Q.

(** The effect of additions of total [v] to the row of state [si] and action
    [ai]. *)
Let bumps (si ai : nat) (v : Q) (T T' : tensor) : Prop :=
  t_states T' = t_states T /\ t_actions T' = t_actions T /\
  (row_sum T' si ai == row_sum T si ai + v)%Q /\
  (forall s a, (s, a) <> (si, ai) ->
               forall s', t_at T' s a s' = t_at T s a s') /\
  (wind_ok -> nonnegative T -> nonnegative T').

Lemma iadd_bumps T si ai x y v :
  Z.of_nat (t_states T) = (size * size)%Z ->
  (wind_ok -> (0 <= v)%Q) ->
  exists T',
    (j <- _xy2s size edge_mode x y ;; tensor_iadd T si ai j v) = inr T' /\
    bumps si ai v T T'.
Proof.
  intros Hn Hv.
  destruct (@_xy2s_in_range size edge_mode size_positive x y)
    as (j & Hj & Hrange).
  rewrite Hj. cbn [bind]. unfold tensor_iadd.
  rewrite np_index_in_range by lia. cbn [bind ret].
  eexists. split; [reflexivity |].
  unfold bumps, row_sum. cbn [t_states t_actions t_at].
  split; [reflexivity |]. split; [reflexivity |]. split; [| split].
  - rewrite !Nat.eqb_refl. cbn [andb].
    apply sum_Q_bump. lia.
  - intros s a Hne s'.
    destruct (Nat.eqb_spec s si) as [-> | Hs]; [| reflexivity].
    destruct (Nat.eqb_spec a ai) as [-> | Ha]; [| reflexivity].
    congruence.
  - intros Hw Hnn s a s'. cbn [t_at].
    specialize (Hnn s a s'). specialize (Hv Hw).
    destruct ((s =? si) && (a =? ai) && (s' =? Z.to_nat j));
      [lra | exact Hnn].
Qed.

Lemma bumps_trans si ai v1 v2 T T1 T2 :
  bumps si ai v1 T T1 -> bumps si ai v2 T1 T2 ->
  bumps si ai (v1 + v2) T T2.
Proof.
  intros (Hs1 & Ha1 & Hr1 & Ho1 & Hn1) (Hs2 & Ha2 & Hr2 & Ho2 & Hn2).
  unfold bumps. repeat split; try congruence.
  - rewrite Hr2, Hr1. ring.
  - intros s a Hne s'. rewrite Ho2, Ho1; auto.
  - auto.
Qed.

(** One pass of the loop over the actions: the row of [si] and [ai]
    receives 1 - wind and five times wind / 5. *)
Lemma cell_bumps T si ai (x y dx dy : Z) :
  Z.of_nat (t_states T) = (size * size)%Z ->
  exists T',
    (j <- _xy2s size edge_mode (x + dx) (y + dy) ;;
     T <- tensor_iadd T si ai j (1 - wind)%Q ;;
     for_loop
       (fun '(wind_dx, wind_dy) T =>
          j <- _xy2s size edge_mode (x + wind_dx) (y + wind_dy) ;;
          tensor_iadd T si ai j
            (wind / inject_Z (Z.of_nat (length _A)))%Q)
       _A T) = inr T' /\
    bumps si ai 1 T T'.
Proof.
  intros Hn.
  assert (Hw5 : wind_ok -> (0 <= wind / inject_Z (Z.of_nat (length _A)))%Q).
  { intros (Hw & _). apply Qle_shift_div_l; [reflexivity | lra]. }
  assert (Hw1 : wind_ok -> (0 <= 1 - wind)%Q) by (intros (_ & Hw); lra).
  destruct (@iadd_bumps T si ai (x + dx) (y + dy) _ Hn Hw1)
    as (T0 & Hrun0 & Hb0).
  destruct (_xy2s size edge_mode (x + dx) (y + dy)) as [e | j];
    [discriminate |].
  cbn [bind] in Hrun0 |- *. rewrite Hrun0. cbn [bind].
  unfold _A at 2. cbn [for_loop].
  assert (Hstep : forall T1 v wx wy,
            bumps si ai v T T1 ->
            exists T2,
              (j <- _xy2s size edge_mode (x + wx) (y + wy) ;;
               tensor_iadd T1 si ai j
                 (wind / inject_Z (Z.of_nat (length _A)))%Q) = inr T2 /\
              bumps si ai (v + wind / inject_Z (Z.of_nat (length _A))) T T2).
  { intros T1 v wx wy Hb1.
    destruct (@iadd_bumps T1 si ai (x + wx) (y + wy) _
                ltac:(destruct Hb1 as (-> & _); exact Hn) Hw5)
      as (T2 & Hrun2 & Hb2).
    exists T2. split; [exact Hrun2 | eapply bumps_trans; eauto]. }
  destruct (Hstep _ _ 0%Z 1%Z Hb0) as (T1 & Hrun1 & Hb1).
  rewrite Hrun1. cbn [bind].
  destruct (Hstep _ _ 1%Z 0%Z Hb1) as (T2 & Hrun2 & Hb2).
  rewrite Hrun2. cbn [bind].
  destruct (Hstep _ _ 0%Z (-1)%Z Hb2) as (T3 & Hrun3 & Hb3).
  rewrite Hrun3. cbn [bind].
  destruct (Hstep _ _ (-1)%Z 0%Z Hb3) as (T4 & Hrun4 & Hb4).
  rewrite Hrun4. cbn [bind].
  destruct (Hstep _ _ 0%Z 0%Z Hb4) as (T5 & Hrun5 & Hb5).
  rewrite Hrun5. cbn [bind ret].
  exists T5. split; [reflexivity |].
  destruct Hb5 as (Hs & Ha & Hr & Ho & Hnn).
  unfold bumps. repeat split; auto.
  rewrite Hr. simpl. field.
Qed.

(** One pass of the loop over the states: each of the rows of [si] receives
    1 in total, no other row is touched. *)
Lemma state_rows_bumped T si (x y : Z) :
  Z.of_nat (t_states T) = (size * size)%Z ->
  exists T',
    for_loop
      (fun '(ai, (dx, dy)) T =>
         j <- _xy2s size edge_mode (x + dx) (y + dy) ;;
         T <- tensor_iadd T si ai j (1 - wind)%Q ;;
         for_loop
           (fun '(wind_dx, wind_dy) T =>
              j <- _xy2s size edge_mode (x + wind_dx) (y + wind_dy) ;;
              tensor_iadd T si ai j
                (wind / inject_Z (Z.of_nat (length _A)))%Q)
           _A T)
      (enumerate _A) T = inr T' /\
    t_states T' = t_states T /\ t_actions T' = t_actions T /\
    (forall a, a < length _A ->
               (row_sum T' si a == row_sum T si a + 1)%Q) /\
    (forall s, s <> si -> forall a s', t_at T' s a s' = t_at T s a s') /\
    (wind_ok -> nonnegative T -> nonnegative T').
Proof.
  intros Hn.
  pose (Inv := fun (done : list (nat * (Z * Z))) (T' : tensor) =>
                 t_states T' = t_states T /\ t_actions T' = t_actions T /\
                 (forall a, a < length done ->
                            (row_sum T' si a == row_sum T si a + 1)%Q) /\
                 (forall a, length done <= a ->
                            forall s', t_at T' si a s' = t_at T si a s') /\
                 (forall s, s <> si ->
                            forall a s', t_at T' s a s' = t_at T s a s') /\
                 (wind_ok -> nonnegative T -> nonnegative T')).
  match goal with
  | |- exists T', for_loop ?body ?items ?s0 = inr T' /\ _ =>
      destruct (@for_loop_prefix_returns _ _ body Inv items) with (s := s0)
        as (T' & Hrun & Hs & Ha & Hrows & _ & Hother & Hnn)
  end.
  - intros done [ai [dx dy]] rest T1 Hsplit
           (Hs1 & Ha1 & Hrows1 & Hrest1 & Hother1 & Hnn1).
    apply enumerate_split_index in Hsplit. destruct Hsplit as (-> & _).
    destruct (@cell_bumps T1 si (length done) x y dx dy)
      as (T2 & Hrun2 & Hs2 & Ha2 & Hr2 & Ho2 & Hnn2); [congruence |].
    exists T2. split; [exact Hrun2 |].
    unfold Inv. rewrite length_app. cbn [length].
    split; [congruence |]. split; [congruence |].
    split; [| split; [| split]].
    + intros a Ha.
      destruct (Nat.eq_dec a (length done)) as [-> | Hne].
      * rewrite Hr2. unfold row_sum. rewrite Hs1.
        rewrite (@sum_Q_untouched (t_at T si (length done))
                   (t_at T1 si (length done)));
          [reflexivity | intros; apply Hrest1; lia].
      * assert (Heq : row_sum T2 si a = row_sum T1 si a).
        { unfold row_sum. rewrite Hs2. apply sum_Q_untouched.
          intros i _. apply Ho2. intros [= ?]. contradiction. }
        rewrite Heq. apply Hrows1. lia.
    + intros a Ha s'. rewrite Ho2; [apply Hrest1; lia |].
      intros [= ?]. lia.
    + intros s Hne a s'. rewrite Ho2; [now apply Hother1 |].
      intros [= ? ?]. contradiction.
    + auto.
  - unfold Inv. cbn [length]. repeat split; auto. intros a Ha. lia.
  - exists T'. split; [exact Hrun |].
    rewrite length_enumerate in Hrows. auto.
Qed.

Lemma length__S : length (_S size) = Z.to_nat size * Z.to_nat size.
Proof.
  unfold _S. rewrite (@length_flat_map_const _ _ _ (Z.to_nat size)).
  - now rewrite length_py_range.
  - intros y. now rewrite length_map, length_py_range.
Qed.

Lemma build_transition_tensor_spec :
  exists T,
    build_transition_tensor size edge_mode wind = inr T /\
    t_states T = length (_S size) /\ t_actions T = length _A /\
    (forall s a, s < t_states T -> a < t_actions T ->
                 (row_sum T s a == 1)%Q) /\
    (wind_ok -> nonnegative T).
Proof.
  unfold build_transition_tensor.
  set (n := length (_S size)).
  assert (Hn : Z.of_nat n = (size * size)%Z).
  { unfold n. rewrite length__S. lia. }
  pose (Inv := fun (done : list (nat * (Z * Z))) (T : tensor) =>
                 t_states T = n /\ t_actions T = length _A /\
                 (forall s a, s < length done -> a < length _A ->
                              (row_sum T s a == 1)%Q) /\
                 (forall s, length done <= s ->
                            forall a s', t_at T s a s' = 0%Q) /\
                 (wind_ok -> nonnegative T)).
  match goal with
  | |- exists T, for_loop ?body ?items ?s0 = inr T /\ _ =>
      destruct (@for_loop_prefix_returns _ _ body Inv items) with (s := s0)
        as (T & Hrun & Hs & Ha & Hrows & _ & Hnn)
  end.
  - intros done [si [x y]] rest T1 Hsplit (Hs1 & Ha1 & Hrows1 & Hzero1 & Hnn1).
    apply enumerate_split_index in Hsplit. destruct Hsplit as (-> & _).
    destruct (@state_rows_bumped T1 (length done) x y)
      as (T2 & Hrun2 & Hs2 & Ha2 & Hr2 & Ho2 & Hnn2); [congruence |].
    exists T2. split; [exact Hrun2 |].
    unfold Inv. rewrite length_app. cbn [length].
    split; [congruence |]. split; [congruence |]. split; [| split].
    + intros s a Hlt Ha.
      destruct (Nat.eq_dec s (length done)) as [-> | Hne].
      * rewrite (Hr2 a Ha). unfold row_sum.
        rewrite sum_Q_zeros by (intros; apply Hzero1; lia). ring.
      * assert (Heq : row_sum T2 s a = row_sum T1 s a).
        { unfold row_sum. rewrite Hs2. apply sum_Q_untouched.
          intros i _. now apply Ho2. }
        rewrite Heq. apply Hrows1; [lia | exact Ha].
    + intros s Hle a s'. rewrite Ho2 by lia. apply Hzero1. lia.
    + auto.
  - unfold Inv. cbn [length t_states t_actions t_at].
    repeat split; auto; try (intros; lia).
    intros _ s a s'. apply Qle_refl.
  - exists T. split; [exact Hrun |].
    rewrite length_enumerate in Hrows. fold n in Hrows.
    repeat split; auto. intros s a Hlt Ha'. apply Hrows; congruence.
Qed.

End TransitionTensor.

(** ** What the constructor returns *)

Lemma map_result_total {A B : Type} (f : A -> result B) (g : A -> B) l :
  (forall a, f a = inr (g a)) -> map_result f l = inr (map g l).
Proof.
  intros Hf. induction l as [| a l IH]; simpl; [reflexivity |].
  now rewrite Hf, IH.
Qed.

Lemma map_result_Forall {A B : Type} (f : A -> result B) (P : B -> Prop) l :
  (forall a, exists b, f a = inr b /\ P b) ->
  exists bs, map_result f l = inr bs /\ Forall P bs /\ length bs = length l.
Proof.
  intros Hf. induction l as [| a l IH]; simpl.
  - exists []. repeat split; constructor.
  - destruct (Hf a) as (b & Hb & HP). destruct IH as (bs & Hbs & Hall & Hlen).
    rewrite Hb, Hbs. exists (b :: bs). simpl.
    repeat split; [now constructor | now rewrite Hlen].
Qed.

Section Constructor.

Import GridWorldDiscEnv.

Variable size : Z.
Variable wind : Q.
Variable edge_mode : Z.
Variable initial_state : Z * Z.
Variable goal_states : list (Z * Z).
Variables per_step_reward goal_reward : Q.

Hypothesis size_positive : (0 < size)%Z.

Lemma __init___returns :
  edge_mode = EDGEMODE_CLAMP \/ edge_mode = EDGEMODE_WRAP ->
  exists self,
    __init__ size wind edge_mode initial_state goal_states
      per_step_reward goal_reward = inr self.
Proof.
  intros Hmode. unfold __init__.
  assert (Hassert : ((edge_mode =? EDGEMODE_WRAP)
                     || (edge_mode =? EDGEMODE_CLAMP))%Z = true).
  { destruct Hmode as [-> | ->]; reflexivity. }
  rewrite Hassert. cbn [negb].
  destruct (@build_transition_tensor_spec size edge_mode wind size_positive)
    as (T & HT & _).
  rewrite HT. cbn [bind].
  destruct (@_xy2s_in_range size edge_mode size_positive
              (fst initial_state) (snd initial_state)) as (s0 & Hs0 & _).
  rewrite Hs0. cbn [bind].
  destruct (@map_result_Forall _ _
              (fun s => _xy2s size edge_mode (fst s) (snd s))
              (fun _ => True) goal_states) as (goals & Hgoals & _).
  { intros g.
    destruct (@_xy2s_in_range size edge_mode size_positive (fst g) (snd g))
      as (s & Hs & _). eauto. }
  rewrite Hgoals. cbn [bind ret]. eauto.
Qed.

Lemma __init___inr self :
  __init__ size wind edge_mode initial_state goal_states
    per_step_reward goal_reward = inr self ->
  _size self = size /\ _edge_mode self = edge_mode /\ _wind self = wind /\
  (edge_mode = EDGEMODE_CLAMP \/ edge_mode = EDGEMODE_WRAP) /\
  build_transition_tensor size edge_mode wind = inr (transition_tensor self) /\
  state self = _initial_state self /\
  (0 <= _initial_state self < size * size)%Z /\
  Forall (fun g => (0 <= g < size * size)%Z) (_goal_states self) /\
  length (_goal_states self) = length goal_states /\
  ground_truth_reward self =
  map (fun s => if existsb (Z.eqb s) (_goal_states self)
                then (per_step_reward + goal_reward)%Q
                else per_step_reward)
      (py_range (Z.of_nat (length (_S size)))).
Proof.
  unfold __init__. intros Hrun.
  destruct (Z.eqb_spec edge_mode EDGEMODE_WRAP) as [Hw | Hw];
    destruct (Z.eqb_spec edge_mode EDGEMODE_CLAMP) as [Hc | Hc];
    cbn [orb negb] in Hrun; try discriminate;
    (assert (Hmode : edge_mode = EDGEMODE_CLAMP \/ edge_mode = EDGEMODE_WRAP)
       by auto);
    bind_inv Hrun as T HT; bind_inv Hrun as s0 Hs0;
    bind_inv Hrun as goals Hgoals; injection Hrun as <-; cbn;
    (destruct (@_xy2s_in_range size edge_mode size_positive
                 (fst initial_state) (snd initial_state))
       as (s0' & Hs0' & Hr0));
    rewrite Hs0 in Hs0'; injection Hs0' as <-;
    (destruct (@map_result_Forall _ _
                 (fun s => _xy2s size edge_mode (fst s) (snd s))
                 (fun g => (0 <= g < size * size)%Z) goal_states)
       as (goals' & Hgoals' & Hall & Hlen);
     [intros g; apply (@_xy2s_in_range size edge_mode size_positive)
     | rewrite Hgoals in Hgoals'; injection Hgoals' as <-;
       repeat split; auto; lia]).
Qed.

End Constructor.

(** X14.  In either edge mode the constructor of a gridworld of positive size
    returns, and every row [T[s, a, :]] of its transition tensor, of shape
    size^2 x 5 x size^2, sums to 1; the entries are not negative when the
    wind is a probability. *)
Theorem gridworld_transition_rows_are_distributions
    (size : Z) (wind : Q) (edge_mode : Z) (initial_state : Z * Z)
    (goal_states : list (Z * Z)) (per_step_reward goal_reward : Q) :
  (0 < size)%Z ->
  edge_mode = GridWorldDiscEnv.EDGEMODE_CLAMP \/
  edge_mode = GridWorldDiscEnv.EDGEMODE_WRAP ->
  exists self,
    GridWorldDiscEnv.__init__ size wind edge_mode initial_state goal_states
      per_step_reward goal_reward = inr self /\
    t_states (GridWorldDiscEnv.transition_tensor self)
    = Z.to_nat size * Z.to_nat size /\
    t_actions (GridWorldDiscEnv.transition_tensor self) = 5 /\
    (forall s a,
       s < Z.to_nat size * Z.to_nat size -> a < 5 ->
       (row_sum (GridWorldDiscEnv.transition_tensor self) s a == 1)%Q) /\
    ((0 <= wind <= 1)%Q ->
     nonnegative (GridWorldDiscEnv.transition_tensor self)).
Proof.
  intros Hsize Hmode.
  destruct (@__init___returns size wind edge_mode initial_state goal_states
              per_step_reward goal_reward Hsize Hmode) as (self & Hself).
  exists self. split; [exact Hself |].
  apply __init___inr in Hself; [| exact Hsize].
  destruct Hself as (_ & _ & _ & _ & HT & _).
  destruct (@build_transition_tensor_spec size edge_mode wind Hsize)
    as (T & HT' & Hs & Ha & Hrows & Hnn).
  rewrite HT in HT'. injection HT' as <-.
  rewrite length__S in Hs. rewrite Hs, Ha in Hrows.
  repeat split; auto.
Qed.

(** ** The expert policy of the gridworld *)

Section NearestGoal.

Import GridWorldDiscEnv.

Variable xy : Z * Z.

Let d2 (g : Z * Z) : Z := squared_distance g xy.

Let step :=
  fun '(smallest_distance, nearest_goal) (g : Z * Z) =>
    let distance := squared_distance g xy in
    if match smallest_distance with
       | None => true
       | Some smallest => (distance <? smallest)%Z
       end
    then (Some distance, Some g)
    else (smallest_distance : option Z, nearest_goal : option (Z * Z)).

Lemma search_from_candidate goals : forall g,
  exists g',
    fold_left step goals (Some (d2 g), Some g) = (Some (d2 g'), Some g') /\
    (g' = g \/ In g' goals) /\ (d2 g' <= d2 g)%Z /\
    (forall h, In h goals -> (d2 g' <= d2 h)%Z).
Proof.
  induction goals as [| h goals IH]; intros g; simpl.
  - exists g. split; [reflexivity |]. split; [now left |].
    split; [lia | intros h []].
  - fold (d2 h). destruct (Z.ltb_spec (d2 h) (d2 g)) as [Hlt | Hge].
    + destruct (IH h) as (g' & Hrun & Hin & Hle & Hall).
      exists g'. split; [exact Hrun |].
      split; [destruct Hin as [-> | Hin]; right; [now left | now right] |].
      split; [lia |]. intros h' [<- | Hh']; [lia | auto].
    + destruct (IH g) as (g' & Hrun & Hin & Hle & Hall).
      exists g'. split; [exact Hrun |].
      split; [destruct Hin as [-> | Hin]; [now left | right; now right] |].
      split; [lia |]. intros h' [<- | Hh']; [lia | auto].
Qed.

Lemma pick_nearest_goal_spec goals :
  goals <> [] ->
  exists g,
    pick_nearest_goal goals xy = Some g /\ In g goals /\
    (forall h, In h goals -> (d2 g <= d2 h)%Z).
Proof.
  intros Hne. destruct goals as [| g0 [| g1 rest]]; [contradiction | |].
  - exists g0. simpl. split; [reflexivity |]. split; [now left |].
    intros h [<- | []]. lia.
  - unfold pick_nearest_goal.
    change (fold_left _ (g0 :: g1 :: rest) (None, None))
      with (fold_left step (g1 :: rest) (Some (d2 g0), Some g0)).
    destruct (search_from_candidate (g1 :: rest) g0)
      as (g' & Hrun & Hin & Hle & Hall).
    rewrite Hrun. exists g'. split; [reflexivity |].
    split; [destruct Hin as [-> | Hin]; [now left | now right] |].
    intros h [<- | Hh]; [exact Hle | now apply Hall].
Qed.

End NearestGoal.

Lemma flat_map_nth_seq {A B : Type} (f : A -> list B) (d : A) (l : list A) :
  flat_map (fun i => f (nth i l d)) (seq 0 (length l)) = flat_map f l.
Proof.
  induction l as [| a l IH]; simpl; [reflexivity |].
  f_equal. rewrite <- seq_shift, flat_map_concat_map, map_map.
  rewrite <- flat_map_concat_map. exact IH.
Qed.

Section ExpertPolicy.

Import GridWorldDiscEnv.

Variable self : t.

Hypothesis size_positive : (0 < _size self)%Z.

Let size := _size self.

Lemma collect_goals_spec :
  collect_goals self =
  inr (map (cell_of size) (_goal_states self) ++
       if (_edge_mode self =? EDGEMODE_WRAP)%Z
       then flat_map (fun g => virtual_goals size (cell_of size g))
                     (_goal_states self)
       else []).
Proof.
  unfold collect_goals. fold size.
  rewrite (@map_result_total _ _ (_s2xy size) (cell_of size))
    by (intros s; now apply _s2xy_eq).
  cbn [bind].
  destruct (_edge_mode self =? EDGEMODE_WRAP)%Z;
    [| now rewrite app_nil_r].
  pose (Inv := fun (done : list nat) (goals : list (Z * Z)) =>
                 goals =
                 map (cell_of size) (_goal_states self) ++
                 flat_map (fun i => virtual_goals size
                                      (cell_of size
                                         (nth i (_goal_states self) 0%Z)))
                          done).
  match goal with
  | |- for_loop ?body ?items ?s0 = _ =>
      destruct (@for_loop_returns _ _ body Inv items) with
        (done := @nil nat) (s := s0) as (out & Hout & Hinv)
  end.
  - intros i done goals _ ->.
    rewrite _s2xy_eq by exact size_positive. cbn [bind ret].
    eexists. split; [reflexivity |].
    unfold Inv. rewrite flat_map_app. cbn [flat_map].
    now rewrite app_nil_r, app_assoc.
  - unfold Inv. simpl. now rewrite app_nil_r.
  - rewrite Hout. unfold Inv in Hinv. simpl app in Hinv. rewrite Hinv.
    now rewrite (flat_map_nth_seq
                   (fun g => virtual_goals size (cell_of size g))).
Qed.

Lemma squared_distance_zero g xy :
  (squared_distance g xy <= 0)%Z -> g = xy.
Proof.
  unfold squared_distance. destruct g as [gx gy], xy as [x y]. simpl.
  intros H.
  pose proof (Z.square_nonneg (gx - x)) as Hsx.
  pose proof (Z.square_nonneg (gy - y)) as Hsy.
  assert (Hx : ((gx - x) * (gx - x) = 0)%Z) by lia.
  assert (Hy : ((gy - y) * (gy - y) = 0)%Z) by lia.
  apply Z.mul_eq_0 in Hx, Hy. f_equal; lia.
Qed.

Lemma squared_distance_self xy : squared_distance xy xy = 0%Z.
Proof. unfold squared_distance. lia. Qed.

(** A shifted copy of a cell of the grid lies outside the grid. *)
Lemma virtual_goal_outside g c :
  (0 <= fst g < size)%Z -> (0 <= snd g < size)%Z ->
  In c (virtual_goals size g) ->
  ~ ((0 <= fst c < size)%Z /\ (0 <= snd c < size)%Z).
Proof.
  intros Hx Hy Hin. unfold virtual_goals in Hin. simpl in Hin.
  destruct Hin as [<- | [<- | [<- | [<- | [<- | [<- | []]]]]]];
    simpl; lia.
Qed.

Lemma cell_of_in_grid s :
  (0 <= s < size * size)%Z ->
  (0 <= fst (cell_of size s) < size)%Z /\
  (0 <= snd (cell_of size s) < size)%Z /\
  (snd (cell_of size s) * size + fst (cell_of size s) = s)%Z.
Proof.
  intros Hs. unfold cell_of. simpl. now apply _s2xy_in_grid.
Qed.

Lemma cell_of_injective s s' :
  (0 <= s < size * size)%Z -> (0 <= s' < size * size)%Z ->
  cell_of size s = cell_of size s' -> s = s'.
Proof.
  intros Hs Hs' Heq.
  destruct (cell_of_in_grid Hs) as (_ & _ & <-).
  destruct (cell_of_in_grid Hs') as (_ & _ & <-).
  now rewrite Heq.
Qed.

Hypothesis goals_in_range :
  Forall (fun g => (0 <= g < size * size)%Z) (_goal_states self).

(** What the search of the policy finds at a state of the grid. *)
Lemma policy_nearest goals state :
  collect_goals self = inr goals ->
  _goal_states self <> [] ->
  (0 <= state < size * size)%Z ->
  exists g,
    pick_nearest_goal goals (cell_of size state) = Some g /\
    In g goals /\
    (forall h, In h goals ->
       (squared_distance g (cell_of size state)
        <= squared_distance h (cell_of size state))%Z) /\
    (g = cell_of size state <-> In state (_goal_states self)).
Proof.
  intros Hgoals Hne Hstate.
  rewrite collect_goals_spec in Hgoals. injection Hgoals as Hgoals.
  assert (Hreal : forall s, In s (_goal_states self) ->
                            In (cell_of size s) goals).
  { intros s Hs. rewrite <- Hgoals. apply in_or_app. left.
    now apply in_map. }
  assert (Hnonempty : goals <> []).
  { destruct (_goal_states self) as [| g0 gs]; [contradiction |].
    intros ->. apply (Hreal g0). now left. }
  destruct (@pick_nearest_goal_spec (cell_of size state) goals Hnonempty)
    as (g & Hpick & Hin & Hmin).
  exists g. split; [exact Hpick |]. split; [exact Hin |].
  split; [exact Hmin |]. split.
  - intros ->. rewrite <- Hgoals in Hin. apply in_app_or in Hin.
    destruct (cell_of_in_grid Hstate) as (Hx & Hy & _).
    destruct Hin as [Hin | Hin].
    + apply in_map_iff in Hin. destruct Hin as (s & Heq & Hs).
      rewrite Forall_forall in goals_in_range.
      apply cell_of_injective in Heq; [now subst | now apply goals_in_range
                                       | exact Hstate].
    + destruct (_edge_mode self =? EDGEMODE_WRAP)%Z; [| contradiction].
      apply in_flat_map in Hin. destruct Hin as (s & Hs & Hin).
      rewrite Forall_forall in goals_in_range.
      destruct (cell_of_in_grid (goals_in_range s Hs)) as (Hsx & Hsy & _).
      exfalso. apply (virtual_goal_outside Hsx Hsy Hin). split; assumption.
  - intros Hs. apply squared_distance_zero.
    rewrite <- (squared_distance_self (cell_of size state)).
    apply Hmin. now apply Hreal.
Qed.

End ExpertPolicy.

Lemma cell_eq_dec (p q : Z * Z) : {p = q} + {p <> q}.
Proof. decide equality; apply Z.eq_dec. Qed.

Section ExpertMoves.

Import GridWorldDiscEnv.

Variable self : t.

Hypothesis size_positive : (0 < _size self)%Z.

Let size := _size self.

(** Away from the goal it has picked, the policy steps along the axis of the
    larger distance, towards the goal, whatever the coin. *)
Lemma policy_moves goals state g :
  pick_nearest_goal goals (cell_of size state) = Some g ->
  g <> cell_of size state ->
  exists a dx dy,
    (forall coin, policy self goals state coin = inr a) /\
    (0 <= a < 4)%Z /\
    nth_error _A (Z.to_nat a) = Some (dx, dy) /\
    (Z.abs (fst g - fst (cell_of size state))
     = Z.abs (snd g - snd (cell_of size state)) ->
     a = if (snd g - snd (cell_of size state) >? 0)%Z
         then ACTION_NORTH else ACTION_SOUTH) /\
    (manhattan (fst (cell_of size state) + dx, snd (cell_of size state) + dy)
               g
     = manhattan (cell_of size state) g - 1)%Z /\
    (Z.min (fst (cell_of size state)) (fst g)
     <= fst (cell_of size state) + dx
     <= Z.max (fst (cell_of size state)) (fst g))%Z /\
    (Z.min (snd (cell_of size state)) (snd g)
     <= snd (cell_of size state) + dy
     <= Z.max (snd (cell_of size state)) (snd g))%Z.
Proof.
  intros Hpick Hne. unfold policy. fold size.
  rewrite _s2xy_eq by exact size_positive. cbn [bind].
  fold (cell_of size state). rewrite Hpick.
  destruct g as [gx gy]. destruct (cell_of size state) as [x y] eqn:Hxy.
  cbn [fst snd]. cbv zeta.
  assert (Hfar : (gx - x <> 0 \/ gy - y <> 0)%Z).
  { destruct (Z.eq_dec gx x) as [-> | Hx]; [| left; lia].
    destruct (Z.eq_dec gy y) as [-> | Hy]; [contradiction | right; lia]. }
  assert (Hnot : ((gx - x =? gy - y) && (gy - y =? 0))%Z = false).
  { destruct (Z.eqb_spec (gx - x) (gy - y)); [| reflexivity].
    destruct (Z.eqb_spec (gy - y) 0); [lia | reflexivity]. }
  rewrite Hnot. unfold manhattan. cbn [fst snd].
  rewrite !Z.gtb_ltb.
  destruct (Z.ltb_spec (Z.abs (gy - y)) (Z.abs (gx - x))) as [Hh | Hv].
  - destruct (Z.ltb_spec 0 (gx - x)) as [Hpos | Hneg].
    + exists ACTION_EAST, 1%Z, 0%Z.
      split; [reflexivity |]. split; [unfold ACTION_EAST; lia |].
      split; [reflexivity |]. split; [lia |]. lia.
    + exists ACTION_WEST, (-1)%Z, 0%Z.
      split; [reflexivity |]. split; [unfold ACTION_WEST; lia |].
      split; [reflexivity |]. split; [lia |]. lia.
  - destruct (Z.ltb_spec 0 (gy - y)) as [Hpos | Hneg].
    + exists ACTION_NORTH, 0%Z, 1%Z.
      split; [reflexivity |]. split; [unfold ACTION_NORTH; lia |].
      split; [reflexivity |]. split; [reflexivity |]. lia.
    + exists ACTION_SOUTH, 0%Z, (-1)%Z.
      split; [reflexivity |]. split; [unfold ACTION_SOUTH; lia |].
      split; [reflexivity |]. split; [reflexivity |]. lia.
Qed.

Lemma policy_rests goals state :
  pick_nearest_goal goals (cell_of size state) = Some (cell_of size state) ->
  forall coin, policy self goals state coin = inr ACTION_NOTHING.
Proof.
  intros Hpick coin. unfold policy. fold size.
  rewrite _s2xy_eq by exact size_positive. cbn [bind].
  fold (cell_of size state). rewrite Hpick.
  rewrite !Z.sub_diag. reflexivity.
Qed.

End ExpertMoves.

(** X15.  The expert policy of a gridworld of positive size with at least
    one goal is defined on every state of the grid, does not depend on the
    coin it may flip, and answers ACTION_NOTHING exactly on the goal
    states. *)
Theorem expert_policy_rests_exactly_at_goals
    (size : Z) (wind : Q) (edge_mode : Z) (initial_state : Z * Z)
    (goal_states : list (Z * Z)) (per_step_reward goal_reward : Q) :
  (0 < size)%Z ->
  edge_mode = GridWorldDiscEnv.EDGEMODE_CLAMP \/
  edge_mode = GridWorldDiscEnv.EDGEMODE_WRAP ->
  goal_states <> [] ->
  exists self pol,
    GridWorldDiscEnv.__init__ size wind edge_mode initial_state goal_states
      per_step_reward goal_reward = inr self /\
    GridWorldDiscEnv.get_optimal_policy self = inr pol /\
    forall state, (0 <= state < size * size)%Z ->
      exists a,
        (forall coin, pol state coin = inr a) /\
        (0 <= a <= 4)%Z /\
        (a = GridWorldDiscEnv.ACTION_NOTHING <->
         In state (GridWorldDiscEnv._goal_states self)).
Proof.
  intros Hsize Hmode Hne.
  destruct (@__init___returns size wind edge_mode initial_state goal_states
              per_step_reward goal_reward Hsize Hmode) as (self & Hself).
  exists self. pose proof Hself as Hinit.
  apply __init___inr in Hinit; [| exact Hsize].
  destruct Hinit as (Hs & _ & _ & _ & _ & _ & _ & Hgoals & Hlen & _).
  assert (Hpos : (0 < GridWorldDiscEnv._size self)%Z) by now rewrite Hs.
  assert (Hne' : GridWorldDiscEnv._goal_states self <> []).
  { intros Heq. rewrite Heq in Hlen. destruct goal_states;
      [contradiction | discriminate]. }
  unfold GridWorldDiscEnv.get_optimal_policy.
  pose proof (@collect_goals_spec self Hpos) as Hcollect.
  rewrite Hcollect. cbn [bind ret].
  eexists. split; [exact Hself |]. split; [reflexivity |].
  intros state Hstate. rewrite <- Hs in Hstate, Hgoals.
  destruct (@policy_nearest self Hpos Hgoals _ state Hcollect Hne' Hstate)
    as (g & Hpick & _ & _ & Hiff).
  destruct (cell_eq_dec g (cell_of (GridWorldDiscEnv._size self) state))
    as [Heq | Hneq].
  - subst g. exists GridWorldDiscEnv.ACTION_NOTHING.
    split; [now apply policy_rests |].
    split; [unfold GridWorldDiscEnv.ACTION_NOTHING; lia |].
    split; [intros _; now apply Hiff | reflexivity].
  - destruct (@policy_moves self Hpos _ state g Hpick Hneq)
      as (a & dx & dy & Hrun & Ha & _).
    exists a. split; [exact Hrun |]. split; [lia |]. split.
    + unfold GridWorldDiscEnv.ACTION_NOTHING. lia.
    + intros Hin. apply Hiff in Hin. contradiction.
Qed.

Lemma expert_policy_on_grid2 :
  exists self pol,
    GridWorldDiscEnv.__init__ 2 (3 # 10) GridWorldDiscEnv.EDGEMODE_CLAMP
      (0, 0)%Z [(1, 1)%Z] 0 1 = inr self /\
    GridWorldDiscEnv.get_optimal_policy self = inr pol /\
    forall state, (0 <= state < 2 * 2)%Z ->
      exists a,
        (forall coin, pol state coin = inr a) /\
        (0 <= a <= 4)%Z /\
        (a = GridWorldDiscEnv.ACTION_NOTHING <->
         In state (GridWorldDiscEnv._goal_states self)).
Proof.
  apply (@expert_policy_rests_exactly_at_goals 2 (3 # 10)
           GridWorldDiscEnv.EDGEMODE_CLAMP (0, 0)%Z [(1, 1)%Z] 0 1).
  - reflexivity.
  - left. reflexivity.
  - discriminate.
Defined.

(** X16.  In a clamped gridworld the expert policy, at a state that is not a
    goal, picks a goal state nearest to it and steps one cell towards it:
    the cell it steps to lies in the grid, and its Manhattan distance to
    that goal is one less. *)
Theorem expert_policy_steps_towards_nearest_goal
    (size : Z) (wind : Q) (initial_state : Z * Z)
    (goal_states : list (Z * Z)) (per_step_reward goal_reward : Q) :
  (0 < size)%Z -> goal_states <> [] ->
  exists self pol,
    GridWorldDiscEnv.__init__ size wind GridWorldDiscEnv.EDGEMODE_CLAMP
      initial_state goal_states per_step_reward goal_reward = inr self /\
    GridWorldDiscEnv.get_optimal_policy self = inr pol /\
    forall state,
      (0 <= state < size * size)%Z ->
      ~ In state (GridWorldDiscEnv._goal_states self) ->
      exists a dx dy g,
        (forall coin, pol state coin = inr a) /\
        nth_error GridWorldDiscEnv._A (Z.to_nat a) = Some (dx, dy) /\
        In g (GridWorldDiscEnv._goal_states self) /\
        (forall h, In h (GridWorldDiscEnv._goal_states self) ->
           (GridWorldDiscEnv.squared_distance (cell_of size g)
              (cell_of size state)
            <= GridWorldDiscEnv.squared_distance (cell_of size h)
                 (cell_of size state))%Z) /\
        (0 <= fst (cell_of size state) + dx < size)%Z /\
        (0 <= snd (cell_of size state) + dy < size)%Z /\
        (GridWorldDiscEnv.manhattan
           (fst (cell_of size state) + dx, snd (cell_of size state) + dy)
           (cell_of size g)
         = GridWorldDiscEnv.manhattan (cell_of size state) (cell_of size g)
           - 1)%Z.
Proof.
  intros Hsize Hne.
  destruct (@__init___returns size wind GridWorldDiscEnv.EDGEMODE_CLAMP
              initial_state goal_states per_step_reward goal_reward Hsize
              (or_introl eq_refl)) as (self & Hself).
  exists self. pose proof Hself as Hinit.
  apply __init___inr in Hinit; [| exact Hsize].
  destruct Hinit as (Hs & Hmode & _ & _ & _ & _ & _ & Hgoals & Hlen & _).
  assert (Hpos : (0 < GridWorldDiscEnv._size self)%Z) by now rewrite Hs.
  assert (Hne' : GridWorldDiscEnv._goal_states self <> []).
  { intros Heq. rewrite Heq in Hlen. destruct goal_states;
      [contradiction | discriminate]. }
  unfold GridWorldDiscEnv.get_optimal_policy.
  pose proof (@collect_goals_spec self Hpos) as Hcollect.
  rewrite Hcollect. cbn [bind ret].
  eexists. split; [exact Hself |]. split; [reflexivity |].
  intros state Hstate Hnotgoal. rewrite <- Hs in Hstate, Hgoals |- *.
  destruct (@policy_nearest self Hpos Hgoals _ state Hcollect Hne' Hstate)
    as (g & Hpick & Hin & Hmin & Hiff).
  assert (Hneq : g <> cell_of (GridWorldDiscEnv._size self) state).
  { intros Heq. apply Hnotgoal. now apply Hiff. }
  destruct (@policy_moves self Hpos _ state g Hpick Hneq)
    as (a & dx & dy & Hrun & Ha & Hnth & _ & Hman & Hx & Hy).
  rewrite Hmode in Hin, Hmin. cbn [Z.eqb GridWorldDiscEnv.EDGEMODE_CLAMP
    GridWorldDiscEnv.EDGEMODE_WRAP] in Hin, Hmin.
  rewrite app_nil_r in Hin, Hmin.
  apply in_map_iff in Hin. destruct Hin as (gs & <- & Hgs).
  rewrite Forall_forall in Hgoals.
  destruct (@cell_of_in_grid self Hpos gs (Hgoals gs Hgs)) as (Hgx & Hgy & _).
  destruct (@cell_of_in_grid self Hpos state Hstate) as (Hsx & Hsy & _).
  exists a, dx, dy, gs. split; [exact Hrun |]. split; [exact Hnth |].
  split; [exact Hgs |]. split.
  { intros h Hh. apply Hmin. now apply in_map. }
  split; [lia |]. split; [lia |]. exact Hman.
Qed.

Lemma expert_policy_steps_on_grid2 :
  exists self pol,
    GridWorldDiscEnv.__init__ 2 (3 # 10) GridWorldDiscEnv.EDGEMODE_CLAMP
      (0, 0)%Z [(1, 1)%Z] 0 1 = inr self /\
    GridWorldDiscEnv.get_optimal_policy self = inr pol /\
    forall state,
      (0 <= state < 2 * 2)%Z ->
      ~ In state (GridWorldDiscEnv._goal_states self) ->
      exists a dx dy g,
        (forall coin, pol state coin = inr a) /\
        nth_error GridWorldDiscEnv._A (Z.to_nat a) = Some (dx, dy) /\
        In g (GridWorldDiscEnv._goal_states self) /\
        (forall h, In h (GridWorldDiscEnv._goal_states self) ->
           (GridWorldDiscEnv.squared_distance (cell_of 2 g) (cell_of 2 state)
            <= GridWorldDiscEnv.squared_distance (cell_of 2 h)
                 (cell_of 2 state))%Z) /\
        (0 <= fst (cell_of 2 state) + dx < 2)%Z /\
        (0 <= snd (cell_of 2 state) + dy < 2)%Z /\
        (GridWorldDiscEnv.manhattan
           (fst (cell_of 2 state) + dx, snd (cell_of 2 state) + dy)
           (cell_of 2 g)
         = GridWorldDiscEnv.manhattan (cell_of 2 state) (cell_of 2 g) - 1)%Z.
Proof.
  apply (@expert_policy_steps_towards_nearest_goal 2 (3 # 10) (0, 0)%Z
           [(1, 1)%Z] 0 1).
  - reflexivity.
  - discriminate.
Defined.

(** X17.  The coin of the expert policy decides nothing.  When the goal the
    policy has picked is as far away horizontally as vertically, the policy
    steps vertically (north if the goal lies above, south otherwise),
    whatever value the coin shows: the direction the coin chose is
    overwritten by the comparison that follows it. *)
Theorem expert_policy_breaks_ties_vertically
    (self : GridWorldDiscEnv.t) (goals : list (Z * Z)) (state : Z)
    (g : Z * Z) (coin : Q) :
  (0 < GridWorldDiscEnv._size self)%Z ->
  GridWorldDiscEnv.pick_nearest_goal goals
    (cell_of (GridWorldDiscEnv._size self) state) = Some g ->
  g <> cell_of (GridWorldDiscEnv._size self) state ->
  Z.abs (fst g - fst (cell_of (GridWorldDiscEnv._size self) state))
  = Z.abs (snd g - snd (cell_of (GridWorldDiscEnv._size self) state)) ->
  GridWorldDiscEnv.policy self goals state coin
  = inr (if (snd g - snd (cell_of (GridWorldDiscEnv._size self) state) >? 0)%Z
         then GridWorldDiscEnv.ACTION_NORTH
         else GridWorldDiscEnv.ACTION_SOUTH).
Proof.
  intros Hpos Hpick Hneq Htie.
  destruct (@policy_moves self Hpos goals state g Hpick Hneq)
    as (a & dx & dy & Hrun & _ & _ & Ha & _).
  rewrite Hrun. now rewrite (Ha Htie).
Qed.

Lemma tie_on_the_diagonal_goes_north :
  GridWorldDiscEnv.policy corner_goal_env [(1, 1)%Z] 0 1
  = inr GridWorldDiscEnv.ACTION_NORTH /\
  Qgt_bool 1 (1 # 2) = true.
Proof.
  split; [| reflexivity].
  apply (@expert_policy_breaks_ties_vertically corner_goal_env [(1, 1)%Z]
           0 (1, 1)%Z 1); try reflexivity.
  discriminate.
Defined.

(** ** The re-ordered transition tensor *)

Lemma move_expert_action_first_spec (T : tensor) (si : nat) (action : Z) :
  t_states (GridWorldDiscEnv.move_expert_action_first T si action)
  = t_states T /\
  t_actions (GridWorldDiscEnv.move_expert_action_first T si action)
  = t_actions T /\
  forall s a s',
    t_at (GridWorldDiscEnv.move_expert_action_first T si action) s a s'
    = if s =? si then t_at T s (slot_source action a) s' else t_at T s a s'.
Proof.
  unfold GridWorldDiscEnv.move_expert_action_first, slot_source.
  destruct (Z.eqb_spec action GridWorldDiscEnv.ACTION_NORTH) as [-> | Hn].
  { cbn. repeat split. intros s a s'. now destruct (s =? si). }
  destruct (Z.eqb_spec action GridWorldDiscEnv.ACTION_EAST) as [-> | He].
  { cbn. repeat split. intros s a s'.
    destruct (Nat.eqb_spec s si) as [-> | Hs]; [| reflexivity].
    destruct a as [| [| a]]; cbn; rewrite ?Nat.eqb_refl; reflexivity. }
  destruct (Z.eqb_spec action GridWorldDiscEnv.ACTION_SOUTH) as [-> | Hs].
  { cbn. repeat split. intros s a s'.
    destruct (Nat.eqb_spec s si) as [-> | Hne]; [| reflexivity].
    destruct a as [| [| a]]; cbn; rewrite ?Nat.eqb_refl; reflexivity. }
  destruct (Z.eqb_spec action GridWorldDiscEnv.ACTION_WEST) as [-> | Hw].
  { cbn. repeat split. intros s a s'.
    destruct (Nat.eqb_spec s si) as [-> | Hne]; [| reflexivity].
    destruct a as [| [| [| a]]]; cbn; rewrite ?Nat.eqb_refl; reflexivity. }
  repeat split. intros s a s'. now destruct (s =? si).
Qed.

Section OrderedTensor.

Import GridWorldDiscEnv.

Variable self : t.
Variable pi : Z -> result Z.

Let size := _size self.
Let T := transition_tensor self.

Hypothesis size_positive : (0 < size)%Z.
Hypothesis tensor_states : Z.of_nat (t_states T) = (size * size)%Z.
Hypothesis pi_total :
  forall s, (0 <= s < size * size)%Z -> exists a, pi s = inr a.

(** The states with index below [c] have been re-ordered, the others are
    as in the original tensor. *)
Let ordered_below (c : Z) (ts : tensor) : Prop :=
  t_states ts = t_states T /\ t_actions ts = t_actions T /\
  (forall s, (Z.of_nat s < c)%Z ->
     forall action, pi (Z.of_nat s) = inr action ->
       forall a s', t_at ts s a s' = t_at T s (slot_source action a) s') /\
  (forall s, (c <= Z.of_nat s)%Z ->
     forall a s', t_at ts s a s' = t_at T s a s').

Lemma ordered_row (y : Z) (ts : tensor) :
  (0 <= y < size)%Z ->
  ordered_below (y * size) ts ->
  exists ts',
    for_loop
      (fun x transitions_sorted =>
         s <- _xy2s size (_edge_mode self) x y ;;
         action <- pi s ;;
         si <- np_index (t_states transitions_sorted) s ;;
         ret (move_expert_action_first transitions_sorted si action))
      (py_range size) ts = inr ts' /\
    ordered_below ((y + 1) * size) ts'.
Proof.
  intros Hy Hts.
  pose (Inv := fun (done : list Z) (ts' : tensor) =>
                 ordered_below (y * size + Z.of_nat (length done)) ts').
  match goal with
  | |- exists ts', for_loop ?body ?items ?s0 = inr ts' /\ _ =>
      destruct (@for_loop_prefix_returns _ _ body Inv items) with (s := s0)
        as (ts' & Hrun & Hinv)
  end.
  - intros done x rest ts1 Hsplit (Hs1 & Ha1 & Hlow1 & Hhigh1).
    apply py_range_split_index in Hsplit. destruct Hsplit as (Hx & Hxr).
    rewrite (@_xy2s_in_grid size (_edge_mode self) size_positive x y Hxr Hy).
    cbn [bind].
    assert (Hrange : (0 <= y * size + x < size * size)%Z) by nia.
    destruct (pi_total Hrange) as (action & Hact).
    rewrite Hact. cbn [bind].
    rewrite np_index_in_range by (rewrite Hs1, tensor_states; exact Hrange).
    cbn [bind ret]. eexists. split; [reflexivity |].
    destruct (move_expert_action_first_spec ts1
                (Z.to_nat (y * size + x)) action) as (Hs2 & Ha2 & Hat2).
    unfold Inv, ordered_below. rewrite length_app. cbn [length].
    split; [congruence |]. split; [congruence |]. split.
    + intros s Hlt action' Hact' a s'. rewrite Hat2.
      destruct (Nat.eqb_spec s (Z.to_nat (y * size + x))) as [-> | Hne].
      * rewrite Z2Nat.id in Hact' by lia.
        rewrite Hact in Hact'. injection Hact' as <-.
        apply Hhigh1. lia.
      * apply Hlow1; [lia | exact Hact'].
    + intros s Hge a s'. rewrite Hat2.
      destruct (Nat.eqb_spec s (Z.to_nat (y * size + x))) as [-> | Hne];
        [lia |].
      apply Hhigh1. lia.
  - unfold Inv. cbn [length]. now rewrite Z.add_0_r.
  - exists ts'. split; [exact Hrun |].
    unfold Inv in Hinv. rewrite length_py_range in Hinv.
    replace ((y + 1) * size)%Z with (y * size + Z.of_nat (Z.to_nat size))%Z
      by lia.
    exact Hinv.
Qed.

Lemma get_ordered_transition_tensor_spec :
  exists ts,
    get_ordered_transition_tensor self pi = inr ts /\
    t_states ts = t_states T /\ t_actions ts = t_actions T /\
    forall s action,
      s < t_states T -> pi (Z.of_nat s) = inr action ->
      forall a s', t_at ts s a s' = t_at T s (slot_source action a) s'.
Proof.
  unfold get_ordered_transition_tensor. fold size T.
  pose (Inv := fun (done : list Z) (ts : tensor) =>
                 ordered_below (Z.of_nat (length done) * size) ts).
  match goal with
  | |- exists ts, for_loop ?body ?items ?s0 = inr ts /\ _ =>
      destruct (@for_loop_prefix_returns _ _ body Inv items) with (s := s0)
        as (ts & Hrun & Hs & Ha & Hlow & _)
  end.
  - intros done y rest ts1 Hsplit Hinv1.
    apply py_range_split_index in Hsplit. destruct Hsplit as (Hy & Hyr).
    unfold Inv in Hinv1. rewrite <- Hy in Hinv1.
    destruct (ordered_row Hyr Hinv1) as (ts2 & Hrun2 & Hinv2).
    exists ts2. split; [exact Hrun2 |].
    unfold Inv. rewrite length_app. cbn [length].
    replace (Z.of_nat (length done + 1)) with (y + 1)%Z by lia.
    exact Hinv2.
  - unfold Inv, ordered_below. cbn [length]. repeat split; auto.
    intros s Hlt. lia.
  - exists ts. split; [exact Hrun |]. split; [exact Hs |].
    split; [exact Ha |].
    intros s action Hlt Hact a s'. apply Hlow; [| exact Hact].
    rewrite length_py_range. lia.
Qed.

End OrderedTensor.

Lemma slot_source_in_range action a : a < 5 -> slot_source action a < 5.
Proof.
  intros Ha. unfold slot_source.
  destruct (action =? GridWorldDiscEnv.ACTION_EAST)%Z;
    [destruct a; lia |].
  destruct (action =? GridWorldDiscEnv.ACTION_SOUTH)%Z;
    [destruct a as [| [| a]]; lia |].
  destruct (action =? GridWorldDiscEnv.ACTION_WEST)%Z;
    [destruct a as [| [| [| a]]]; lia | exact Ha].
Qed.

(** What the constructor and the re-ordering return together. *)
Lemma ordered_tensor_of_built_world
    (size : Z) (wind : Q) (edge_mode : Z) (initial_state : Z * Z)
    (goal_states : list (Z * Z)) (per_step_reward goal_reward : Q)
    (pi : Z -> result Z) :
  (0 < size)%Z ->
  edge_mode = GridWorldDiscEnv.EDGEMODE_CLAMP \/
  edge_mode = GridWorldDiscEnv.EDGEMODE_WRAP ->
  (forall s, (0 <= s < size * size)%Z -> exists a, pi s = inr a) ->
  exists self ts,
    GridWorldDiscEnv.__init__ size wind edge_mode initial_state goal_states
      per_step_reward goal_reward = inr self /\
    GridWorldDiscEnv.get_ordered_transition_tensor self pi = inr ts /\
    t_states (GridWorldDiscEnv.transition_tensor self)
    = Z.to_nat size * Z.to_nat size /\
    t_actions (GridWorldDiscEnv.transition_tensor self) = 5 /\
    t_states ts = Z.to_nat size * Z.to_nat size /\ t_actions ts = 5 /\
    (forall s a, s < Z.to_nat size * Z.to_nat size -> a < 5 ->
       (row_sum (GridWorldDiscEnv.transition_tensor self) s a == 1)%Q) /\
    ((0 <= wind <= 1)%Q ->
     nonnegative (GridWorldDiscEnv.transition_tensor self)) /\
    forall s action,
      s < Z.to_nat size * Z.to_nat size -> pi (Z.of_nat s) = inr action ->
      forall a s',
        t_at ts s a s'
        = t_at (GridWorldDiscEnv.transition_tensor self) s
            (slot_source action a) s'.
Proof.
  intros Hsize Hmode Hpi.
  destruct (@__init___returns size wind edge_mode initial_state goal_states
              per_step_reward goal_reward Hsize Hmode) as (self & Hself).
  exists self. pose proof Hself as Hinit.
  apply __init___inr in Hinit; [| exact Hsize].
  destruct Hinit as (Hs & _ & _ & _ & HT & _).
  destruct (@build_transition_tensor_spec size edge_mode wind Hsize)
    as (T & HT' & HsT & HaT & Hrows & Hnn).
  rewrite HT in HT'. injection HT' as <-.
  rewrite length__S in HsT.
  destruct (@get_ordered_transition_tensor_spec self pi) as
    (ts & Hrun & Hsts & Hats & Hslots).
  - rewrite Hs. exact Hsize.
  - rewrite Hs, HsT. lia.
  - rewrite Hs. exact Hpi.
  - exists ts. rewrite Hsts, Hats, HsT, HaT in *.
    repeat split; auto.
Qed.

(** X18.  [get_ordered_transition_tensor] puts the expert's action first
    wherever the policy answers North, East, South or West: slot 0 of the
    tensor it returns holds, at such a state, the transition probabilities
    of the policy's action.  Where the policy answers ACTION_NOTHING, as the
    expert policy does on the goal states, nothing is moved and slot 0 holds
    those of North. *)
Theorem ordered_tensor_has_the_expert_action_first
    (size : Z) (wind : Q) (edge_mode : Z) (initial_state : Z * Z)
    (goal_states : list (Z * Z)) (per_step_reward goal_reward : Q)
    (pi : Z -> result Z) :
  (0 < size)%Z ->
  edge_mode = GridWorldDiscEnv.EDGEMODE_CLAMP \/
  edge_mode = GridWorldDiscEnv.EDGEMODE_WRAP ->
  (forall s, (0 <= s < size * size)%Z -> exists a, pi s = inr a) ->
  exists self ts,
    GridWorldDiscEnv.__init__ size wind edge_mode initial_state goal_states
      per_step_reward goal_reward = inr self /\
    GridWorldDiscEnv.get_ordered_transition_tensor self pi = inr ts /\
    forall s action,
      s < Z.to_nat size * Z.to_nat size -> pi (Z.of_nat s) = inr action ->
      ((0 <= action <= 3)%Z ->
       forall s', t_at ts s 0 s'
                  = t_at (GridWorldDiscEnv.transition_tensor self) s
                      (Z.to_nat action) s') /\
      (action = GridWorldDiscEnv.ACTION_NOTHING ->
       forall a s', t_at ts s a s'
                    = t_at (GridWorldDiscEnv.transition_tensor self) s a s').
Proof.
  intros Hsize Hmode Hpi.
  destruct (@ordered_tensor_of_built_world size wind edge_mode initial_state
              goal_states per_step_reward goal_reward pi Hsize Hmode Hpi)
    as (self & ts & Hself & Hts & _ & _ & _ & _ & _ & _ & Hslots).
  exists self, ts. split; [exact Hself |]. split; [exact Hts |].
  intros s action Hs Hact. split.
  - intros Hrange s'. rewrite (Hslots s action Hs Hact).
    assert (Hcases : (action = 0 \/ action = 1 \/ action = 2 \/ action = 3)%Z)
      by lia.
    destruct Hcases as [-> | [-> | [-> | ->]]]; reflexivity.
  - intros -> a s'. now rewrite (Hslots s _ Hs Hact).
Qed.

(** X19.  The rows that [get_ordered_transition_tensor] displaces are not
    kept.  It saves slot 0 in a view of the array and reads the view after
    it has overwritten slot 0, so at a state where the policy answers East,
    South or West, slot 1 holds the expert's row as well; the five slots
    hold the original rows E E S W -, S S S W - and W W E W - respectively
    (- the row of Nothing), and the row of North is in none of them. *)
Theorem ordered_tensor_repeats_the_expert_row
    (size : Z) (wind : Q) (edge_mode : Z) (initial_state : Z * Z)
    (goal_states : list (Z * Z)) (per_step_reward goal_reward : Q)
    (pi : Z -> result Z) :
  (0 < size)%Z ->
  edge_mode = GridWorldDiscEnv.EDGEMODE_CLAMP \/
  edge_mode = GridWorldDiscEnv.EDGEMODE_WRAP ->
  (forall s, (0 <= s < size * size)%Z -> exists a, pi s = inr a) ->
  exists self ts,
    GridWorldDiscEnv.__init__ size wind edge_mode initial_state goal_states
      per_step_reward goal_reward = inr self /\
    GridWorldDiscEnv.get_ordered_transition_tensor self pi = inr ts /\
    forall s action,
      s < Z.to_nat size * Z.to_nat size -> pi (Z.of_nat s) = inr action ->
      (forall a s',
         t_at ts s a s'
         = t_at (GridWorldDiscEnv.transition_tensor self) s
             (slot_source action a) s') /\
      ((1 <= action <= 3)%Z ->
       (forall s', t_at ts s 1 s' = t_at ts s 0 s') /\
       forall a, a < 5 -> slot_source action a <> 0).
Proof.
  intros Hsize Hmode Hpi.
  destruct (@ordered_tensor_of_built_world size wind edge_mode initial_state
              goal_states per_step_reward goal_reward pi Hsize Hmode Hpi)
    as (self & ts & Hself & Hts & _ & _ & _ & _ & _ & _ & Hslots).
  exists self, ts. split; [exact Hself |]. split; [exact Hts |].
  intros s action Hs Hact. split; [exact (Hslots s action Hs Hact) |].
  intros Hrange.
  assert (Hcases : (action = 1 \/ action = 2 \/ action = 3)%Z) by lia.
  split.
  - intros s'. rewrite !(Hslots s action Hs Hact).
    destruct Hcases as [-> | [-> | ->]]; reflexivity.
  - intros a Ha.
    destruct Hcases as [-> | [-> | ->]];
      destruct a as [| [| [| [| [| a]]]]]; cbn; lia.
Qed.

Lemma ordered_tensor_on_grid2_has_expert_first :
  exists self ts,
    GridWorldDiscEnv.__init__ 2 (3 # 10) GridWorldDiscEnv.EDGEMODE_WRAP
      (0, 0)%Z [(1, 1)%Z] 0 1 = inr self /\
    GridWorldDiscEnv.get_ordered_transition_tensor self always_east
    = inr ts /\
    forall s action,
      s < Z.to_nat 2 * Z.to_nat 2 -> always_east (Z.of_nat s) = inr action ->
      ((0 <= action <= 3)%Z ->
       forall s', t_at ts s 0 s'
                  = t_at (GridWorldDiscEnv.transition_tensor self) s
                      (Z.to_nat action) s') /\
      (action = GridWorldDiscEnv.ACTION_NOTHING ->
       forall a s', t_at ts s a s'
                    = t_at (GridWorldDiscEnv.transition_tensor self) s a s').
Proof.
  apply (@ordered_tensor_has_the_expert_action_first 2 (3 # 10)
           GridWorldDiscEnv.EDGEMODE_WRAP (0, 0)%Z [(1, 1)%Z] 0 1
           always_east).
  - reflexivity.
  - right. reflexivity.
  - intros s _. eexists. reflexivity.
Defined.

Lemma ordered_tensor_on_grid2_repeats_east :
  exists self ts,
    GridWorldDiscEnv.__init__ 2 (3 # 10) GridWorldDiscEnv.EDGEMODE_WRAP
      (0, 0)%Z [(1, 1)%Z] 0 1 = inr self /\
    GridWorldDiscEnv.get_ordered_transition_tensor self always_east
    = inr ts /\
    forall s action,
      s < Z.to_nat 2 * Z.to_nat 2 -> always_east (Z.of_nat s) = inr action ->
      (forall a s',
         t_at ts s a s'
         = t_at (GridWorldDiscEnv.transition_tensor self) s
             (slot_source action a) s') /\
      ((1 <= action <= 3)%Z ->
       (forall s', t_at ts s 1 s' = t_at ts s 0 s') /\
       forall a, a < 5 -> slot_source action a <> 0).
Proof.
  apply (@ordered_tensor_repeats_the_expert_row 2 (3 # 10)
           GridWorldDiscEnv.EDGEMODE_WRAP (0, 0)%Z [(1, 1)%Z] 0 1
           always_east).
  - reflexivity.
  - right. reflexivity.
  - intros s _. eexists. reflexivity.
Defined.

Lemma transition_rows_on_grid2 :
  exists self,
    GridWorldDiscEnv.__init__ 2 (3 # 10) GridWorldDiscEnv.EDGEMODE_WRAP
      (0, 0)%Z [(1, 1)%Z] 0 1 = inr self /\
    t_states (GridWorldDiscEnv.transition_tensor self)
    = Z.to_nat 2 * Z.to_nat 2 /\
    t_actions (GridWorldDiscEnv.transition_tensor self) = 5 /\
    (forall s a,
       s < Z.to_nat 2 * Z.to_nat 2 -> a < 5 ->
       (row_sum (GridWorldDiscEnv.transition_tensor self) s a == 1)%Q) /\
    ((0 <= 3 # 10 <= 1)%Q ->
     nonnegative (GridWorldDiscEnv.transition_tensor self)).
Proof.
  apply (@gridworld_transition_rows_are_distributions 2 (3 # 10)
           GridWorldDiscEnv.EDGEMODE_WRAP (0, 0)%Z [(1, 1)%Z] 0 1).
  - reflexivity.
  - right. reflexivity.
Defined.

(** ** From the gridworld to the tabular formulator *)

(** X20.  The re-ordered tensor of a gridworld is an input the tabular
    formulator accepts.  Each of its rows is a row of the original tensor,
    so it sums to 1 and, for a wind between 0 and 1, has no negative entry;
    with n = size^2 states and 5 actions the four blocks build, for any
    n x n inverse, a problem with 3 n variables and 11 n rows. *)
Theorem ordered_tensor_feeds_the_tabular_formulator
    (size : Z) (wind : Q) (edge_mode : Z) (initial_state : Z * Z)
    (goal_states : list (Z * Z)) (per_step_reward goal_reward : Q)
    (pi : Z -> result Z) (T_disc_inv : mat) (l1 r_max : Q) :
  (0 < size)%Z ->
  edge_mode = GridWorldDiscEnv.EDGEMODE_CLAMP \/
  edge_mode = GridWorldDiscEnv.EDGEMODE_WRAP ->
  (forall s, (0 <= s < size * size)%Z -> exists a, pi s = inr a) ->
  shape T_disc_inv (Z.to_nat size * Z.to_nat size)
        (Z.to_nat size * Z.to_nat size) ->
  exists self ts c A b,
    GridWorldDiscEnv.__init__ size wind edge_mode initial_state goal_states
      per_step_reward goal_reward = inr self /\
    GridWorldDiscEnv.get_ordered_transition_tensor self pi = inr ts /\
    t_states ts = Z.to_nat size * Z.to_nat size /\ t_actions ts = 5 /\
    (forall s a, s < t_states ts -> a < 5 -> (row_sum ts s a == 1)%Q) /\
    ((0 <= wind <= 1)%Q ->
     forall s a s', s < t_states ts -> (0 <= t_at ts s a s')%Q) /\
    compose_tabular ts T_disc_inv l1 r_max = inr (c, A, b) /\
    length c = 3 * t_states ts /\
    shape A (11 * t_states ts) (3 * t_states ts).
Proof.
  intros Hsize Hmode Hpi HTinv.
  destruct (@ordered_tensor_of_built_world size wind edge_mode initial_state
              goal_states per_step_reward goal_reward pi Hsize Hmode Hpi)
    as (self & ts & Hself & Hts & HsT & HaT & Hsts & Hats & Hrows & Hnn
        & Hslots).
  assert (Hpi' : forall s, s < Z.to_nat size * Z.to_nat size ->
                           exists action, pi (Z.of_nat s) = inr action).
  { intros s Hs. apply Hpi. lia. }
  destruct (@compose_tabular_ok ts T_disc_inv l1 r_max)
    as (c & A & b & Hrun & Hc & HA & _).
  { rewrite Hats. lia. }
  { now rewrite Hsts. }
  exists self, ts, c, A, b.
  split; [exact Hself |]. split; [exact Hts |]. split; [exact Hsts |].
  split; [exact Hats |]. rewrite Hsts. split; [| split; [| split; [| split]]].
  - intros s a Hs Ha. destruct (Hpi' s Hs) as (action & Hact).
    assert (Heq : row_sum ts s a
                  = row_sum (GridWorldDiscEnv.transition_tensor self) s
                      (slot_source action a)).
    { unfold row_sum. rewrite Hsts, HsT. apply sum_Q_untouched.
      intros i _. apply (Hslots s action Hs Hact). }
    rewrite Heq. apply Hrows; [exact Hs | now apply slot_source_in_range].
  - intros Hwind s a s' Hs. destruct (Hpi' s Hs) as (action & Hact).
    rewrite (Hslots s action Hs Hact). now apply Hnn.
  - exact Hrun.
  - now rewrite <- Hsts.
  - rewrite Hats, Hsts in HA.
    replace (11 * (Z.to_nat size * Z.to_nat size))
      with (2 * (5 - 1) * (Z.to_nat size * Z.to_nat size)
            + 3 * (Z.to_nat size * Z.to_nat size)) by lia.
    exact HA.
Qed.

Lemma ordered_tensor_of_grid2_feeds_the_formulator :
  exists self ts c A b,
    GridWorldDiscEnv.__init__ 2 (3 # 10) GridWorldDiscEnv.EDGEMODE_WRAP
      (0, 0)%Z [(1, 1)%Z] 0 1 = inr self /\
    GridWorldDiscEnv.get_ordered_transition_tensor self always_east
    = inr ts /\
    t_states ts = Z.to_nat 2 * Z.to_nat 2 /\ t_actions ts = 5 /\
    (forall s a, s < t_states ts -> a < 5 -> (row_sum ts s a == 1)%Q) /\
    ((0 <= 3 # 10 <= 1)%Q ->
     forall s a s', s < t_states ts -> (0 <= t_at ts s a s')%Q) /\
    compose_tabular ts (identity 4) (1 # 2) 1 = inr (c, A, b) /\
    length c = 3 * t_states ts /\
    shape A (11 * t_states ts) (3 * t_states ts).
Proof.
  apply (@ordered_tensor_feeds_the_tabular_formulator 2 (3 # 10)
           GridWorldDiscEnv.EDGEMODE_WRAP (0, 0)%Z [(1, 1)%Z] 0 1
           always_east (identity 4) (1 # 2) 1).
  - reflexivity.
  - right. reflexivity.
  - intros s _. eexists. reflexivity.
  - apply (shape_identity 4).
Defined.

Lemma nth_zip_with {A B C : Type} (f : A -> B -> C) (da : A) (db : B) (dc : C)
    (l : list A) (m : list B) : forall i,
  i < length l -> i < length m ->
  nth i (zip_with f l m) dc = f (nth i l da) (nth i m db).
Proof.
  revert m. induction l as [| a l IH]; intros [| b m] i Hl Hm;
    simpl in *; try lia.
  destruct i as [| i]; [reflexivity |]. apply IH; lia.
Qed.

Lemma nth_map_in_range {A B : Type} (f : A -> B) (da : A) (db : B)
    (l : list A) i :
  i < length l -> nth i (map f l) db = f (nth i l da).
Proof.
  intros Hi. rewrite (nth_indep _ db (f da)) by now rewrite length_map.
  apply map_nth.
Qed.

(** Where two slots of a tensor hold the same row at a state, the
    comparison of the two actions contributes a zero row for that state. *)
Lemma dominance_row_of_equal_slots (T : tensor) (Tinv cr : mat) (i s : nat) :
  dominance_rows T Tinv i = inr cr ->
  s < t_states T ->
  (forall s', t_at T s i s' = t_at T s 0 s') ->
  all_zero (nth s (rows cr) []).
Proof.
  intros Hrun Hs Heq. unfold dominance_rows in Hrun.
  bind_inv Hrun as T0 HT0. bind_inv Hrun as Ti HTi.
  unfold slice_action in HT0, HTi.
  destruct (0 <? t_actions T); [| discriminate].
  destruct (i <? t_actions T); [| discriminate].
  assert (HT0' := HT0). assert (HTi' := HTi). clear HT0 HTi.
  unfold ret in HT0', HTi'.
  injection HT0' as HT0. injection HTi' as HTi. subst T0 Ti.
  unfold matmul in Hrun.
  match type of Hrun with
  | (if ?c then _ else _) = _ => destruct c; [| discriminate]
  end.
  unfold ret in Hrun. injection Hrun as Hrun. subst cr.
  cbn [ncols mscale msub nrows rows].
  set (row_of := fun a s0 => map (fun s' => t_at T s0 a s')
                                 (seq 0 (t_states T))).
  rewrite (@nth_map_in_range _ _ _ [] []).
  2: { rewrite length_map, length_zip_with, !length_map, length_seq. lia. }
  rewrite (@nth_map_in_range _ _ _ [] []).
  2: { rewrite length_zip_with, !length_map, length_seq. lia. }
  rewrite (@nth_zip_with _ _ _ _ [] [] [])
    by (rewrite length_map, length_seq; lia).
  rewrite !(@nth_map_in_range _ _ _ 0 []) by (rewrite length_seq; lia).
  rewrite seq_nth by lia. cbn [Nat.add].
  assert (Hsame : map (fun s' => t_at T s i s') (seq 0 (t_states T))
                  = map (fun s' => t_at T s 0 s') (seq 0 (t_states T))).
  { apply map_ext. exact Heq. }
  rewrite Hsame.
  apply Forall_forall. intros q Hq.
  apply in_map_iff in Hq. destruct Hq as (j & <- & _).
  apply dot_all_zero. apply all_zero_vscale. apply all_zero_self_difference.
Qed.

(** X21.  With the re-ordered tensor of a gridworld, the tabular formulator
    compares the expert with itself a second time.  At every state where
    the policy answers East, South or West, slot 1 repeats slot 0, so the
    row of that state in [-1 * (T[:, 0, :] - T[:, 1, :]) @ T_disc_inv] is
    zero, whatever the inverse: the first alternative action constrains
    nothing there. *)
Theorem ordered_tensor_makes_first_alternative_vacuous
    (size : Z) (wind : Q) (edge_mode : Z) (initial_state : Z * Z)
    (goal_states : list (Z * Z)) (per_step_reward goal_reward : Q)
    (pi : Z -> result Z) :
  (0 < size)%Z ->
  edge_mode = GridWorldDiscEnv.EDGEMODE_CLAMP \/
  edge_mode = GridWorldDiscEnv.EDGEMODE_WRAP ->
  (forall s, (0 <= s < size * size)%Z -> exists a, pi s = inr a) ->
  exists self ts,
    GridWorldDiscEnv.__init__ size wind edge_mode initial_state goal_states
      per_step_reward goal_reward = inr self /\
    GridWorldDiscEnv.get_ordered_transition_tensor self pi = inr ts /\
    forall T_disc_inv cr s action,
      dominance_rows ts T_disc_inv 1 = inr cr ->
      s < t_states ts -> pi (Z.of_nat s) = inr action ->
      (1 <= action <= 3)%Z ->
      all_zero (nth s (rows cr) []).
Proof.
  intros Hsize Hmode Hpi.
  destruct (@ordered_tensor_of_built_world size wind edge_mode initial_state
              goal_states per_step_reward goal_reward pi Hsize Hmode Hpi)
    as (self & ts & Hself & Hts & _ & _ & Hsts & _ & _ & _ & Hslots).
  exists self, ts. split; [exact Hself |]. split; [exact Hts |].
  intros Tinv cr s action Hrun Hs Hact Hrange.
  apply (@dominance_row_of_equal_slots ts Tinv cr 1 s Hrun Hs).
  intros s'. rewrite Hsts in Hs. rewrite !(Hslots s action Hs Hact).
  assert (Hcases : (action = 1 \/ action = 2 \/ action = 3)%Z) by lia.
  destruct Hcases as [-> | [-> | ->]]; reflexivity.
Qed.

Lemma first_alternative_vacuous_on_grid2 :
  exists self ts,
    GridWorldDiscEnv.__init__ 2 (3 # 10) GridWorldDiscEnv.EDGEMODE_WRAP
      (0, 0)%Z [(1, 1)%Z] 0 1 = inr self /\
    GridWorldDiscEnv.get_ordered_transition_tensor self always_east
    = inr ts /\
    forall T_disc_inv cr s action,
      dominance_rows ts T_disc_inv 1 = inr cr ->
      s < t_states ts -> always_east (Z.of_nat s) = inr action ->
      (1 <= action <= 3)%Z ->
      all_zero (nth s (rows cr) []).
Proof.
  apply (@ordered_tensor_makes_first_alternative_vacuous 2 (3 # 10)
           GridWorldDiscEnv.EDGEMODE_WRAP (0, 0)%Z [(1, 1)%Z] 0 1
           always_east).
  - reflexivity.
  - right. reflexivity.
  - intros s _. eexists. reflexivity.
Defined.

(** * The continuous gridworld and the random policy *)

(** ** The order of the actions in the continuous gridworld *)

Lemma actual_action_closed_form (State : Type) (policy : State -> Z)
    (s : State) (a_i : Z) :
  (0 <= policy s < 5)%Z -> (0 <= a_i < 5)%Z ->
  GridWorldCtsEnv.actual_action policy s a_i
  = inr (if (a_i =? 0)%Z then policy s
         else if (a_i <=? policy s)%Z then (a_i - 1)%Z else a_i).
Proof.
  intros Hp Ha. unfold GridWorldCtsEnv.actual_action.
  assert (Hpc : (policy s = 0 \/ policy s = 1 \/ policy s = 2 \/
                 policy s = 3 \/ policy s = 4)%Z) by lia.
  assert (Hac : (a_i = 0 \/ a_i = 1 \/ a_i = 2 \/ a_i = 3 \/ a_i = 4)%Z)
    by lia.
  destruct Hpc as [-> | [-> | [-> | [-> | ->]]]];
    destruct Hac as [-> | [-> | [-> | [-> | ->]]]]; reflexivity.
Qed.

(** X22.  The continuous gridworld re-orders its actions without losing
    any.  For a policy that answers one of the five actions, index 0 of the
    ordered transition function stands for the policy's action, the indices
    1 .. 4 stand for the other four actions in their original order, and
    every action is reached from exactly one index.  An answer that is not
    one of the five actions raises ValueError. *)
Theorem ordered_actions_are_a_permutation (State : Type)
    (policy : State -> Z) (s : State) :
  ((0 <= policy s < 5)%Z ->
   GridWorldCtsEnv.actual_action policy s 0 = inr (policy s) /\
   (forall a_i, (1 <= a_i < 5)%Z ->
      GridWorldCtsEnv.actual_action policy s a_i
      = inr (if (a_i <=? policy s)%Z then (a_i - 1)%Z else a_i)) /\
   (forall a, (0 <= a < 5)%Z ->
      exists a_i, (0 <= a_i < 5)%Z /\
                  GridWorldCtsEnv.actual_action policy s a_i = inr a) /\
   (forall i j, (0 <= i < 5)%Z -> (0 <= j < 5)%Z ->
      GridWorldCtsEnv.actual_action policy s i
      = GridWorldCtsEnv.actual_action policy s j -> i = j)) /\
  (~ (0 <= policy s < 5)%Z ->
   forall a_i, GridWorldCtsEnv.actual_action policy s a_i = inl ValueError).
Proof.
  split.
  - intros Hp. split; [| split; [| split]].
    + now rewrite actual_action_closed_form by lia.
    + intros a_i Ha. rewrite actual_action_closed_form by lia.
      destruct (Z.eqb_spec a_i 0); [lia | reflexivity].
    + intros a Ha.
      destruct (Z.eq_dec a (policy s)) as [-> | Hne].
      * exists 0%Z. split; [lia |].
        now rewrite actual_action_closed_form by lia.
      * destruct (Z.ltb_spec a (policy s)).
        -- exists (a + 1)%Z. split; [lia |].
           rewrite actual_action_closed_form by lia.
           destruct (Z.eqb_spec (a + 1) 0); [lia |].
           destruct (Z.leb_spec (a + 1) (policy s)); [| lia].
           f_equal. lia.
        -- exists a. split; [lia |].
           rewrite actual_action_closed_form by lia.
           destruct (Z.eqb_spec a 0); [lia |].
           destruct (Z.leb_spec a (policy s)); [lia | reflexivity].
    + intros i j Hi Hj.
      rewrite !actual_action_closed_form by lia.
      intros [= Heq]. revert Heq.
      destruct (Z.eqb_spec i 0), (Z.eqb_spec j 0),
        (Z.leb_spec i (policy s)), (Z.leb_spec j (policy s)); lia.
  - intros Hp a_i. unfold GridWorldCtsEnv.actual_action.
    change (py_range (Z.of_nat (length GridWorldCtsEnv._A)))
      with [0; 1; 2; 3; 4]%Z.
    cbn [list_remove].
    repeat match goal with
           | |- context [(?h =? policy s)%Z] =>
               destruct (Z.eqb_spec h (policy s)); [lia |]
           end.
    reflexivity.
Qed.

Lemma ordered_actions_for_south :
  (0 <= (fun _ : unit => 2%Z) tt < 5)%Z /\
  map (GridWorldCtsEnv.actual_action (fun _ : unit => 2%Z) tt)
      [0; 1; 2; 3; 4]%Z
  = [inr 2; inr 0; inr 1; inr 3; inr 4]%Z /\
  GridWorldCtsEnv.actual_action (fun _ : unit => 2%Z) tt 0 = inr 2%Z.
Proof.
  split; [simpl; lia |]. split; [reflexivity |].
  apply (@ordered_actions_are_a_permutation unit (fun _ => 2%Z) tt).
  simpl. lia.
Defined.

(** ** Steps and features of the discrete gridworld *)

Lemma nth_error_seq_in_range n : forall a k,
  k < n -> nth_error (seq a n) k = Some (a + k).
Proof.
  induction n as [| n IH]; intros a k Hk; [lia |].
  destruct k as [| k]; simpl; [f_equal; lia |].
  rewrite IH by lia. f_equal. lia.
Qed.

Lemma nth_error_py_range n k :
  (0 <= k < n)%Z -> nth_error (py_range n) (Z.to_nat k) = Some k.
Proof.
  intros Hk. unfold py_range. rewrite nth_error_map.
  rewrite nth_error_seq_in_range by lia. simpl. f_equal. lia.
Qed.

Lemma existsb_Zeqb_In (z : Z) (l : list Z) :
  existsb (Z.eqb z) l = true <-> In z l.
Proof.
  rewrite existsb_exists. split.
  - intros (y & Hy & Heq). apply Z.eqb_eq in Heq. now subst.
  - intros Hin. exists z. split; [exact Hin | apply Z.eqb_refl].
Qed.

(** X23.  The reward that [step] returns is the entry of
    [ground_truth_reward] for the state it has moved to, and [done] tells
    whether that state is a goal: on a freshly built gridworld, for a valid
    action and a drawn state of the grid, [step] returns that state, the
    per-step reward plus, at a goal, the goal reward, and leaves the
    environment in that state. *)
Theorem step_reward_is_the_ground_truth_reward
    (size : Z) (wind : Q) (edge_mode : Z) (initial_state : Z * Z)
    (goal_states : list (Z * Z)) (per_step_reward goal_reward : Q)
    (action drawn : Z) :
  (0 < size)%Z ->
  edge_mode = GridWorldDiscEnv.EDGEMODE_CLAMP \/
  edge_mode = GridWorldDiscEnv.EDGEMODE_WRAP ->
  (0 <= action < 5)%Z -> (0 <= drawn < size * size)%Z ->
  exists self self' reward done,
    GridWorldDiscEnv.__init__ size wind edge_mode initial_state goal_states
      per_step_reward goal_reward = inr self /\
    GridWorldDiscEnv.step self action drawn
    = inr (self', (drawn, reward, done)) /\
    GridWorldDiscEnv.state self' = drawn /\
    nth_error (GridWorldDiscEnv.ground_truth_reward self) (Z.to_nat drawn)
    = Some reward /\
    (done = true <-> In drawn (GridWorldDiscEnv._goal_states self)) /\
    reward = (if done then (per_step_reward + goal_reward)%Q
              else per_step_reward).
Proof.
  intros Hsize Hmode Haction Hdrawn.
  destruct (@__init___returns size wind edge_mode initial_state goal_states
              per_step_reward goal_reward Hsize Hmode) as (self & Hself).
  exists self. pose proof Hself as Hinit.
  apply __init___inr in Hinit; [| exact Hsize].
  destruct Hinit as (_ & _ & _ & _ & HT & Hstate & Hinitial & _ & _ & Hreward).
  destruct (@build_transition_tensor_spec size edge_mode wind Hsize)
    as (T & HT' & HsT & _).
  rewrite HT in HT'. injection HT' as <-.
  pose proof (length__S size) as HlenS.
  unfold GridWorldDiscEnv.step.
  assert (Hvalid :
            ((0 <=? action)
             && (action <? Z.of_nat (length GridWorldDiscEnv._A)))%Z = true).
  { apply andb_true_intro. split; [apply Z.leb_le | apply Z.ltb_lt];
      simpl; lia. }
  rewrite Hvalid. cbn [negb].
  rewrite np_index_in_range by (rewrite HsT, Hstate, HlenS; lia).
  cbn [bind ret GridWorldDiscEnv.state GridWorldDiscEnv._goal_states
       GridWorldDiscEnv._per_step_reward GridWorldDiscEnv._goal_reward].
  do 3 eexists. split; [exact Hself |]. split; [reflexivity |].
  split; [reflexivity |].
  assert (Hps : GridWorldDiscEnv._per_step_reward self = per_step_reward /\
                GridWorldDiscEnv._goal_reward self = goal_reward).
  { unfold GridWorldDiscEnv.__init__ in Hself.
    destruct (negb _); [discriminate |].
    bind_inv Hself as T0 HT0. bind_inv Hself as s0 Hs0.
    bind_inv Hself as goals Hgoals. injection Hself as <-. auto. }
  destruct Hps as (-> & ->).
  split; [| split; [apply existsb_Zeqb_In | reflexivity]].
  rewrite Hreward, nth_error_map.
  rewrite nth_error_py_range by (rewrite HlenS; lia).
  reflexivity.
Qed.

Lemma step_reward_on_grid2 :
  exists self self' reward done,
    GridWorldDiscEnv.__init__ 2 (3 # 10) GridWorldDiscEnv.EDGEMODE_CLAMP
      (0, 0)%Z [(1, 1)%Z] 0 1 = inr self /\
    GridWorldDiscEnv.step self 1 3 = inr (self', (3%Z, reward, done)) /\
    GridWorldDiscEnv.state self' = 3%Z /\
    nth_error (GridWorldDiscEnv.ground_truth_reward self) (Z.to_nat 3)
    = Some reward /\
    (done = true <-> In 3%Z (GridWorldDiscEnv._goal_states self)) /\
    reward = (if done then (0 + 1)%Q else 0%Q).
Proof.
  apply (@step_reward_is_the_ground_truth_reward 2 (3 # 10)
           GridWorldDiscEnv.EDGEMODE_CLAMP (0, 0)%Z [(1, 1)%Z] 0 1 1 3).
  - reflexivity.
  - left. reflexivity.
  - lia.
  - lia.
Defined.

(** X24.  The identity features of the discrete gridworld are one-hot: for a
    state s of a world with n = size^2 states the feature vector has n
    entries, and its inner product with any vector is that vector's entry
    s, so a reward that is linear in these features is a table of rewards.
    A state outside [-n, n) raises IndexError; with [s = None] the features
    are those of the current state. *)
Theorem identity_features_are_one_hot
    (self : GridWorldDiscEnv.t) (s : Z) :
  let n := Z.to_nat (GridWorldDiscEnv._size self)
           * Z.to_nat (GridWorldDiscEnv._size self) in
  ((0 <= s < Z.of_nat n)%Z ->
   exists f,
     GridWorldDiscEnv.get_state_features self (Some s)
       GridWorldDiscEnv.FEATUREMAP_IDENTITY = inr f /\
     length f = n /\
     forall v, (dot f v == nth (Z.to_nat s) v 0)%Q) /\
  (~ (- Z.of_nat n <= s < Z.of_nat n)%Z ->
   GridWorldDiscEnv.get_state_features self (Some s)
     GridWorldDiscEnv.FEATUREMAP_IDENTITY = inl IndexError) /\
  GridWorldDiscEnv.get_state_features self None
    GridWorldDiscEnv.FEATUREMAP_IDENTITY
  = GridWorldDiscEnv.get_state_features self
      (Some (GridWorldDiscEnv.state self))
      GridWorldDiscEnv.FEATUREMAP_IDENTITY.
Proof.
  intros n. unfold GridWorldDiscEnv.get_state_features.
  cbn [Z.eqb GridWorldDiscEnv.FEATUREMAP_IDENTITY
       GridWorldDiscEnv.FEATUREMAP_COORD].
  rewrite length__S. fold n.
  split; [| split; [| reflexivity]].
  - intros Hs. rewrite np_index_in_range by exact Hs. cbn [bind ret].
    eexists. split; [reflexivity |].
    split; [now rewrite length_upd, repeat_length |].
    intros v. fold (unit_row n (Z.to_nat s) 1).
    rewrite dot_unit_row by lia. ring.
  - intros Hs. unfold np_index.
    destruct (Z.leb_spec 0 s), (Z.ltb_spec s (Z.of_nat n)),
      (Z.leb_spec (- Z.of_nat n) s), (Z.ltb_spec s 0);
      cbn [andb]; try reflexivity; lia.
Qed.

Lemma upd_at_length (l1 l2 : vec) (u v : Q) :
  upd (length l1) v (l1 ++ u :: l2) = l1 ++ v :: l2.
Proof.
  induction l1 as [| h t IH]; simpl; [reflexivity | now rewrite IH].
Qed.

(** A loop that writes entry [idx it] for each item in turn fills the
    array in order. *)
Lemma fill_by_index {I : Type} (items : list I) (idx : I -> nat)
    (val : I -> Q) (n : nat) :
  map idx items = seq 0 n ->
  for_loop (fun it f => list_setitem f (idx it) (val it)) items
           (repeat 0%Q n)
  = inr (map val items).
Proof.
  intros Hidx.
  assert (Hlen : length items = n).
  { rewrite <- (length_map idx), Hidx. apply length_seq. }
  pose (Inv := fun (done : list I) (f : vec) =>
                 f = map val done ++ repeat 0%Q (n - length done)).
  destruct (@for_loop_prefix_returns _ _
              (fun it f => list_setitem f (idx it) (val it)) Inv items)
    with (s := repeat 0%Q n) as (f & Hrun & Hinv).
  - intros done it rest f Hsplit ->.
    assert (Hit : idx it = length done /\ length done < n).
    { rewrite Hsplit, map_app in Hidx. simpl in Hidx. symmetry in Hidx.
      apply seq_split_index in Hidx. rewrite length_map in Hidx. lia. }
    destruct Hit as (-> & Hlt).
    rewrite list_setitem_ok
      by (rewrite length_app, length_map, repeat_length; lia).
    eexists. split; [reflexivity |].
    unfold Inv. rewrite length_app, map_app. cbn [length map].
    replace (n - length done) with (S (n - (length done + 1))) by lia.
    cbn [repeat]. rewrite <- (length_map val done) at 1.
    rewrite upd_at_length, <- app_assoc. reflexivity.
  - unfold Inv. simpl. now rewrite Nat.sub_0_r.
  - rewrite Hrun. unfold Inv in Hinv. rewrite Hinv, Hlen, Nat.sub_diag.
    simpl. now rewrite app_nil_r.
Qed.

Lemma map_snd_combine_seq {A : Type} (l : list A) : forall k,
  map snd (combine (seq k (length l)) l) = l.
Proof.
  induction l as [| h t IH]; intros k; simpl;
    [reflexivity | now rewrite IH].
Qed.

Lemma manhattan_symmetric p q :
  GridWorldDiscEnv.manhattan p q = GridWorldDiscEnv.manhattan q p.
Proof. unfold GridWorldDiscEnv.manhattan. lia. Qed.

Lemma other_distance_features (self : GridWorldDiscEnv.t) (s : Z) :
  (0 < GridWorldDiscEnv._size self)%Z ->
  GridWorldDiscEnv.get_state_features self (Some s)
    GridWorldDiscEnv.FEATUREMAP_OTHER_DISTANCE
  = inr (map (fun t =>
                inject_Z
                  (GridWorldDiscEnv.manhattan
                     (cell_of (GridWorldDiscEnv._size self) s)
                     (cell_of (GridWorldDiscEnv._size self) (Z.of_nat t))))
             (seq 0 (Z.to_nat (GridWorldDiscEnv._size self)
                     * Z.to_nat (GridWorldDiscEnv._size self)))).
Proof.
  intros Hsize. unfold GridWorldDiscEnv.get_state_features.
  cbn [Z.eqb Pos.eqb GridWorldDiscEnv.FEATUREMAP_OTHER_DISTANCE
       GridWorldDiscEnv.FEATUREMAP_IDENTITY
       GridWorldDiscEnv.FEATUREMAP_COORD].
  rewrite length__S. rewrite _s2xy_eq by exact Hsize. cbn [bind].
  fold (cell_of (GridWorldDiscEnv._size self) s).
  erewrite for_loop_ext.
  - apply (@fill_by_index nat _ (fun t => t)). apply map_id.
  - intros t f _. cbv beta. rewrite _s2xy_eq by exact Hsize. reflexivity.
Qed.

Lemma goal_distance_features (self : GridWorldDiscEnv.t) (s : Z) :
  (0 < GridWorldDiscEnv._size self)%Z ->
  GridWorldDiscEnv.get_state_features self (Some s)
    GridWorldDiscEnv.FEATUREMAP_GOAL_DISTANCE
  = inr (map (fun g =>
                inject_Z
                  (GridWorldDiscEnv.manhattan
                     (cell_of (GridWorldDiscEnv._size self) s)
                     (cell_of (GridWorldDiscEnv._size self) g)))
             (GridWorldDiscEnv._goal_states self)).
Proof.
  intros Hsize. unfold GridWorldDiscEnv.get_state_features.
  cbn [Z.eqb Pos.eqb GridWorldDiscEnv.FEATUREMAP_OTHER_DISTANCE
       GridWorldDiscEnv.FEATUREMAP_GOAL_DISTANCE
       GridWorldDiscEnv.FEATUREMAP_IDENTITY
       GridWorldDiscEnv.FEATUREMAP_COORD].
  rewrite _s2xy_eq by exact Hsize. cbn [bind].
  fold (cell_of (GridWorldDiscEnv._size self) s).
  set (val := fun it : nat * Z =>
                inject_Z
                  (GridWorldDiscEnv.manhattan
                     (cell_of (GridWorldDiscEnv._size self) s)
                     (cell_of (GridWorldDiscEnv._size self) (snd it)))).
  transitivity (@inr py_error _
                  (map val (enumerate (GridWorldDiscEnv._goal_states self)))).
  - erewrite for_loop_ext.
    + apply (@fill_by_index _ _ fst val). apply map_fst_combine_seq.
    + intros [i g] f _. cbv beta iota. rewrite _s2xy_eq by exact Hsize.
      reflexivity.
  - f_equal. unfold enumerate, val.
    rewrite <- (map_map snd (fun g => inject_Z
                  (GridWorldDiscEnv.manhattan
                     (cell_of (GridWorldDiscEnv._size self) s)
                     (cell_of (GridWorldDiscEnv._size self) g)))).
    now rewrite map_snd_combine_seq.
Qed.

(** X25.  The distance features of the discrete gridworld are Manhattan
    distances between cells.  For states s and t of the grid, entry t of
    the other-distance features of s is the distance between their cells;
    it equals entry s of the features of t, and it is zero only for t = s.
    The goal-distance features hold, goal by goal, the distance to that
    goal. *)
Theorem distance_features_are_manhattan_distances
    (self : GridWorldDiscEnv.t) (s t : Z) :
  let size := GridWorldDiscEnv._size self in
  (0 < size)%Z ->
  (0 <= s < size * size)%Z -> (0 <= t < size * size)%Z ->
  exists f_s f_t g_s,
    GridWorldDiscEnv.get_state_features self (Some s)
      GridWorldDiscEnv.FEATUREMAP_OTHER_DISTANCE = inr f_s /\
    GridWorldDiscEnv.get_state_features self (Some t)
      GridWorldDiscEnv.FEATUREMAP_OTHER_DISTANCE = inr f_t /\
    GridWorldDiscEnv.get_state_features self (Some s)
      GridWorldDiscEnv.FEATUREMAP_GOAL_DISTANCE = inr g_s /\
    length f_s = Z.to_nat size * Z.to_nat size /\
    nth (Z.to_nat t) f_s 0%Q
    = inject_Z (GridWorldDiscEnv.manhattan (cell_of size s) (cell_of size t))
    /\
    nth (Z.to_nat t) f_s 0%Q = nth (Z.to_nat s) f_t 0%Q /\
    (nth (Z.to_nat t) f_s 0%Q = 0%Q <-> t = s) /\
    g_s = map (fun g => inject_Z (GridWorldDiscEnv.manhattan
                                    (cell_of size s) (cell_of size g)))
              (GridWorldDiscEnv._goal_states self).
Proof.
  intros size Hsize Hs Ht.
  assert (Hentry : forall a b, (0 <= b < size * size)%Z ->
            nth (Z.to_nat b)
              (map (fun k =>
                      inject_Z
                        (GridWorldDiscEnv.manhattan (cell_of size a)
                           (cell_of size (Z.of_nat k))))
                   (seq 0 (Z.to_nat size * Z.to_nat size))) 0%Q
            = inject_Z (GridWorldDiscEnv.manhattan (cell_of size a)
                          (cell_of size b))).
  { intros a b Hb.
    rewrite (@nth_map_in_range _ _ _ 0) by (rewrite length_seq; nia).
    rewrite seq_nth by nia. cbn [Nat.add]. now rewrite Z2Nat.id by lia. }
  do 3 eexists.
  split; [now apply other_distance_features |].
  split; [now apply other_distance_features |].
  split; [now apply goal_distance_features |].
  fold size. split; [now rewrite length_map, length_seq |].
  split; [now apply Hentry |].
  split; [rewrite !Hentry by assumption;
          now rewrite manhattan_symmetric |].
  rewrite Hentry by assumption. split; [| reflexivity]. split.
  - intros Hzero. injection Hzero as Hzero.
    apply (@cell_of_injective self Hsize); try assumption.
    unfold GridWorldDiscEnv.manhattan in Hzero.
    destruct (cell_of (GridWorldDiscEnv._size self) s) as [x y] eqn:Hxy.
    destruct (cell_of (GridWorldDiscEnv._size self) t) as [x' y'] eqn:Hxy'.
    fold size in Hxy, Hxy'. rewrite Hxy, Hxy' in Hzero.
    simpl in Hzero. f_equal; lia.
  - intros ->. unfold GridWorldDiscEnv.manhattan.
    rewrite !Z.sub_diag. reflexivity.
Qed.

Lemma distance_features_on_grid3 :
  GridWorldDiscEnv.get_state_features grid3_env (Some 1%Z)
    GridWorldDiscEnv.FEATUREMAP_OTHER_DISTANCE
  = inr (map inject_Z [1; 0; 1; 2; 1; 2; 3; 2; 3]%Z) /\
  exists f_s f_t g_s,
    GridWorldDiscEnv.get_state_features grid3_env (Some 1%Z)
      GridWorldDiscEnv.FEATUREMAP_OTHER_DISTANCE = inr f_s /\
    GridWorldDiscEnv.get_state_features grid3_env (Some 5%Z)
      GridWorldDiscEnv.FEATUREMAP_OTHER_DISTANCE = inr f_t /\
    GridWorldDiscEnv.get_state_features grid3_env (Some 1%Z)
      GridWorldDiscEnv.FEATUREMAP_GOAL_DISTANCE = inr g_s /\
    length f_s = Z.to_nat 3 * Z.to_nat 3 /\
    nth (Z.to_nat 5) f_s 0%Q
    = inject_Z (GridWorldDiscEnv.manhattan (cell_of 3 1) (cell_of 3 5)) /\
    nth (Z.to_nat 5) f_s 0%Q = nth (Z.to_nat 1) f_t 0%Q /\
    (nth (Z.to_nat 5) f_s 0%Q = 0%Q <-> 5%Z = 1%Z) /\
    g_s = map (fun g => inject_Z (GridWorldDiscEnv.manhattan
                                    (cell_of 3 1) (cell_of 3 g)))
              [8%Z].
Proof.
  split; [vm_compute; reflexivity |].
  apply (@distance_features_are_manhattan_distances grid3_env 1 5).
  - reflexivity.
  - simpl. lia.
  - simpl. lia.
Defined.

Lemma identity_features_on_grid3 :
  GridWorldDiscEnv.get_state_features grid3_env (Some 4%Z)
    GridWorldDiscEnv.FEATUREMAP_IDENTITY
  = inr [0; 0; 0; 0; 1; 0; 0; 0; 0]%Q /\
  (exists f,
     GridWorldDiscEnv.get_state_features grid3_env (Some 4%Z)
       GridWorldDiscEnv.FEATUREMAP_IDENTITY = inr f /\
     length f = 9 /\
     forall v, (dot f v == nth (Z.to_nat 4) v 0)%Q) /\
  GridWorldDiscEnv.get_state_features grid3_env (Some 9%Z)
    GridWorldDiscEnv.FEATUREMAP_IDENTITY = inl IndexError.
Proof.
  split; [vm_compute; reflexivity |].
  destruct (@identity_features_are_one_hot grid3_env 4) as (H1 & _).
  destruct (@identity_features_are_one_hot grid3_env 9) as (_ & H2 & _).
  split; [apply H1; simpl; lia | apply H2; simpl; lia].
Defined.

(** ** The indices of the random policy's table *)

Lemma py_round_ge (k : Z) (q : Q) :
  (inject_Z k <= q)%Q -> (k <= py_round q)%Z.
Proof.
  intros Hk. apply Qfloor_resp_le in Hk. rewrite Qfloor_Z in Hk.
  unfold py_round.
  destruct (Qgt_bool (1 # 2) (q - inject_Z (Qfloor q))); [exact Hk |].
  destruct (Qgt_bool (q - inject_Z (Qfloor q)) (1 # 2)); [lia |].
  destruct (Z.even (Qfloor q)); lia.
Qed.

Lemma Qgt_bool_true a b : (b < a)%Q -> Qgt_bool a b = true.
Proof.
  intros Hlt. unfold Qgt_bool.
  destruct (Qle_bool a b) eqn:Hle; [| reflexivity].
  apply Qle_bool_iff in Hle. lra.
Qed.

Lemma py_round_le (k : Z) (q : Q) :
  (q <= inject_Z k)%Q -> (py_round q <= k)%Z.
Proof.
  intros Hk. pose proof Hk as Hfloor.
  apply Qfloor_resp_le in Hfloor. rewrite Qfloor_Z in Hfloor.
  unfold py_round.
  destruct (Z.eq_dec (Qfloor q) k) as [Heq | Hne].
  - rewrite Qgt_bool_true; [lia |]. rewrite Heq. lra.
  - destruct (Qgt_bool (1 # 2) (q - inject_Z (Qfloor q))); [exact Hfloor |].
    destruct (Qgt_bool (q - inject_Z (Qfloor q)) (1 # 2)); [lia |].
    destruct (Z.even (Qfloor q)); lia.
Qed.

Lemma nth_error_combine_seq {A : Type} (l : list A) : forall base k a,
  nth_error l k = Some a ->
  nth_error (combine (seq base (length l)) l) k = Some (base + k, a).
Proof.
  induction l as [| h t IH]; intros base [| k] a Hk; simpl in *;
    try discriminate.
  - injection Hk as ->. do 2 f_equal. lia.
  - rewrite (IH (S base) k a Hk). do 2 f_equal. lia.
Qed.

Lemma nth_error_enumerate {A : Type} (l : list A) (k : nat) (a : A) :
  nth_error l k = Some a -> nth_error (enumerate l) k = Some (k, a).
Proof.
  intros Hk. unfold enumerate. now rewrite (nth_error_combine_seq l 0 k Hk).
Qed.

Lemma combine_app_same_length {A B : Type} (l1 l2 : list A)
    (m1 m2 : list B) :
  length l1 = length m1 ->
  combine (l1 ++ l2) (m1 ++ m2) = combine l1 m1 ++ combine l2 m2.
Proof.
  revert m1. induction l1 as [| a l1 IH]; intros [| b m1] Hlen;
    simpl in *; try discriminate; [reflexivity |].
  now rewrite IH by lia.
Qed.

Section IndexTuple.

Variable S_bounds : list (Q * Q).
Variable N : Z.

Hypothesis one_step : (1 <= N)%Z.
Hypothesis intervals : Forall (fun b => (fst b < snd b)%Q) S_bounds.

(** The index of one coordinate of the state. *)
Let index_of (item : nat * Q) : Z :=
  let '(s_min, s_max) := nth (fst item) S_bounds (0, 0)%Q in
  Z.min (Z.max (py_round ((snd item - s_min) / (s_max - s_min)
                          * inject_Z (N - 1))) 0) (N - 1).

Lemma state_as_index_tuple_eq (s : vec) :
  length s <= length S_bounds ->
  state_as_index_tuple S_bounds s N = inr (map index_of (enumerate s)).
Proof.
  intros Hlen. unfold state_as_index_tuple.
  pose (Inv := fun (done : list (nat * Q)) (indices : list Z) =>
                 indices = map index_of done).
  match goal with
  | |- for_loop ?body ?items ?s0 = _ =>
      destruct (@for_loop_prefix_returns _ _ body Inv items) with (s := s0)
        as (out & Hrun & Hinv)
  end.
  - intros done [k state] rest indices Hsplit ->.
    apply enumerate_split_index in Hsplit. destruct Hsplit as (Hk & Hlt).
    destruct (nth_error S_bounds k) as [[lo hi] |] eqn:Hb.
    2: { apply nth_error_None in Hb. lia. }
    cbn [bind ret].
    assert (Hlohi : (lo < hi)%Q).
    { rewrite Forall_forall in intervals.
      apply (intervals (lo, hi)). eapply nth_error_In; eauto. }
    destruct (Qeq_bool (hi - lo) 0) eqn:Hz.
    { apply Qeq_bool_iff in Hz. lra. }
    cbn [bind ret]. eexists. split; [reflexivity |].
    unfold Inv. rewrite map_app. cbn [map]. do 2 f_equal.
    unfold index_of. cbn [fst snd].
    now rewrite (nth_error_nth _ _ _ Hb).
  - reflexivity.
  - rewrite Hrun. now rewrite Hinv.
Qed.

Lemma index_of_in_table item : (0 <= index_of item <= N - 1)%Z.
Proof.
  unfold index_of. destruct (nth (fst item) S_bounds (0, 0)%Q). lia.
Qed.

Lemma index_of_borders k state lo hi :
  nth_error S_bounds k = Some (lo, hi) ->
  ((state <= lo)%Q -> index_of (k, state) = 0%Z) /\
  ((hi <= state)%Q -> index_of (k, state) = (N - 1)%Z).
Proof.
  intros Hb.
  assert (Hlohi : (lo < hi)%Q).
  { rewrite Forall_forall in intervals.
    apply (intervals (lo, hi)). eapply nth_error_In; eauto. }
  assert (HN : (0 <= inject_Z (N - 1))%Q).
  { unfold Qle. simpl. lia. }
  unfold index_of. cbn [fst snd]. rewrite (nth_error_nth _ _ _ Hb).
  split; intros Hstate.
  - assert (Hfrac : ((state - lo) / (hi - lo) <= 0)%Q).
    { apply Qle_shift_div_r; lra. }
    assert (Hround : (py_round ((state - lo) / (hi - lo) * inject_Z (N - 1))
                      <= 0)%Z).
    { apply py_round_le. change (inject_Z 0) with 0%Q. nra. }
    lia.
  - assert (Hfrac : (1 <= (state - lo) / (hi - lo))%Q).
    { apply Qle_shift_div_l; lra. }
    assert (Hround : (N - 1 <= py_round ((state - lo) / (hi - lo)
                                         * inject_Z (N - 1)))%Z).
    { apply py_round_ge. nra. }
    lia.
Qed.

End IndexTuple.

(** X26.  [state_as_index_tuple] never leaves the table of the random
    policy.  With N >= 1 steps and intervals that are not empty, a state
    with no more entries than there are bounds gets one index per entry,
    each between 0 and N - 1; an entry at or below its lower bound gets
    index 0 and one at or above its upper bound gets N - 1.  A state with
    more entries than bounds raises IndexError. *)
Theorem state_indices_stay_in_the_table
    (S_bounds : list (Q * Q)) (s : vec) (N : Z) :
  (1 <= N)%Z ->
  Forall (fun b => (fst b < snd b)%Q) S_bounds ->
  (length s <= length S_bounds ->
   exists indices,
     state_as_index_tuple S_bounds s N = inr indices /\
     length indices = length s /\
     Forall (fun i => (0 <= i <= N - 1)%Z) indices /\
     forall k state lo hi,
       nth_error s k = Some state -> nth_error S_bounds k = Some (lo, hi) ->
       ((state <= lo)%Q -> nth_error indices k = Some 0%Z) /\
       ((hi <= state)%Q -> nth_error indices k = Some (N - 1)%Z)) /\
  (length S_bounds < length s ->
   state_as_index_tuple S_bounds s N = inl IndexError).
Proof.
  intros HN Hint. split.
  - intros Hlen. eexists.
    split; [now apply state_as_index_tuple_eq |].
    split; [now rewrite length_map, length_enumerate |].
    split.
    + apply Forall_forall. intros i Hi. apply in_map_iff in Hi.
      destruct Hi as (item & <- & _). now apply index_of_in_table.
    + intros k state lo hi Hs Hb.
      rewrite nth_error_map, (nth_error_enumerate _ _ Hs). cbn [option_map].
      destruct (@index_of_borders S_bounds N HN Hint k state lo hi Hb)
        as (Hlow & Hhigh).
      split; intros Hstate; f_equal; auto.
  - intros Hlen.
    rewrite <- (firstn_skipn (length S_bounds) s).
    unfold state_as_index_tuple, enumerate.
    set (s1 := firstn (length S_bounds) s).
    set (s2 := skipn (length S_bounds) s).
    assert (Hs1 : length s1 = length S_bounds)
      by (unfold s1; rewrite length_firstn; lia).
    assert (Hs2 : s2 <> []).
    { unfold s2. intros Heq.
      apply (f_equal (@length Q)) in Heq. rewrite length_skipn in Heq.
      simpl in Heq. lia. }
    destruct s2 as [| x rest]; [contradiction |].
    rewrite length_app, seq_app, combine_app_same_length
      by now rewrite length_seq.
    cbn [length seq combine Nat.add].
    assert (Hloop : forall (body : nat * Q -> list Z -> result (list Z))
                           l1 l2 st st1,
              for_loop body l1 st = inr st1 ->
              for_loop body (l1 ++ l2) st = for_loop body l2 st1).
    { intros body l1. induction l1 as [| i l1 IH]; intros l2 st st1 Hrun;
        simpl in *.
      - now injection Hrun as ->.
      - destruct (body i st) as [e | st']; [discriminate |]. simpl in *.
        now apply IH. }
    pose proof (@state_as_index_tuple_eq S_bounds N Hint s1) as Hfirst.
    unfold state_as_index_tuple, enumerate in Hfirst.
    rewrite (Hloop _ _ _ _ _ (Hfirst ltac:(lia))).
    cbn [for_loop]. rewrite (proj2 (nth_error_None _ _)) by lia.
    reflexivity.
Qed.

Lemma state_indices_on_unit_square :
  (1 <= 20)%Z /\
  state_as_index_tuple [(0, 1); (0, 1)]%Q [1 # 10; 3 # 2]%Q 20
  = inr [2; 19]%Z /\
  state_as_index_tuple [(0, 1); (0, 1)]%Q [1 # 10; 3 # 2; 0]%Q 20
  = inl IndexError /\
  exists indices,
    state_as_index_tuple [(0, 1); (0, 1)]%Q [1 # 10; 3 # 2]%Q 20
    = inr indices /\
    length indices = 2 /\
    Forall (fun i => (0 <= i <= 20 - 1)%Z) indices.
Proof.
  split; [lia |]. split; [vm_compute; reflexivity |].
  destruct (@state_indices_stay_in_the_table [(0, 1); (0, 1)]%Q
              [1 # 10; 3 # 2]%Q 20) as (H1 & _).
  - lia.
  - repeat constructor.
  - destruct (@state_indices_stay_in_the_table [(0, 1); (0, 1)]%Q
                [1 # 10; 3 # 2; 0]%Q 20) as (_ & H2).
    + lia.
    + repeat constructor.
    + split; [apply H2; simpl; lia |].
      destruct H1 as (indices & Hrun & Hlen & Hall & _); [simpl; lia |].
      exists indices. auto.
Defined.

(** * Edges of the grid, and samples of a deterministic world *)

(** X27.  The two edge modes of the discrete gridworld.  In a wrapping world
    the state index is periodic in both coordinates with period [size], so
    a step over an edge arrives at the opposite edge.  In a clamped world a
    coordinate beyond an edge is taken for the edge itself, so a step over
    an edge stays where it is. *)
Theorem edge_modes_wrap_around_or_stay (size x y : Z) :
  (0 < size)%Z ->
  (forall k l,
     GridWorldDiscEnv._xy2s size GridWorldDiscEnv.EDGEMODE_WRAP
       (x + k * size) (y + l * size)
     = GridWorldDiscEnv._xy2s size GridWorldDiscEnv.EDGEMODE_WRAP x y) /\
  ((0 <= y < size)%Z ->
   GridWorldDiscEnv._xy2s size GridWorldDiscEnv.EDGEMODE_WRAP size y
   = inr (y * size)%Z /\
   GridWorldDiscEnv._xy2s size GridWorldDiscEnv.EDGEMODE_WRAP (-1) y
   = inr (y * size + (size - 1))%Z) /\
  ((x < 0)%Z ->
   GridWorldDiscEnv._xy2s size GridWorldDiscEnv.EDGEMODE_CLAMP x y
   = GridWorldDiscEnv._xy2s size GridWorldDiscEnv.EDGEMODE_CLAMP 0 y) /\
  ((size <= x)%Z ->
   GridWorldDiscEnv._xy2s size GridWorldDiscEnv.EDGEMODE_CLAMP x y
   = GridWorldDiscEnv._xy2s size GridWorldDiscEnv.EDGEMODE_CLAMP
       (size - 1) y) /\
  ((y < 0)%Z ->
   GridWorldDiscEnv._xy2s size GridWorldDiscEnv.EDGEMODE_CLAMP x y
   = GridWorldDiscEnv._xy2s size GridWorldDiscEnv.EDGEMODE_CLAMP x 0) /\
  ((size <= y)%Z ->
   GridWorldDiscEnv._xy2s size GridWorldDiscEnv.EDGEMODE_CLAMP x y
   = GridWorldDiscEnv._xy2s size GridWorldDiscEnv.EDGEMODE_CLAMP
       x (size - 1)).
Proof.
  intros Hsize.
  assert (Hwrap : forall u v,
            GridWorldDiscEnv._xy2s size GridWorldDiscEnv.EDGEMODE_WRAP u v
            = inr ((v mod size) * size + u mod size)%Z).
  { intros u v.
    unfold GridWorldDiscEnv._xy2s, GridWorldDiscEnv._apply_edge_mode, py_mod.
    cbn [Z.eqb GridWorldDiscEnv.EDGEMODE_WRAP
         GridWorldDiscEnv.EDGEMODE_CLAMP].
    destruct (Z.eqb_spec size 0); [lia | reflexivity]. }
  assert (Hclamp : forall u v,
            GridWorldDiscEnv._xy2s size GridWorldDiscEnv.EDGEMODE_CLAMP u v
            = inr (Z.min (Z.max v 0) (size - 1) * size
                   + Z.min (Z.max u 0) (size - 1))%Z).
  { intros u v. reflexivity. }
  split; [| split; [| repeat split]].
  - intros k l. rewrite !Hwrap. now rewrite !Z.mod_add by lia.
  - intros Hy. rewrite !Hwrap. rewrite (Z.mod_small y) by lia.
    rewrite Z.mod_same by lia.
    replace (-1)%Z with (size - 1 + (-1) * size)%Z by lia.
    rewrite Z.mod_add by lia. rewrite (Z.mod_small (size - 1)) by lia.
    split; f_equal; lia.
  - intros Hx. rewrite !Hclamp. f_equal. lia.
  - intros Hx. rewrite !Hclamp. f_equal. lia.
  - intros Hy. rewrite !Hclamp. f_equal. lia.
  - intros Hy. rewrite !Hclamp. f_equal. lia.
Qed.

Lemma edge_modes_on_3x3 :
  (0 < 3)%Z /\
  GridWorldDiscEnv._xy2s 3 GridWorldDiscEnv.EDGEMODE_WRAP 3 1 = inr 3%Z /\
  GridWorldDiscEnv._xy2s 3 GridWorldDiscEnv.EDGEMODE_CLAMP 3 1 = inr 5%Z /\
  (forall k l,
     GridWorldDiscEnv._xy2s 3 GridWorldDiscEnv.EDGEMODE_WRAP
       (2 + k * 3) (1 + l * 3)
     = GridWorldDiscEnv._xy2s 3 GridWorldDiscEnv.EDGEMODE_WRAP 2 1).
Proof.
  split; [reflexivity |]. split; [reflexivity |]. split; [reflexivity |].
  apply (@edge_modes_wrap_around_or_stay 3 2 1). reflexivity.
Defined.

Lemma nth_replace_item {A : Type} (l : list A) (i j : nat) (y dflt : A) :
  i < length l ->
  nth j (firstn i l ++ y :: skipn (S i) l) dflt
  = if j =? i then y else nth j l dflt.
Proof.
  intros Hi.
  assert (Hf : length (firstn i l) = i) by (rewrite length_firstn; lia).
  destruct (Nat.eqb_spec j i) as [-> | Hne].
  - rewrite app_nth2 by lia. rewrite Hf, Nat.sub_diag. reflexivity.
  - destruct (Nat.lt_ge_cases j i) as [Hlt | Hge].
    + rewrite app_nth1 by lia.
      rewrite <- (firstn_skipn i l) at 2. rewrite app_nth1 by lia.
      reflexivity.
    + rewrite app_nth2 by lia. rewrite Hf.
      destruct (j - i) as [| q] eqn:Hq; [lia |]. cbn [nth].
      rewrite nth_skipn. f_equal. lia.
Qed.

Section DeterministicWorld.

Variables State World : Type.
Variable successor : State -> nat -> State.
Variable basis_value_fn : State -> vec.
Variable num_transition_samples : positive.
Variable num_actions d : nat.

Hypothesis basis_length : forall s, length (basis_value_fn s) = d.

Let otf (s : State) (a : nat) (w : World) : State * World :=
  (successor s a, w).

(** Column [a] holds [times] copies of the basis values of the successor. *)
Let holds (state : State) (cols : list vec) (a : nat) (times : Z) : Prop :=
  forall k, (nth k (nth a cols []) 0
             == inject_Z times * nth k (basis_value_fn (successor state a)) 0)%Q.

Lemma accumulate_value_expectations_deterministic state w :
  exists cols,
    accumulate_value_expectations num_actions otf basis_value_fn
      num_transition_samples d state w = inr (cols, w) /\
    a_ve_columns num_actions d cols /\
    forall a, a < num_actions ->
      holds state cols a (Zpos num_transition_samples).
Proof.
  unfold accumulate_value_expectations, for_range.
  pose (Inv := fun (done : list nat) (s : list vec * World) =>
                 snd s = w /\ a_ve_columns num_actions d (fst s) /\
                 forall a, a < num_actions ->
                   holds state (fst s) a (Z.of_nat (length done))).
  match goal with
  | |- context [for_loop ?body ?items ?s0] =>
      destruct (@for_loop_returns _ _ body Inv items) with
        (done := @nil nat) (s := s0) as ([cols w'] & Hout & Hw & Hcols & Hval)
  end.
  - intros pass done [cols0 w0] _ (Hw0 & Hshape0 & Hval0).
    cbn [fst snd] in Hw0, Hshape0, Hval0. subst w0.
    pose (Inner := fun (acts : list nat) (s : list vec * World) =>
                     snd s = w /\ a_ve_columns num_actions d (fst s) /\
                     forall a, a < num_actions ->
                       holds state (fst s) a
                         (Z.of_nat (length done)
                          + (if a <? length acts then 1 else 0))).
    match goal with
    | |- exists s', for_loop ?body ?items ?s0 = inr s' /\ _ =>
        destruct (@for_loop_prefix_returns _ _ body Inner items) with
          (s := s0) as ([cols1 w1] & Hrun & Hw1 & Hshape1 & Hval1)
    end.
    + intros acts a rest [cols1 w1] Hsplit (Hw1 & (Hlen & Hall) & Hval1).
      cbn [fst snd] in Hw1, Hlen, Hall, Hval1. subst w1.
      apply seq_split_index in Hsplit. destruct Hsplit as (Ha & Hlt).
      cbn [Nat.add] in Ha, Hlt.
      assert (Hcol : length (nth a cols1 []) = d).
      { rewrite Forall_forall in Hall. apply Hall, nth_In. lia. }
      unfold otf. cbn iota beta.
      unfold iadd_broadcast. rewrite basis_length, Hcol, Nat.eqb_refl.
      cbn [bind ret]. eexists. split; [reflexivity |].
      split; [reflexivity |]. cbn [fst]. split.
      * split.
        -- etransitivity; [apply length_replace_item; lia | exact Hlen].
        -- apply Forall_replace_item; [exact Hall |].
           rewrite length_zip_with, Hcol, basis_length. lia.
      * intros a' Ha' k. unfold holds in Hval1.
        rewrite nth_replace_item by lia. rewrite length_app. cbn [length].
        destruct (Nat.eqb_spec a' a) as [-> | Hne].
        -- destruct (Nat.ltb_spec a (length acts + 1)) as [_ | ?]; [| lia].
           destruct (Nat.lt_ge_cases k d) as [Hk | Hk].
           ++ rewrite (@nth_zip_with Q Q Q Qplus 0%Q 0%Q 0%Q)
                by (rewrite ?Hcol, ?basis_length; lia).
              rewrite (Hval1 a Ha' k).
              destruct (Nat.ltb_spec a (length acts)) as [? | _]; [lia |].
              rewrite !inject_Z_plus. change (inject_Z 0) with 0%Q.
              change (inject_Z 1) with 1%Q. ring.
           ++ rewrite !nth_overflow
                by (rewrite ?length_zip_with, ?Hcol, ?basis_length; lia).
              ring.
        -- rewrite (Hval1 a' Ha' k).
           destruct (Nat.ltb_spec a' (length acts)) as [H1 | H1];
             destruct (Nat.ltb_spec a' (length acts + 1)) as [H2 | H2];
             try lia; reflexivity.
    + split; [reflexivity |]. split; [exact Hshape0 |].
      intros a Ha k. cbn [fst length Nat.ltb Nat.leb].
      rewrite Z.add_0_r. apply Hval0, Ha.
    + exists (cols1, w1). split; [exact Hrun |].
      split; [exact Hw1 |]. split; [exact Hshape1 |].
      intros a Ha k. cbn [fst] in Hval1 |- *.
      rewrite (Hval1 a Ha k). rewrite length_seq.
      destruct (Nat.ltb_spec a num_actions) as [_ | ?]; [| lia].
      rewrite length_app. cbn [length].
      replace (Z.of_nat (length done + 1))
        with (Z.of_nat (length done) + 1)%Z by lia.
      reflexivity.
  - split; [reflexivity |]. cbn [fst]. split.
    + split; [apply repeat_length |].
      apply Forall_forall. intros col Hin.
      apply repeat_spec in Hin. subst. apply repeat_length.
    + intros a Ha k. unfold holds. cbn [length Z.of_nat].
      rewrite nth_repeat_lt by exact Ha.
      destruct (Nat.lt_ge_cases k d) as [Hk | Hk].
      * rewrite nth_repeat_lt by exact Hk. unfold inject_Z. ring.
      * rewrite nth_overflow by (rewrite repeat_length; lia).
        unfold inject_Z. ring.
  - cbn [fst snd] in Hw, Hcols, Hval. subst w'.
    exists cols. split; [exact Hout |]. split; [exact Hcols |].
    intros a Ha k. rewrite (Hval a Ha k).
    cbn [app length]. rewrite length_seq. now rewrite positive_nat_Z.
Qed.

End DeterministicWorld.

(** X28.  Samples of a deterministic world are wasted.  When the transition
    function always answers the same successor for a state and an action
    (and leaves the source of randomness alone), the value expectations
    [a_ve] that [large_linear_programming] estimates for a state are the
    basis values of the successors themselves, column by column, whatever
    the number of transition samples. *)
Theorem deterministic_world_needs_no_resampling
    (State World : Type) (successor : State -> nat -> State)
    (basis_value_fn : State -> vec)
    (num_transition_samples : positive) (num_actions d : nat)
    (state : State) (w : World) :
  (forall s, length (basis_value_fn s) = d) ->
  exists a_ve,
    value_expectations num_actions
      (fun s a w0 => (successor s a, w0)) basis_value_fn
      num_transition_samples d state w = inr (a_ve, w) /\
    length a_ve = num_actions /\
    forall a, a < num_actions ->
      length (nth a a_ve []) = d /\
      forall k, (nth k (nth a a_ve []) 0
                 == nth k (basis_value_fn (successor state a)) 0)%Q.
Proof.
  intros Hlen.
  destruct (@accumulate_value_expectations_deterministic State World
              successor basis_value_fn num_transition_samples num_actions d
              Hlen state w) as (cols & Hacc & (Hn & Hall) & Hval).
  unfold value_expectations. rewrite Hacc. cbn [bind ret].
  eexists. split; [reflexivity |]. split; [now rewrite length_map |].
  intros a Ha.
  set (g := fun v : Q => (v / inject_Z (Z.pos num_transition_samples))%Q).
  change (@nil Q) with (map g []). rewrite map_nth.
  assert (Hcol : length (nth a cols []) = d).
  { rewrite Forall_forall in Hall. apply Hall, nth_In. lia. }
  split; [now rewrite length_map |].
  intros k. destruct (Nat.lt_ge_cases k d) as [Hk | Hk].
  - rewrite (@nth_map_in_range Q Q g 0%Q 0%Q) by lia.
    unfold g. rewrite (Hval a Ha k). field.
    unfold inject_Z, Qeq. simpl. lia.
  - rewrite !nth_overflow by (rewrite ?length_map, ?Hcol, ?Hlen; lia).
    reflexivity.
Qed.

Lemma chain_needs_no_resampling :
  (forall s, length (chain_basis_value_fn s) = 2) /\
  exists a_ve,
    value_expectations 2 chain_otf chain_basis_value_fn 7 2 1 tt
    = inr (a_ve, tt) /\
    length a_ve = 2 /\
    forall a, a < 2 ->
      length (nth a a_ve []) = 2 /\
      forall k, (nth k (nth a a_ve []) 0
                 == nth k (chain_basis_value_fn (chain_step 1 a)) 0)%Q.
Proof.
  split; [reflexivity |].
  apply (@deterministic_world_needs_no_resampling nat unit chain_step
           chain_basis_value_fn 7 2 2 1 tt).
  reflexivity.
Defined.
